(** * A shallow embedding of the PDF writer of react-pdf's pdfkit bundle

    The development follows the JavaScript source class by class:
    [PDFObject] (value serialisation), [AFMFont] / [StandardFont]
    (WinAnsi encoding), [EmbeddedFont] (glyph subsetting), the
    [PDFDocument] writer with [PDFReference.finalize], [LineWrapper.eachWord]
    and the justification arithmetic of [TextMixin._fragment]; then the
    code around them: [PDFObject.convert] for every kind of value, the
    metrics of a standard font, the map from glyphs to text of an embedded
    font, [LineWrapper.wrap], the TJ operators of [_fragment], the buffer
    of pages, the transformation matrix of [VectorMixin], the rectangle of
    an annotation and the stream of a [PDFReference].

    Conventions.
    - A JavaScript string is the list of its UTF-16 code units, each a [Z].
    - A [Buffer] and the output stream are lists of [byte].
    - A call that can [throw] returns a [result]. *)

From Stdlib Require Import ZArith QArith Qminmax Qround Qpower Lia Lqa Bool List.
From Stdlib Require Import Strings.String Strings.Ascii Strings.Byte.
From Stdlib Require Import Floats.
From stdpp Require Import base option list gmap.

Import ListNotations.
Local Open Scope Z_scope.

(** ** JavaScript values shared by all classes *)

Module JS.

(** A string: UTF-16 code units. *)
Abbreviation jsstring := (list Z) (only parsing).

(** The code units of an ASCII literal of the source. *)
Definition lit (s : string) : jsstring :=
  map (fun a => Z.of_N (N_of_ascii a)) (list_ascii_of_string s).

(** The outcome of a call that may [throw new Error(msg)]. *)
Inductive result (A : Type) : Type :=
| Ok (a : A)
| Throw (msg : string).
Arguments Ok {A} a.
Arguments Throw {A} msg.

Definition bind {A B} (r : result A) (k : A -> result B) : result B :=
  match r with
  | Ok a => k a
  | Throw m => Throw m
  end.

(** [a || b] on numbers: [a] unless it is falsy (0 or undefined). *)
Definition or_number (a : option Z) (b : Z) : Z :=
  match a with
  | Some v => if v =? 0 then b else v
  | None => b
  end.

(** One digit of [Number.prototype.toString(radix)], radix <= 16. *)
Definition digit (d : Z) : ascii :=
  if d <? 10 then ascii_of_N (Z.to_N (48 + d))
  else ascii_of_N (Z.to_N (87 + d)).

(** [n.toString(radix)] for an integer [n >= 0]: most significant digit
    first, no padding, lower-case letters. The digits are produced from
    the least significant one; [fuel] bounds their number. *)
Fixpoint digits (fuel : nat) (radix n : Z) (acc : list ascii) : list ascii :=
  match fuel with
  | O => acc
  | S f =>
      let acc' := digit (n mod radix) :: acc in
      if n / radix =? 0 then acc' else digits f radix (n / radix) acc'
  end.

Definition toString (radix n : Z) : string :=
  string_of_list_ascii (digits (S (Z.to_nat (Z.log2 n))) radix n []).

(** [s.slice(-n)]: the last [n] characters, or all of [s] when it is
    shorter. *)
Definition sliceLast (n : nat) (s : string) : string :=
  let l := list_ascii_of_string s in
  string_of_list_ascii (drop (length l - n) l).

(** [`${n}`] for an integer [n >= 0]. *)
Definition decimal (n : Z) : string := toString 10 n.

Definition isHighSurrogate (u : Z) : bool := (0xD800 <=? u) && (u <=? 0xDBFF).
Definition isLowSurrogate (u : Z) : bool := (0xDC00 <=? u) && (u <=? 0xDFFF).

(** [text.codePointAt(i)] read on the suffix [text.slice(i)]: a surrogate
    pair is one code point, anything else is the code unit itself. *)
Definition codePointAt (suffix : jsstring) : option Z :=
  match suffix with
  | [] => None
  | u :: rest =>
      match rest with
      | v :: _ =>
          if isHighSurrogate u && isLowSurrogate v
          then Some ((u - 0xD800) * 0x400 + (v - 0xDC00) + 0x10000)
          else Some u
      | [] => Some u
      end
  end.

End JS.

Import JS.

(** ** PDFObject: conversion of JavaScript values to PDF syntax *)

Module PDFObject.

(** [escapableRe = /[\n\r\t\b\f()\\]/g]: inside a character class [\b]
    is the backspace U+0008. *)
Definition escapableRe (c : Z) : bool :=
  existsb (Z.eqb c) [10; 13; 9; 8; 12; 40; 41; 92].

(** The table [escapable], key by key in source order. *)
Definition escapable : list (Z * jsstring) :=
  [ (10, lit "\n"); (13, lit "\r"); (9, lit "\t"); (8, lit "\b");
    (12, lit "\f"); (92, lit "\\"); (40, lit "\("); (41, lit "\)") ].

Fixpoint assoc {A} (k : Z) (t : list (Z * A)) : option A :=
  match t with
  | [] => None
  | (k', v) :: t' => if k =? k' then Some v else assoc k t'
  end.

(** The callback [c => escapable[c]] of [String.prototype.replace]; a
    missing key would be rendered as the text [undefined]. *)
Definition escape_char (c : Z) : jsstring :=
  if escapableRe c
  then match assoc c escapable with
       | Some e => e
       | None => lit "undefined"
       end
  else [c].

(** [string.replace(escapableRe, c => escapable[c])]. *)
Definition escape (s : jsstring) : jsstring := flat_map escape_char s.

(** The scan [for (i ...) if (string.charCodeAt(i) > 0x7f) ... break]. *)
Definition isUnicode (s : jsstring) : bool := existsb (fun c => 0x7f <? c) s.

(** [Buffer.from(str, 'utf16le')]: low byte, then high byte. *)
Definition utf16le (s : jsstring) : list Z :=
  flat_map (fun u => [Z.land u 0xff; Z.land (Z.shiftr u 8) 0xff]) s.

(** [swapBytes]: exchanges the bytes of every pair; throws on odd length. *)
Fixpoint swapPairs (buff : list Z) : list Z :=
  match buff with
  | a :: b :: rest => b :: a :: swapPairs rest
  | other => other
  end.

Definition swapBytes (buff : list Z) : result (list Z) :=
  if Z.odd (Z.of_nat (length buff))
  then Throw "Buffer length must be even"
  else Ok (swapPairs buff).

(** The branch [object instanceof String] of [convert]. *)
Definition convert_String (object : jsstring) : result jsstring :=
  bind (if isUnicode object
        then swapBytes (utf16le (0xfeff :: object))
        else Ok object)
       (fun string => Ok (lit "(" ++ escape string ++ lit ")")).

(** The branch [typeof object === 'string']: a PDF name. *)
Definition convert_name (object : jsstring) : jsstring := lit "/" ++ object.

(** *** The reverse of the escaping, as the specification words it

    Reading a literal back: a backslash followed by one of the letters of
    the eight escape sequences stands for the escaped character. *)
Definition unescape_letter (c : Z) : Z :=
  if c =? 110 then 10        (* n *)
  else if c =? 114 then 13   (* r *)
  else if c =? 116 then 9    (* t *)
  else if c =? 98 then 8     (* b *)
  else if c =? 102 then 12   (* f *)
  else c.                    (* \\ \( \) *)

Fixpoint unescape (s : jsstring) : jsstring :=
  match s with
  | [] => []
  | c :: tl =>
      if c =? 92
      then match tl with
           | d :: rest => unescape_letter d :: unescape rest
           | [] => [c]
           end
      else c :: unescape tl
  end.

(** The escaping as the specification words it: each of the eight
    characters becomes a backslash and a letter, any other stays. *)
Definition spec_escape_char (c : Z) : jsstring :=
  if c =? 10 then [92; 110]
  else if c =? 13 then [92; 114]
  else if c =? 9 then [92; 116]
  else if c =? 8 then [92; 98]
  else if c =? 12 then [92; 102]
  else if c =? 92 then [92; 92]
  else if c =? 40 then [92; 40]
  else if c =? 41 then [92; 41]
  else [c].

(** *** Numbers: IEEE binary64, as in the JavaScript engine *)

(** [Math.round]: the nearest integer, a tie going towards +infinity; NaN,
    infinities, zeros and integers are returned as they are, and a result
    of zero keeps the sign of the argument. *)
Definition Math_round (x : float) : float :=
  match Prim2SF x with
  | S754_finite s m e =>
      if (0 <=? e)%Z then x
      else
        let v := if s then Z.neg m else Z.pos m in
        let r := (2 * v + 2 ^ (- e)) / 2 ^ (1 - e) in
        if r =? 0 then (if s then (-0)%float else 0%float)
        else if r <? 0 then (- (of_uint63 (Uint63.of_Z (- r))))%float
        else of_uint63 (Uint63.of_Z r)
  | _ => x
  end.

(** [PDFObject.number]. The message of the error also carries the number. *)
Definition number (n : float) : result float :=
  if ((-1e21 <? n) && (n <? 1e21))%float
  then Ok (Math_round (n * 1e6) / 1e6)%float
  else Throw "unsupported number".

(** *** Numbers in the words of the language

    What a float stands for, the rounding of [Math.round] as the
    specification of the language words it, and the floats of the
    integers, to compare [Math_round] and [number] with. *)

(** The number a finite float stands for: its mantissa, with its sign,
    times two to the exponent. *)
Definition exactValue (x : float) : option Q :=
  match Prim2SF x with
  | S754_zero _ => Some 0%Q
  | S754_finite s m e =>
      Some (inject_Z (if s then Z.neg m else Z.pos m) * 2 ^ e)%Q
  | _ => None
  end.




(** Two floats that are the same number: the same float, or two floats
    that compare equal, as the two zeros do. *)
Definition sameNumber (a b : float) : Prop :=
  a = b \/ (a =? b)%float = true.

(** *** Every kind of value: [pad], and [convert] in full *)

(** [`${n}`] for an integer. *)
Definition showInt (n : Z) : string :=
  if n <? 0 then String "-" (decimal (- n)) else decimal n.

(** [pad(str, length)] for an integer [str]:
    [(Array(length + 1).join('0') + str).slice(-length)]. The array of
    [length + 1] holes joins to [length] zeros; [slice(-0)] is [slice(0)],
    the whole string. *)
Definition pad (str : Z) (length : nat) : string :=
  let s := (string_of_list_ascii (replicate length "0"%char) ++ showInt str)%string in
  match length with
  | O => s
  | _ => sliceLast length s
  end.

(** A valid [Date], read through its UTC getters. *)
Record Date : Type := {
  getUTCFullYear : Z;
  getUTCMonth : Z;
  getUTCDate : Z;
  getUTCHours : Z;
  getUTCMinutes : Z;
  getUTCSeconds : Z
}.

(** [buffer.toString('hex')]: two lower-case digits per byte. *)
Definition hexByte (b : byte) : list ascii :=
  let n := Z.of_N (Byte.to_N b) in [digit (n / 16); digit (n mod 16)].

Definition hex (buff : list byte) : string :=
  string_of_list_ascii (flat_map hexByte buff).

(** [array.join(sep)] on strings. *)
Fixpoint join (sep : jsstring) (l : list jsstring) : jsstring :=
  match l with
  | [] => []
  | x :: rest =>
      match rest with
      | [] => x
      | _ => x ++ sep ++ join sep rest
      end
  end.

(** [array.sort(cmp)]: the sort of the language is stable, and with a
    consistent comparator its result is the one of any stable sort; this
    one inserts each element before the first element that does not come
    before it. *)
Fixpoint insertBy {A} (cmp : A -> A -> Z) (x : A) (l : list A) : list A :=
  match l with
  | [] => [x]
  | y :: rest => if cmp x y <=? 0 then x :: l else y :: insertBy cmp x rest
  end.

Definition sortBy {A} (cmp : A -> A -> Z) (l : list A) : list A :=
  foldr (insertBy cmp) [] l.

(** Calls made one after the other: the first that throws ends them. *)
Fixpoint sequence {A} (l : list (result A)) : result (list A) :=
  match l with
  | [] => Ok []
  | r :: rest => bind r (fun a => bind (sequence rest) (fun l' => Ok (a :: l')))
  end.

(** What [convert] returns: a string, or for a Number the rounded Number,
    which the caller's template string or [join] turns into text. *)
Inductive rendered : Type :=
| Text (s : jsstring)
| Num (n : float).

(** The values [convert] tells apart, in the order of its tests: a string
    primitive, a [String] object, a [Buffer], a [PDFReference] (its [id] and
    [gen]), a [PDFNameTree] (its [_items] in key order of enumeration and
    its [limits]), a [Date], an array, any other object whose class string
    is [[object Object]] (its enumerable properties in [for ... in] order),
    a Number, and anything else, given by its text [`${object}`]. *)
#[warnings="-register-all"]
Inductive value : Type :=
| VName (s : jsstring)
| VString (s : jsstring)
| VBuffer (buff : list byte)
| VReference (id gen : Z)
| VNameTree (items : list (jsstring * value)) (limits : bool)
| VDate (d : Date)
| VArray (elements : list value)
| VObject (entries : list (jsstring * value))
| VNumber (n : float)
| VOther (text : jsstring).

Definition LF : jsstring := [10].

Section Convert.

(** [`${n}`] for a Number, the conversion of the language. *)
Variable numberToString : float -> jsstring.

(** [a.localeCompare(b)], which depends on the locale of the host. *)
Variable localeCompare : jsstring -> jsstring -> Z.

Definition show (r : rendered) : jsstring :=
  match r with
  | Text s => s
  | Num n => numberToString n
  end.

(** [PDFTree.toString], for a tree whose subclass gives [_compareKeys],
    [_keysName] and, as [convertKey], the conversion of [_dataForKey(key)].
    The items come with their values converted, in the order
    [Object.keys(this._items)] lists them; a conversion that throws does so
    when its line is reached. *)
Section PDFTree.

Variable _compareKeys : jsstring -> jsstring -> Z.
Variable _keysName : jsstring.
Variable convertKey : jsstring -> result rendered.

Definition PDFTree_sortedKeys {A} (items : list (jsstring * A))
    : list (jsstring * A) :=
  sortBy (fun a b => _compareKeys a.1 b.1) items.

Definition PDFTree_toString (limits : bool)
    (items : list (jsstring * result rendered)) : result jsstring :=
  let sorted := PDFTree_sortedKeys items in
  bind (if limits && (1 <? length sorted)%nat
        then match head sorted, last sorted with
             | Some first, Some lst =>
                 bind (convertKey first.1) (fun f =>
                 bind (convertKey lst.1) (fun l =>
                 Ok [lit "  /Limits [" ++ show f ++ lit " " ++ show l ++ lit "]"]))
             | _, _ => Ok []
             end
        else Ok [])
    (fun limitsLine =>
     bind (sequence
             (map (fun kv =>
                     bind (convertKey kv.1) (fun k =>
                     bind kv.2 (fun v =>
                     Ok (lit "    " ++ show k ++ lit " " ++ show v))))
                  sorted))
       (fun lines =>
          Ok (join LF
                ([lit "<<"] ++ limitsLine
                 ++ [lit "  /" ++ _keysName ++ lit " ["]
                 ++ lines ++ [lit "]"; lit ">>"])))).

End PDFTree.

(** [PDFObject.convert]. *)
Fixpoint convert (object : value) : result rendered :=
  match object with
  | VName s => Ok (Text (lit "/" ++ s))
  | VString s => bind (convert_String s) (fun s => Ok (Text s))
  | VBuffer buff => Ok (Text (lit "<" ++ lit (hex buff) ++ lit ">"))
  | VReference id gen =>
      Ok (Text (lit (showInt id ++ " " ++ showInt gen ++ " R")))
  | VNameTree items limits =>
      bind (PDFTree_toString localeCompare (lit "Names")
              (fun k => bind (convert_String k) (fun s => Ok (Text s)))
              limits (map (fun kv => (kv.1, convert kv.2)) items))
           (fun s => Ok (Text s))
  | VDate d =>
      Ok (Text (lit ("(D:" ++ pad (getUTCFullYear d) 4
                     ++ pad (getUTCMonth d + 1) 2 ++ pad (getUTCDate d) 2
                     ++ pad (getUTCHours d) 2 ++ pad (getUTCMinutes d) 2
                     ++ pad (getUTCSeconds d) 2 ++ "Z)")))
  | VArray elements =>
      bind (sequence (map convert elements)) (fun items =>
      Ok (Text (lit "[" ++ join (lit " ") (map show items) ++ lit "]")))
  | VObject entries =>
      bind (sequence
              (map (fun kv => bind (convert kv.2) (fun c =>
                              Ok (lit "/" ++ kv.1 ++ lit " " ++ show c)))
                   entries))
        (fun lines => Ok (Text (join LF ([lit "<<"] ++ lines ++ [lit ">>"]))))
  | VNumber n => bind (number n) (fun n => Ok (Num n))
  | VOther text => Ok (Text text)
  end.

End Convert.

(** What the language promises of [`${n}`], the text of a Number, and of
    [parseFloat]: the text reads back as the number, and the text of a
    Number that is an integer below 10^21 in size is the integer in
    decimal digits, with no decimal point and no exponent. *)
Definition roundTrips (numberToString : float -> jsstring)
    (parseFloat : jsstring -> float) : Prop :=
  forall x : float, sameNumber (parseFloat (numberToString x)) x.

Definition integersPlain (numberToString : float -> jsstring) : Prop :=
  forall (x : float) (q : Q) (z : Z),
    exactValue x = Some q -> (q == inject_Z z)%Q ->
    - 10 ^ 21 < z < 10 ^ 21 ->
    numberToString x = lit (showInt z).

(** *** Reading converted values back, as a consumer of the file does *)

(** Big-endian UTF-16: two bytes make one code unit. *)
Fixpoint utf16beUnits (bytes : list Z) : option (list Z) :=
  match bytes with
  | [] => Some []
  | hi :: rest =>
      match rest with
      | lo :: rest' => option_map (cons (hi * 256 + lo)) (utf16beUnits rest')
      | [] => None
      end
  end.

(** The value of a hexadecimal digit. *)
Definition hexValue (c : ascii) : option Z :=
  let n := Z.of_N (N_of_ascii c) in
  if (48 <=? n) && (n <=? 57) then Some (n - 48)
  else if (97 <=? n) && (n <=? 102) then Some (n - 87)
  else if (65 <=? n) && (n <=? 70) then Some (n - 55)
  else None.

(** A hexadecimal string read back as bytes. *)
Fixpoint unhex (s : list ascii) : option (list byte) :=
  match s with
  | [] => Some []
  | h :: rest =>
      match rest with
      | l :: rest' =>
          match hexValue h, hexValue l, unhex rest' with
          | Some a, Some b, Some bs =>
              option_map (fun x => x :: bs) (Byte.of_N (Z.to_N (16 * a + b)))
          | _, _, _ => None
          end
      | [] => None
      end
  end.

(** A value holds no Number outside the open range that [number] accepts. *)
Definition inRange (n : float) : bool := ((-1e21 <? n) && (n <? 1e21))%float.

Fixpoint supported (object : value) : bool :=
  match object with
  | VNameTree items _ => forallb (fun kv => supported kv.2) items
  | VArray elements => forallb supported elements
  | VObject entries => forallb (fun kv => supported kv.2) entries
  | VNumber n => inRange n
  | _ => true
  end.

(** The outcome of a value: it is converted, or the conversion throws the
    error of [number]. *)
Definition settled {A} (ok : bool) (r : result A) : Prop :=
  if ok then exists a, r = Ok a else r = Throw "unsupported number".

(** Induction on a value and on the values it holds. *)
Section value_induction.

Variable P : value -> Prop.
Hypothesis HName : forall s, P (VName s).
Hypothesis HString : forall s, P (VString s).
Hypothesis HBuffer : forall b, P (VBuffer b).
Hypothesis HReference : forall id gen, P (VReference id gen).
Hypothesis HNameTree :
  forall items limits, Forall (fun kv => P kv.2) items -> P (VNameTree items limits).
Hypothesis HDate : forall d, P (VDate d).
Hypothesis HArray : forall elements, Forall P elements -> P (VArray elements).
Hypothesis HObject :
  forall entries, Forall (fun kv => P kv.2) entries -> P (VObject entries).
Hypothesis HNumber : forall n, P (VNumber n).
Hypothesis HOther : forall text, P (VOther text).

Fixpoint value_nested_ind (v : value) : P v :=
  match v with
  | VName s => HName s
  | VString s => HString s
  | VBuffer b => HBuffer b
  | VReference id gen => HReference id gen
  | VNameTree items limits =>
      HNameTree items limits
        ((fix go (l : list (jsstring * value)) : Forall (fun kv => P kv.2) l :=
            match l with
            | [] => @List.Forall_nil _ _
            | kv :: l' => @List.Forall_cons _ _ kv l' (value_nested_ind kv.2) (go l')
            end) items)
  | VDate d => HDate d
  | VArray elements =>
      HArray elements
        ((fix go (l : list value) : Forall P l :=
            match l with
            | [] => @List.Forall_nil _ _
            | x :: l' => @List.Forall_cons _ _ x l' (value_nested_ind x) (go l')
            end) elements)
  | VObject entries =>
      HObject entries
        ((fix go (l : list (jsstring * value)) : Forall (fun kv => P kv.2) l :=
            match l with
            | [] => @List.Forall_nil _ _
            | kv :: l' => @List.Forall_cons _ _ kv l' (value_nested_ind kv.2) (go l')
            end) entries)
  | VNumber n => HNumber n
  | VOther text => HOther text
  end.

End value_induction.

End PDFObject.


(** ** AFMFont: the metrics and encoding of the fourteen standard fonts *)

Module AFMFont.

(** [getUTF16Increment]: the code units a code point occupies. *)
Definition getUTF16Increment (codePoint : Z) : nat :=
  if 0xffff <? codePoint then 2%nat else 1%nat.

(** The object [WIN_ANSI_MAP], entry by entry. *)
Definition WIN_ANSI_MAP : gmap Z Z :=
  list_to_map [
  (402, 131); (8211, 150); (8212, 151); (8216, 145);
  (8217, 146); (8218, 130); (8220, 147); (8221, 148);
  (8222, 132); (8224, 134); (8225, 135); (8226, 149);
  (8230, 133); (8364, 128); (8240, 137); (8249, 139);
  (8250, 155); (710, 136); (8482, 153); (338, 140);
  (339, 156); (732, 152); (352, 138); (353, 154);
  (376, 159); (381, 142); (382, 158) ].

(** The array [characters]: the 256 glyph names of the encoding, split
    from the template string of the source. *)
Definition characters : list string := [
  ".notdef"; ".notdef"; ".notdef"; ".notdef";
  ".notdef"; ".notdef"; ".notdef"; ".notdef";
  ".notdef"; ".notdef"; ".notdef"; ".notdef";
  ".notdef"; ".notdef"; ".notdef"; ".notdef";
  ".notdef"; ".notdef"; ".notdef"; ".notdef";
  ".notdef"; ".notdef"; ".notdef"; ".notdef";
  ".notdef"; ".notdef"; ".notdef"; ".notdef";
  ".notdef"; ".notdef"; ".notdef"; ".notdef";
  "space"; "exclam"; "quotedbl"; "numbersign";
  "dollar"; "percent"; "ampersand"; "quotesingle";
  "parenleft"; "parenright"; "asterisk"; "plus";
  "comma"; "hyphen"; "period"; "slash";
  "zero"; "one"; "two"; "three";
  "four"; "five"; "six"; "seven";
  "eight"; "nine"; "colon"; "semicolon";
  "less"; "equal"; "greater"; "question";
  "at"; "A"; "B"; "C";
  "D"; "E"; "F"; "G";
  "H"; "I"; "J"; "K";
  "L"; "M"; "N"; "O";
  "P"; "Q"; "R"; "S";
  "T"; "U"; "V"; "W";
  "X"; "Y"; "Z"; "bracketleft";
  "backslash"; "bracketright"; "asciicircum"; "underscore";
  "grave"; "a"; "b"; "c";
  "d"; "e"; "f"; "g";
  "h"; "i"; "j"; "k";
  "l"; "m"; "n"; "o";
  "p"; "q"; "r"; "s";
  "t"; "u"; "v"; "w";
  "x"; "y"; "z"; "braceleft";
  "bar"; "braceright"; "asciitilde"; ".notdef";
  "Euro"; ".notdef"; "quotesinglbase"; "florin";
  "quotedblbase"; "ellipsis"; "dagger"; "daggerdbl";
  "circumflex"; "perthousand"; "Scaron"; "guilsinglleft";
  "OE"; ".notdef"; "Zcaron"; ".notdef";
  ".notdef"; "quoteleft"; "quoteright"; "quotedblleft";
  "quotedblright"; "bullet"; "endash"; "emdash";
  "tilde"; "trademark"; "scaron"; "guilsinglright";
  "oe"; ".notdef"; "zcaron"; "ydieresis";
  "space"; "exclamdown"; "cent"; "sterling";
  "currency"; "yen"; "brokenbar"; "section";
  "dieresis"; "copyright"; "ordfeminine"; "guillemotleft";
  "logicalnot"; "hyphen"; "registered"; "macron";
  "degree"; "plusminus"; "twosuperior"; "threesuperior";
  "acute"; "mu"; "paragraph"; "periodcentered";
  "cedilla"; "onesuperior"; "ordmasculine"; "guillemotright";
  "onequarter"; "onehalf"; "threequarters"; "questiondown";
  "Agrave"; "Aacute"; "Acircumflex"; "Atilde";
  "Adieresis"; "Aring"; "AE"; "Ccedilla";
  "Egrave"; "Eacute"; "Ecircumflex"; "Edieresis";
  "Igrave"; "Iacute"; "Icircumflex"; "Idieresis";
  "Eth"; "Ntilde"; "Ograve"; "Oacute";
  "Ocircumflex"; "Otilde"; "Odieresis"; "multiply";
  "Oslash"; "Ugrave"; "Uacute"; "Ucircumflex";
  "Udieresis"; "Yacute"; "Thorn"; "germandbls";
  "agrave"; "aacute"; "acircumflex"; "atilde";
  "adieresis"; "aring"; "ae"; "ccedilla";
  "egrave"; "eacute"; "ecircumflex"; "edieresis";
  "igrave"; "iacute"; "icircumflex"; "idieresis";
  "eth"; "ntilde"; "ograve"; "oacute";
  "ocircumflex"; "otilde"; "odieresis"; "divide";
  "oslash"; "ugrave"; "uacute"; "ucircumflex";
  "udieresis"; "yacute"; "thorn"; "ydieresis" ]%string.

(** [WIN_ANSI_MAP[codePoint] || codePoint]. *)
Definition charCode (codePoint : Z) : Z :=
  or_number (WIN_ANSI_MAP !! codePoint) codePoint.

(** The loop shared by [encodeText] and [glyphsForString]:
    [while (i < text.length) { cp = text.codePointAt(i); res.push(f(cp));
    i += getUTF16Increment(cp) }]. Each round advances [i], so
    [text.length] rounds always reach the exit test. *)
Fixpoint eachCodePoint {A} (f : Z -> A) (fuel : nat) (text : jsstring)
    (i : nat) (res : list A) : list A :=
  match fuel with
  | O => res
  | S fuel' =>
      match codePointAt (drop i text) with
      | None => res
      | Some codePoint =>
          eachCodePoint f fuel' text (i + getUTF16Increment codePoint)
            (res ++ [f codePoint])
      end
  end.

(** [encodeText]: one hexadecimal token per code point. *)
Definition encodeText (text : jsstring) : list string :=
  eachCodePoint (fun codePoint => toString 16 (charCode codePoint))
    (length text) text 0 [].

(** [array[k] || '.notdef'] for the glyph-name array: a missing or empty
    entry gives the placeholder. An index that is not a natural number
    names no entry. *)
Definition nameAt (k : Z) : option string :=
  if k <? 0 then None else characters !! Z.to_nat k.

Definition characterToGlyph (character : Z) : string :=
  match nameAt (charCode character) with
  | Some name => if String.eqb name "" then ".notdef"%string else name
  | None => ".notdef"%string
  end.

(** [glyphsForString]: one glyph name per code point. *)
Definition glyphsForString (text : jsstring) : list string :=
  eachCodePoint characterToGlyph (length text) text 0 [].

(** The code points of a string as the specification reads them: a
    surrogate pair is one code point, any other code unit is its own. *)
Fixpoint codePoints (text : jsstring) : list Z :=
  match text with
  | [] => []
  | u :: rest =>
      match rest with
      | v :: rest' =>
          if isHighSurrogate u && isLowSurrogate v
          then ((u - 0xD800) * 0x400 + (v - 0xDC00) + 0x10000) :: codePoints rest'
          else u :: codePoints rest
      | [] => [u]
      end
  end.

(** The code units of a string lie between 0 and 0xFFFF. *)
Definition validUnits (text : jsstring) : Prop :=
  Forall (fun u => 0 <= u <= 0xFFFF) text.

(** *** Glyph metrics

    The tables [glyphWidths] and [kernPairs] of a font, read by key; both
    hold integers, and a key with the value 0 is left out when the tables
    are expanded. *)
Record Metrics : Type := {
  glyphWidths : string -> option Z;
  kernPairs : string -> option Z
}.

(** [this.glyphWidths[glyph] || 0]. *)
Definition widthOfGlyph (font : Metrics) (glyph : string) : Z :=
  or_number (glyphWidths font glyph) 0.

(** [this.kernPairs[left + right] || 0]; after the last glyph [right] is
    [undefined], which the concatenation spells out. *)
Definition getKernPair (font : Metrics) (left : string) (right : option string)
    : Z :=
  or_number
    (kernPairs font (left ++ match right with
                             | Some r => r
                             | None => "undefined"
                             end)%string) 0.

(** [advancesForGlyphs(glyphs)], index by index. *)
Definition advancesForGlyphs (font : Metrics) (glyphs : list string) : list Z :=
  flat_map
    (fun index =>
       match glyphs !! index with
       | Some left_ =>
           [widthOfGlyph font left_ + getKernPair font left_ (glyphs !! S index)]
       | None => []
       end)
    (seq 0 (length glyphs)).

End AFMFont.

(** ** StandardFont: one of the fourteen fonts, with its metrics *)

Module StandardFont.

Import AFMFont.

(** The position of a glyph as the text renderer reads it. *)
Record Position : Type := {
  xAdvance : Q;
  yAdvance : Q;
  xOffset : Q;
  yOffset : Q;
  advanceWidth : Q
}.

(** [encode(text)]: the tokens and one position for each glyph. *)
Definition encode (font : Metrics) (text : jsstring)
    : list string * list Position :=
  let encoded := encodeText text in
  let glyphs := glyphsForString text in
  let advances := advancesForGlyphs font glyphs in
  let positions :=
    flat_map
      (fun i =>
         match glyphs !! i, advances !! i with
         | Some glyph, Some advance =>
             [{| xAdvance := inject_Z advance; yAdvance := 0; xOffset := 0;
                 yOffset := 0;
                 advanceWidth := inject_Z (widthOfGlyph font glyph) |}]
         | _, _ => []
         end)
      (seq 0 (length glyphs)) in
  (encoded, positions).

(** [widthOfString(string, size)]. *)
Definition widthOfString (font : Metrics) (string : jsstring) (size : Q) : Q :=
  let glyphs := glyphsForString string in
  let advances := advancesForGlyphs font glyphs in
  let width := fold_left Z.add advances 0 in
  let scale := (size / 1000)%Q in
  (inject_Z width * scale)%Q.

End StandardFont.

(** ** TextMixin._fragment: the hexadecimal payload of a TJ segment *)

Module TextSegment.

(** [encoded.slice(last, cur).join('')] of [addSegment]. *)
Definition segmentHex (encoded : list string) (last cur : nat) : string :=
  String.concat "" (take (cur - last) (drop last encoded)).

End TextSegment.

(** ** EmbeddedFont: glyph subsetting and CID encoding *)

Module EmbeddedFont.

(** A glyph as the font program hands it over: its id in the font, its
    advance width in font units and the code points it stands for. *)
Record Glyph : Type := {
  glyph_id : Z;
  advanceWidth : Q;
  glyph_codePoints : list Z
}.

(** What [EmbeddedFont] asks of the subsetting object of the font program:
    [font.createSubset()] and [subset.includeGlyph(id)], which answers the
    compact id and may grow the subset. *)
Class Subset (Sub : Type) : Type := {
  createSubset : Sub;
  includeGlyph : Z -> Sub -> nat * Sub
}.

(** [options.features], which the calls hand on to the font program: the
    tags of the features. The code only tests whether it is given; an
    array is truthy also when it is empty. *)
Definition Features : Type := list jsstring.

(** A run as the font program lays it out: its glyphs and its advance
    width. The positions, which run parallel to the glyphs, are left
    out. *)
Record Run : Type := {
  run_glyphs : list Glyph;
  run_advanceWidth : Q
}.

(** The parsed font program, as far as the constructor and [layout] read
    it: [unitsPerEm], [getGlyph(0)] and
    [layout(text, features, undefined, undefined, 'ltr')]. *)
Record Font : Type := {
  unitsPerEm : Q;
  getGlyph0 : Glyph;
  fontLayout : jsstring -> option Features -> Run
}.

(** A JavaScript array with holes: [a[i] == null] on a hole or past the
    end; an assignment past the end extends the array. *)
Abbreviation jsarray A := (list (option A)) (only parsing).

Definition array_get {A} (a : jsarray A) (i : nat) : option A :=
  match a !! i with
  | Some (Some v) => Some v
  | _ => None
  end.

Definition array_set {A} (a : jsarray A) (i : nat) (v : A) : jsarray A :=
  if (i <? length a)%nat
  then <[i := Some v]> a
  else a ++ replicate (i - length a) None ++ [Some v].

(** [if (a[i] == null) a[i] = v]. *)
Definition setIfUnset {A} (a : jsarray A) (i : nat) (v : A) : jsarray A :=
  match array_get a i with
  | None => array_set a i v
  | Some _ => a
  end.

(** [`0000${gid.toString(16)}`.slice(-4)]. *)
Definition hex4 (gid : nat) : string :=
  sliceLast 4 ("0000" ++ toString 16 (Z.of_nat gid))%string.

Section WithSubset.

Context {Sub : Type} `{Subset Sub}.

(** The fields of an [EmbeddedFont] instance that encoding reads and
    writes. *)
Record t : Type := {
  font : Font;
  subset : Sub;
  unicode : jsarray (list Z);
  widths : jsarray Q;
  scale : Q
}.

(** The constructor. *)
Definition new (f : Font) : t := {|
  font := f;
  subset := createSubset;
  unicode := [Some [0]];
  widths := [Some (advanceWidth (getGlyph0 f))];
  scale := (1000 / unitsPerEm f)%Q
|}.

(** [layoutRun(text, features)]: the run of the font program; what it
    changes are the positions. *)
Definition layoutRun (f : Font) (text : jsstring) (features : option Features)
    : Run :=
  fontLayout f text features.

(** [layoutCached(text)] memoises [layoutRun(text)], which is a function
    here, so the memo table is left out. *)
Definition layoutCached (f : Font) (text : jsstring) : Run :=
  layoutRun f text None.

Definition isDelimiter (c : option Z) : bool :=
  match c with
  | Some c => (c =? 32) || (c =? 9)
  | None => false
  end.

(** The loop of [layout]: the text is cut after every space or tab and
    each piece is laid out on its own. With [onlyWidth] the glyphs are not
    collected. *)
Fixpoint layoutLoop (f : Font) (fuel : nat) (text : jsstring)
    (onlyWidth : bool) (last index : nat) (glyphs : list Glyph)
    (advanceWidth : Q) : list Glyph * Q :=
  match fuel with
  | O => (glyphs, advanceWidth)
  | S fuel' =>
      if (index <=? length text)%nat then
        if ((index =? length text)%nat && (last <? index)%nat)
           || isDelimiter (text !! index)
        then
          let run := layoutCached f (take (S index - last) (drop last text)) in
          layoutLoop f fuel' text onlyWidth (S index) (S index)
            (if onlyWidth then glyphs else glyphs ++ run_glyphs run)
            (advanceWidth + run_advanceWidth run)%Q
        else layoutLoop f fuel' text onlyWidth last (S index) glyphs
               advanceWidth
      else (glyphs, advanceWidth)
  end.

(** What [layout] returns: [glyphs], which is [null] with [onlyWidth], and
    [advanceWidth]. *)
Record Layout : Type := {
  l_glyphs : option (list Glyph);
  l_advanceWidth : Q
}.

(** [layout(text, features, onlyWidth)]: with user features the whole text
    is one run of [layoutRun], whatever [onlyWidth] says. *)
Definition layout (f : Font) (text : jsstring) (features : option Features)
    (onlyWidth : bool) : Layout :=
  match features with
  | Some _ =>
      let run := layoutRun f text features in
      {| l_glyphs := Some (run_glyphs run);
         l_advanceWidth := run_advanceWidth run |}
  | None =>
      let '(glyphs, advanceWidth) :=
        layoutLoop f (2 + length text) text onlyWidth 0 0 [] 0 in
      {| l_glyphs := if onlyWidth then None else Some glyphs;
         l_advanceWidth := advanceWidth |}
  end.

(** The glyphs that [encode] iterates over. *)
Definition glyphsOf (l : Layout) : list Glyph :=
  match l_glyphs l with
  | Some glyphs => glyphs
  | None => []
  end.

(** The body of the loop of [encode] and of [encodeGlyphs]. *)
Definition encodeStep (st : t * list string) (glyph : Glyph) : t * list string :=
  let '(self, res) := st in
  let '(gid, subset') := includeGlyph (glyph_id glyph) (subset self) in
  let widths' :=
    setIfUnset (widths self) gid (advanceWidth glyph * scale self)%Q in
  let unicode' := setIfUnset (unicode self) gid (glyph_codePoints glyph) in
  ({| font := font self; subset := subset'; unicode := unicode';
      widths := widths'; scale := scale self |},
   res ++ [hex4 gid]).

(** [encodeGlyphs(glyphs)]: the updated instance and the tokens. *)
Definition encodeGlyphs (self : t) (glyphs : list Glyph) : t * list string :=
  fold_left encodeStep glyphs (self, []).

(** [encode(text, features)]: the same loop over the glyphs of
    [layout(text, features)], which is called without [onlyWidth]; the
    positions it also returns come unchanged from the layout. *)
Definition encode (self : t) (text : jsstring) (features : option Features)
    : t * list string :=
  encodeGlyphs self (glyphsOf (layout (font self) text features false)).

(** The calls a client can make on an instance. *)
Inductive call : Type :=
| CallEncode (text : jsstring) (features : option Features)
| CallEncodeGlyphs (glyphs : list Glyph).

Definition perform (self : t) (c : call) : t :=
  match c with
  | CallEncode text features => fst (encode self text features)
  | CallEncodeGlyphs glyphs => fst (encodeGlyphs self glyphs)
  end.

End WithSubset.

Arguments t Sub : clear implicits.

(** Modelled from the spec: the subsetting object, which belongs to the font
    program library and is not among the sources. "Every distinct glyph id
    seen is assigned a new sequential position in a growing subset table
    the first time it is used (id 0 reserved for notdef, pre-seeded)." The
    table lists the source glyph ids in the order of their positions. *)
Fixpoint indexOf (g : Z) (table : list Z) : option nat :=
  match table with
  | [] => None
  | g' :: rest => if g =? g' then Some O else option_map S (indexOf g rest)
  end.

#[export] Instance tableSubset : Subset (list Z) := {|
  createSubset := [0];
  includeGlyph g table :=
    match indexOf g table with
    | Some i => (i, table)
    | None => (length table, table ++ [g])
    end
|}.

(** The glyph ids of a run, each once, in the order of first use; and
    those of them that a table does not hold yet. *)
Fixpoint firstUses (gs : list Z) : list Z :=
  match gs with
  | [] => []
  | g :: rest => g :: filter (fun g' => g' <> g) (firstUses rest)
  end.

Definition newIds (table gs : list Z) : list Z :=
  firstUses (filter (fun g => indexOf g table = None) gs).

(** The compact ids that a run of glyph ids is given, and the table after
    it. *)
Fixpoint includeAll (table : list Z) (gs : list Z) : list nat * list Z :=
  match gs with
  | [] => ([], table)
  | g :: gs' =>
      let '(i, table') := includeGlyph g table in
      let '(ids, table'') := includeAll table' gs' in
      (i :: ids, table'')
  end.

(** *** The runs of a text

    A text cut after every space or tab, as a reader of [layout] expects
    it: [cur] is the piece being read. *)
Fixpoint pieces (text cur : jsstring) : list jsstring :=
  match text with
  | [] => match cur with [] => [] | _ => [cur] end
  | c :: rest =>
      if isDelimiter (Some c) then (cur ++ [c]) :: pieces rest []
      else pieces rest (cur ++ [c])
  end.

(** A piece is not empty, and only its last character may be a space or a
    tab. *)
Definition wellCut (piece : jsstring) : Prop :=
  piece <> [] /\ Forall (fun c => isDelimiter (Some c) = false) (removelast piece).

(** *** The map from glyphs back to text *)

(** [toHex(...codePoints)]: four digits for each number, the last four
    when it has more. *)
Definition toHex (codePoints : list Z) : string :=
  String.concat ""
    (map (fun code => sliceLast 4 ("0000" ++ toString 16 code)%string) codePoints).

(** The operand of [>>>] as an unsigned number of 32 bits. *)
Definition toUint32 (x : Z) : Z := x mod 2 ^ 32.

(** One code point as UTF-16, in hexadecimal: the body of the loop
    [for (let value of codePoints)]. *)
Definition encodeCodePoint (value : Z) : list string :=
  if 0xffff <? value then
    let value := value - 0x10000 in
    [toHex [Z.lor (Z.land (Z.shiftr (toUint32 value) 10) 0x3ff) 0xd800];
     toHex [Z.lor 0xdc00 (Z.land value 0x3ff)]]
  else [toHex [value]].

Definition NL : string := String (ascii_of_N 10) "".

(** The text before and after the blocks of entries. *)
Definition cmapHeader : string :=
  String.concat NL
    ["/CIDInit /ProcSet findresource begin"; "12 dict begin"; "begincmap";
     "/CIDSystemInfo <<"; "  /Registry (Adobe)"; "  /Ordering (UCS)";
     "  /Supplement 0"; ">> def"; "/CMapName /Adobe-Identity-UCS def";
     "/CMapType 2 def"; "1 begincodespacerange"; "<0000><ffff>";
     "endcodespacerange"]%string.

Definition cmapFooter : string :=
  String.concat NL
    ["endcmap"; "CMapName currentdict /CMap defineresource pop"; "end";
     "end"]%string.

(** [n + ' beginbfchar\n' + entries.join('\n') + '\nendbfchar'] after a
    line break. *)
Definition bfchar (entries : list string) : string :=
  (NL ++ decimal (Z.of_nat (length entries)) ++ " beginbfchar" ++ NL
   ++ String.concat NL entries ++ NL ++ "endbfchar")%string.

(** One entry, for the glyph [index] and its code points:
    ['<' + toHex(index) + '>' + '<' + encoded.join(' ') + '>']. *)
Definition cmapEntry (index : Z) (codePoints : list Z) : string :=
  ("<" ++ toHex [index] ++ "><"
   ++ String.concat " " (flat_map encodeCodePoint codePoints) ++ ">")%string.

(** The loop over [this.unicode.entries()]. A hole of the array is
    [undefined], which [for ... of] cannot iterate: a [TypeError]. *)
Fixpoint cmapLoop (unicode : jsarray (list Z)) (index : Z)
    (entries : list string) (unicodeMap : string)
    : result (list string * string) :=
  match unicode with
  | [] => Ok (entries, unicodeMap)
  | codePoints :: rest =>
      let '(entries, unicodeMap) :=
        if (100 <=? length entries)%nat
        then ([], (unicodeMap ++ bfchar entries)%string)
        else (entries, unicodeMap) in
      match codePoints with
      | None => Throw "TypeError"
      | Some codePoints =>
          cmapLoop rest (index + 1) (entries ++ [cmapEntry index codePoints])
            unicodeMap
      end
  end.

(** [toUnicodeCmap()]: the text of the stream that [cmap.end] is given. *)
Definition toUnicodeCmap (unicode : jsarray (list Z)) : result string :=
  bind (cmapLoop unicode 0 [] cmapHeader) (fun '(entries, unicodeMap) =>
  let unicodeMap :=
    match entries with
    | [] => unicodeMap
    | _ => (unicodeMap ++ bfchar entries ++ NL)%string
    end in
  Ok (unicodeMap ++ cmapFooter)%string).

(** *** Reading the map back *)

(** A run of hexadecimal digits as a number. *)
Definition readHex (s : string) : Z :=
  fold_left (fun v c => 16 * v + match PDFObject.hexValue c with
                                 | Some d => d
                                 | None => 0
                                 end)
    (list_ascii_of_string s) 0.

(** The entries of an array without holes, the first one for the glyph
    [index]. *)
Fixpoint cmapEntries (index : Z) (unicode : list (list Z)) : list string :=
  match unicode with
  | [] => []
  | codePoints :: rest =>
      cmapEntry index codePoints :: cmapEntries (index + 1) rest
  end.

(** A code point that UTF-16 can carry and give back: not above 0x10FFFF
    and not in the range of the surrogates. *)
Definition isScalar (cp : Z) : Prop :=
  0 <= cp <= 0x10FFFF /\ ~ (0xD800 <= cp <= 0xDFFF).

End EmbeddedFont.

(** ** PDFDocument: the writer, and PDFReference.finalize *)

Module PDFDocument.

(** The bytes of a string under [Buffer.from(s, 'binary')]; the strings
    the writer is given hold 8-bit characters only. *)
Definition bytes (s : string) : list byte := list_byte_of_string s.

Definition newline : list byte := bytes (String (ascii_of_N 10) "").

(** The fields of the document that the writer owns, with the readable
    side of the stream: [pushed] collects the chunks given to [push], and
    [eof] records [push(null)]. *)
Record t : Type := {
  _offsets : list (option Z);
  _waiting : Z;
  _ended : bool;
  _offset : Z;
  pushed : list byte;
  eof : bool
}.

(** [Readable.push(chunk)]: once the end of the stream was signalled the
    stream refuses the chunk (it reports a push after EOF). *)
Definition push (data : list byte) (d : t) : t :=
  if eof d then d
  else {| _offsets := _offsets d; _waiting := _waiting d; _ended := _ended d;
          _offset := _offset d; pushed := pushed d ++ data; eof := eof d |}.

(** [push(null)]. *)
Definition pushNull (d : t) : t :=
  {| _offsets := _offsets d; _waiting := _waiting d; _ended := _ended d;
     _offset := _offset d; pushed := pushed d; eof := true |}.

(** [_write(data)] for a Buffer. *)
Definition _writeBuffer (data : list byte) (d : t) : t :=
  let d' := push data d in
  {| _offsets := _offsets d'; _waiting := _waiting d'; _ended := _ended d';
     _offset := _offset d' + Z.of_nat (length data);
     pushed := pushed d'; eof := eof d' |}.

(** [_write(data)] for a string: [Buffer.from(data + '\n', 'binary')]. *)
Definition _write (data : string) (d : t) : t :=
  _writeBuffer (bytes data ++ newline) d.

(** The store as the constructor sets it up. *)
Definition empty : t :=
  {| _offsets := []; _waiting := 0; _ended := false; _offset := 0;
     pushed := []; eof := false |}.

(** The header the constructor writes: the version line and a comment of
    four bytes 0xFF. The constructor allocates the catalogue objects with
    [ref] before it; [ref] writes nothing, so those calls are left to the
    trace. *)
Definition binaryComment : string :=
  String "%" (string_of_list_byte [Byte.xff; Byte.xff; Byte.xff; Byte.xff]).

Definition new (version : string) : t :=
  _write binaryComment (_write ("%PDF-" ++ version) empty).

(** [ref(data)]: the id of the new reference and the updated store. *)
Definition ref (d : t) : Z * t :=
  (Z.of_nat (length (_offsets d)) + 1,
   {| _offsets := _offsets d ++ [None]; _waiting := _waiting d + 1;
      _ended := _ended d; _offset := _offset d;
      pushed := pushed d; eof := eof d |}).

(** [`0000000000${offset}`.slice(-10)], where [offset] is a number or the
    placeholder [null]. *)
Definition offsetField (offset : option Z) : string :=
  sliceLast 10
    ("0000000000" ++ match offset with
                     | Some n => decimal n
                     | None => "null"
                     end)%string.

Section Finalize.

(** [PDFObject.convert(trailer)] for a given [Size]; [Root], [Info] and
    [ID] are set elsewhere in the document. *)
Variable convertTrailer : Z -> string.

(** [_finalize]. *)
Definition _finalize (d : t) : t :=
  let xRefOffset := _offset d in
  let size := Z.of_nat (length (_offsets d)) + 1 in
  let d := _write "xref" d in
  let d := _write ("0 " ++ decimal size) d in
  let d := _write "0000000000 65535 f " d in
  let d := fold_left
             (fun d offset => _write (offsetField offset ++ " 00000 n ") d)
             (_offsets d) d in
  let d := _write "trailer" d in
  let d := _write (convertTrailer size) d in
  let d := _write "startxref" d in
  let d := _write (decimal xRefOffset) d in
  let d := _write "%%EOF" d in
  pushNull d.

(** [_refEnd(ref)], given [ref.id] and [ref.offset]. An assignment past
    the end of [_offsets] cannot arise for an id that [ref] handed out. *)
Definition _refEnd (id offset : Z) (d : t) : t :=
  let d := {| _offsets := <[Z.to_nat (id - 1) := Some offset]> (_offsets d);
              _waiting := _waiting d - 1;
              _ended := _ended d; _offset := _offset d;
              pushed := pushed d; eof := eof d |} in
  if (_waiting d =? 0) && _ended d
  then let d := _finalize d in
       {| _offsets := _offsets d; _waiting := _waiting d; _ended := false;
          _offset := _offset d; pushed := pushed d; eof := eof d |}
  else d.

(** [PDFReference.finalize] for the reference [id] (generation 0), whose
    dictionary serialises to [dict] and whose body was buffered as
    [chunks]. *)
Definition finalize (id : Z) (dict : string) (chunks : list (list byte))
    (d : t) : t :=
  let offset := _offset d in
  let d := _write (decimal id ++ " 0 obj") d in
  let d := _write dict d in
  let d :=
    match chunks with
    | [] => d
    | _ =>
        let d := _write "stream" d in
        let d := fold_left (fun d chunk => _writeBuffer chunk d) chunks d in
        _write (String (ascii_of_N 10) "endstream") d
    end in
  let d := _write "endobj" d in
  _refEnd id offset d.

(** The closing test of [end()]. Before it, [end()] allocates and ends
    the objects that are still open (info entries, fonts, catalogue); those
    calls are [ref] and [finalize] calls of the trace. *)
Definition end_ (d : t) : t :=
  if _waiting d =? 0 then _finalize d
  else {| _offsets := _offsets d; _waiting := _waiting d; _ended := true;
          _offset := _offset d; pushed := pushed d; eof := eof d |}.

(** What happens to the writer, in the order it happens. A compressed
    reference is finalized when its deflate stream ends, so [Finalize]
    events come in any order, also after [End]. *)
Inductive event : Type :=
| Ref
| Finalize (id : Z) (dict : string) (chunks : list (list byte))
| End.

Definition step (d : t) (e : event) : t :=
  match e with
  | Ref => snd (ref d)
  | Finalize id dict chunks => finalize id dict chunks d
  | End => end_ d
  end.

Definition run (trace : list event) (d : t) : t := fold_left step trace d.

End Finalize.

(** *** Reading a trace *)

(** The number of references a trace allocates. *)
Fixpoint allocated (trace : list event) : Z :=
  match trace with
  | [] => 0
  | Ref :: rest => 1 + allocated rest
  | _ :: rest => allocated rest
  end.

(** The ids a trace finalizes, in the order of finalization. *)
Fixpoint finalized (trace : list event) : list Z :=
  match trace with
  | [] => []
  | Finalize id _ _ :: rest => id :: finalized rest
  | _ :: rest => finalized rest
  end.

(** Whether [end()] was called. *)
Definition requested (trace : list event) : bool :=
  existsb (fun e => match e with End => true | _ => false end) trace.

(** A trace is well formed when every [Finalize] is for a reference that
    was allocated before and not finalized before: [n] references exist
    and those in [done] are finalized. *)
Fixpoint wellFormed (n : Z) (done : list Z) (trace : list event) : bool :=
  match trace with
  | [] => true
  | Ref :: rest => wellFormed (n + 1) done rest
  | Finalize id _ _ :: rest =>
      (1 <=? id) && (id <=? n) && negb (existsb (Z.eqb id) done)
      && wellFormed n (id :: done) rest
  | End :: rest => wellFormed n done rest
  end.

(** The bytes of one object, as [finalize] writes them. *)
Definition objectBytes (id : Z) (dict : string) (chunks : list (list byte))
    : list byte :=
  bytes (decimal id ++ " 0 obj") ++ newline
  ++ bytes dict ++ newline
  ++ match chunks with
     | [] => []
     | _ => bytes "stream" ++ newline ++ concat chunks
            ++ bytes (String (ascii_of_N 10) "endstream") ++ newline
     end
  ++ bytes "endobj" ++ newline.

(** The objects of a trace, in the order of finalization. *)
Fixpoint objects (trace : list event) : list byte :=
  match trace with
  | [] => []
  | Finalize id dict chunks :: rest => objectBytes id dict chunks ++ objects rest
  | _ :: rest => objects rest
  end.

(** The header of the file. *)
Definition header (version : string) : list byte :=
  bytes ("%PDF-" ++ version) ++ newline ++ bytes binaryComment ++ newline.

(** One entry of the cross-reference section for an object in use. *)
Definition xrefEntry (offset : option Z) : list byte :=
  bytes (offsetField offset ++ " 00000 n ") ++ newline.

(** The cross-reference section for the offsets of the objects 1, 2, ...
    in this order: the keyword, the range of ids, the free entry and one
    entry per object. *)
Definition xrefSection (offsets : list (option Z)) : list byte :=
  bytes "xref" ++ newline
  ++ bytes ("0 " ++ decimal (Z.of_nat (length offsets) + 1)) ++ newline
  ++ bytes "0000000000 65535 f " ++ newline
  ++ concat (map xrefEntry offsets).

(** What follows the cross-reference section, given the serialised
    trailer dictionary and the offset of the keyword [xref]. *)
Definition trailerSection (trailer : string) (xRefOffset : Z) : list byte :=
  bytes "trailer" ++ newline
  ++ bytes trailer ++ newline
  ++ bytes "startxref" ++ newline
  ++ bytes (decimal xRefOffset) ++ newline
  ++ bytes "%%EOF" ++ newline.

(** A number written with ten digits, zeros first, as the specification
    words the offset field; and a run of digits read back as a number. *)
Definition pad10 (n : Z) : string :=
  let d := list_ascii_of_string (decimal n) in
  string_of_list_ascii (replicate (10 - length d) "0"%char ++ d).

Definition readDigits (v : Z) (l : list ascii) : Z :=
  fold_left (fun v c => 10 * v + (Z.of_N (N_of_ascii c) - 48)) l v.

Definition parseDecimal (s : string) : Z :=
  readDigits 0 (list_ascii_of_string s).

(** The length of a byte sequence, as the writer counts it. *)
Definition size (data : list byte) : Z := Z.of_nat (length data).

(** What the last event of a well-formed trace has to satisfy. *)
Definition admissible (p : list event) (e : event) : Prop :=
  match e with
  | Finalize id _ _ => 1 <= id <= allocated p /\ id ∉ finalized p
  | _ => True
  end.

Section Invariant.

Variable convertTrailer : Z -> string.
Variable version : string.

(** The bytes [_finalize] writes. *)
Definition closing (offsets : list (option Z)) (xRefOffset : Z) : list byte :=
  xrefSection offsets
  ++ trailerSection (convertTrailer (Z.of_nat (length offsets) + 1)) xRefOffset.

(** The offset table after the trace [p]: one slot per reference, and the
    slot of a finalized reference holds the position at which its object
    starts, that is the size of the header and of the objects finalized
    before it. *)
Record Table (p : list event) (d : t) : Prop := {
  table_length : Z.of_nat (length (_offsets d)) = allocated p;
  table_waiting : _waiting d = allocated p - Z.of_nat (length (finalized p));
  table_recorded :
    forall p1 id dict chunks p2,
      p = p1 ++ Finalize id dict chunks :: p2 ->
      _offsets d !! Z.to_nat (id - 1)
      = Some (Some (size (header version ++ objects p1)))
}.

(** The writer before [_finalize] has run. *)
Record Live (p : list event) (d : t) : Prop := {
  live_eof : eof d = false;
  live_table : Table p d;
  live_ended : _ended d = requested p;
  live_offset : _offset d = size (pushed d);
  live_pushed : pushed d = header version ++ objects p;
  live_pending : requested p = true -> 0 < _waiting d
}.

(** The writer when [_finalize] has just run. *)
Record Closed (p : list event) (d : t) : Prop := {
  closed_eof : eof d = true;
  closed_table : Table p d;
  closed_requested : requested p = true;
  closed_waiting : _waiting d = 0;
  closed_pushed :
    pushed d = header version ++ objects p
               ++ closing (_offsets d) (size (header version ++ objects p))
}.

End Invariant.

End PDFDocument.

(** ** LineWrapper: cutting a text into words and lines

    Widths are exact rationals: the rounding of binary64 arithmetic is not
    part of this model, and neither is a quotient by a zero width (an
    infinity in JavaScript), which needs a negative [spaceLeft]. *)

Module LineWrapper.

Definition SOFT_HYPHEN : Z := 0xAD.
Definition HYPHEN : jsstring := lit "-".

(** [a > b] and [a <= b] on numbers. *)
Definition gtb (a b : Q) : bool := negb (Qle_bool a b).
Definition leb (a b : Q) : bool := Qle_bool a b.

(** [word.slice(0, l)] and [word.slice(l)]; a negative index counts from
    the end of the word. *)
Definition slice0 (l : Z) (word : jsstring) : jsstring :=
  if l <? 0 then take (Z.to_nat (Z.of_nat (length word) + l)) word
  else take (Z.to_nat l) word.

Definition sliceFrom (l : Z) (word : jsstring) : jsstring :=
  if l <? 0 then drop (Z.to_nat (Z.of_nat (length word) + l)) word
  else drop (Z.to_nat l) word.

(** A break opportunity of the line breaker. *)
Record Break : Type := { position : nat; required : bool }.

(** One call of the callback of [eachWord], with the wrapper's
    [spaceLeft] and [lineWidth] when the call is made and the part of the
    word that is left for later. *)
Record Call : Type := {
  c_word : jsstring;
  c_w : Q;
  c_required : bool;
  c_last : option bool;
  c_spaceLeft : Q;
  c_lineWidth : Q;
  c_rest : jsstring
}.

Section EachWord.

(** [wordWidth(word)]: the document's width of the word plus character and
    word spacing; [eachWord] keeps the widths of whole words in a table,
    which a function makes redundant. *)
Variable wordWidth : jsstring -> Q.

(** The wrapper together with whatever the callback owns. *)
Variable St : Type.
Variable spaceLeft lineWidth continuedX : St -> Q.

(** [fn(word, w, bk, last)]: of [bk] the callback reads [required], of
    [last] whether it is [null] and its [required]. The answer is [false]
    when the callback returns the value [false], which stops the loop. *)
Variable fn : jsstring -> Q -> bool -> option bool -> St -> St * bool.

(** The loop [while (mustShrink || mightGrow)]. *)
Fixpoint adjust (fuel : nat) (word : jsstring) (space : Q) (l : Z) (w : Q)
    (mustShrink mightGrow : bool) : option (Z * Q * bool) :=
  if mustShrink || mightGrow then
    match fuel with
    | O => None
    | S fuel' =>
        if mustShrink then
          let l := l - 1 in
          let w := wordWidth (slice0 l word) in
          adjust fuel' word space l w (gtb w space && (0 <? l)) mightGrow
        else
          let l := l + 1 in
          let w := wordWidth (slice0 l word) in
          adjust fuel' word space l w (gtb w space && (0 <? l))
            (leb w space && (l <? Z.of_nat (length word)))
    end
  else Some (l, w, mightGrow).

(** The first guess for the length of the piece and its correction.
    [mightGrow] is a [var] of the method: the branch that does not assign
    it reads the value the previous round left. *)
Definition fit (fuel : nat) (word : jsstring) (w space : Q)
    (mightGrow : bool) : option (Z * Q * bool) :=
  let len := Z.of_nat (length word) in
  let '(l, w, mightGrow) :=
    if gtb w space then
      let l := Qceiling (space / (w / inject_Z len))%Q in
      let w := wordWidth (slice0 l word) in
      (l, w, leb w space && (l <? len))
    else (len, w, mightGrow) in
  adjust fuel word space l w (gtb w space && (0 <? l)) mightGrow.

(** The loop [while (word.length)] that chops a word wider than the line.
    The result is the state, whether the callback asked to go on, the
    value of [mightGrow] and the calls made. *)
Fixpoint forceSplit (fuel : nat) (word : jsstring) (w : Q) (bkRequired : bool)
    (lbk : option bool) (mightGrow : bool) (st : St) (log : list Call)
    : option (St * bool * bool * list Call) :=
  match word with
  | [] => Some (st, true, mightGrow, log)
  | _ :: _ =>
      match fuel with
      | O => None
      | S fuel' =>
          match fit fuel word w (spaceLeft st) mightGrow with
          | None => None
          | Some (l, w, mightGrow) =>
              let l := if (l =? 0) && Qeq_bool (spaceLeft st) (lineWidth st)
                       then 1 else l in
              let required := bkRequired || (l <? Z.of_nat (length word)) in
              let piece := slice0 l word in
              let rest := sliceFrom l word in
              let call := {| c_word := piece; c_w := w; c_required := required;
                             c_last := lbk; c_spaceLeft := spaceLeft st;
                             c_lineWidth := lineWidth st; c_rest := rest |} in
              let '(st', shouldContinue) := fn piece w required lbk st in
              if shouldContinue
              then forceSplit fuel' rest (wordWidth rest) bkRequired
                     (Some false) mightGrow st' (log ++ [call])
              else Some (st', false, mightGrow, log ++ [call])
          end
      end
  end.

(** [eachWord(text, fn)] over the breaks the line breaker yields. *)
Fixpoint eachWordLoop (fuel : nat) (text : jsstring) (breaks : list Break)
    (last : option Break) (mightGrow : bool) (st : St) (log : list Call)
    : option (St * list Call) :=
  match breaks with
  | [] => Some (st, log)
  | bk :: breaks' =>
      let start := match last with Some b => position b | None => O end in
      let word := take (position bk - start) (drop start text) in
      let w := wordWidth word in
      if gtb w (lineWidth st + continuedX st)%Q then
        match forceSplit fuel word w (required bk) (option_map required last)
                mightGrow st log with
        | None => None
        | Some (st', shouldContinue, mightGrow', log') =>
            if shouldContinue
            then eachWordLoop fuel text breaks' (Some bk) mightGrow' st' log'
            else Some (st', log')
        end
      else
        let call := {| c_word := word; c_w := w; c_required := required bk;
                       c_last := option_map required last;
                       c_spaceLeft := spaceLeft st;
                       c_lineWidth := lineWidth st; c_rest := [] |} in
        let '(st', shouldContinue) :=
          fn word w (required bk) (option_map required last) st in
        if shouldContinue
        then eachWordLoop fuel text breaks' (Some bk) mightGrow st' (log ++ [call])
        else Some (st', log ++ [call])
  end.

Definition eachWord (fuel : nat) (text : jsstring) (breaks : list Break)
    (st : St) : option (St * list Call) :=
  eachWordLoop fuel text breaks None false st [].

End EachWord.

(** *** The callback of [wrap]

    The wrapper as [wrap] and its callback use it, for a wrapper without
    indent, ellipsis or height limit whose page has room for every line:
    the handlers of [firstLine] then leave [lineWidth] alone and
    [nextSection] is never called, so the callback always asks to go on.
    A line is kept as [emitLine] hands it over: text, text width, word
    count, and whether [lastLine] was emitted before it. *)
Record Wrapper : Type := {
  w_spaceLeft : Q;
  w_lineWidth : Q;
  w_continuedX : Q;
  w_wordSpacing : Q;
  buffer : jsstring;
  textWidth : Q;
  wc : Z;
  lines : list (jsstring * Q * Z * bool)
}.

Section Wrap.

Variable wordWidth : jsstring -> Q.

Definition setSpaceLeft (s : Q) (x : Wrapper) : Wrapper :=
  {| w_spaceLeft := s; w_lineWidth := w_lineWidth x;
     w_continuedX := w_continuedX x; w_wordSpacing := w_wordSpacing x;
     buffer := buffer x; textWidth := textWidth x; wc := wc x;
     lines := lines x |}.

Definition setBuffer (b : jsstring) (tw : Q) (n : Z) (x : Wrapper) : Wrapper :=
  {| w_spaceLeft := w_spaceLeft x; w_lineWidth := w_lineWidth x;
     w_continuedX := w_continuedX x; w_wordSpacing := w_wordSpacing x;
     buffer := b; textWidth := tw; wc := n; lines := lines x |}.

(** [canFit(word, w)]. *)
Definition canFit (word : jsstring) (w : Q) (x : Wrapper) : bool :=
  if negb (bool_decide (last word = Some SOFT_HYPHEN))
  then leb w (w_spaceLeft x)
  else leb (w + wordWidth HYPHEN)%Q (w_spaceLeft x).

(** [emitLine()]. *)
Definition emitLine (isLast : bool) (x : Wrapper) : Wrapper :=
  {| w_spaceLeft := w_spaceLeft x; w_lineWidth := w_lineWidth x;
     w_continuedX := w_continuedX x; w_wordSpacing := w_wordSpacing x;
     buffer := buffer x; textWidth := textWidth x; wc := wc x;
     lines := lines x ++
              [(buffer x,
                (textWidth x + w_wordSpacing x * inject_Z (wc x - 1))%Q,
                wc x, isLast)] |}.

(** The callback that [wrap] gives to [eachWord]. *)
Definition wrapCallback (word : jsstring) (w : Q) (bkRequired : bool)
    (lastRequired : option bool) (x : Wrapper) : Wrapper * bool :=
  let x := match lastRequired with
           | None | Some true => setSpaceLeft (w_lineWidth x) x
           | Some false => x
           end in
  let x := if canFit word w x
           then setBuffer (buffer x ++ word) (textWidth x + w)%Q (wc x + 1) x
           else x in
  if bkRequired || negb (canFit word w x) then
    let x := if bkRequired && gtb w (w_spaceLeft x)
             then setBuffer word w 1 (emitLine false x)
             else x in
    let x := if bool_decide (last (buffer x) = Some SOFT_HYPHEN)
             then setSpaceLeft (w_spaceLeft x - wordWidth HYPHEN)%Q
                    (setBuffer (take (length (buffer x) - 1) (buffer x) ++ HYPHEN)
                       (textWidth x) (wc x) x)
             else x in
    let x := emitLine bkRequired x in
    if bkRequired
    then (setBuffer [] 0%Q 0 (setSpaceLeft (w_lineWidth x) x), true)
    else (setBuffer word w 1 (setSpaceLeft (w_lineWidth x - w)%Q x), true)
  else (setSpaceLeft (w_spaceLeft x - w)%Q x, true).

(** [wrap(text, options)]: the words go through [eachWord], and a line
    that is still buffered at the end is the last line. *)
Definition wrap (fuel : nat) (text : jsstring) (breaks : list Break)
    (x : Wrapper) : option (Wrapper * list Call) :=
  match eachWord wordWidth Wrapper w_spaceLeft w_lineWidth w_continuedX
          wrapCallback fuel text breaks (setBuffer [] 0%Q 0 x) with
  | None => None
  | Some (x, log) =>
      Some (if 0 <? wc x then emitLine true x else x, log)
  end.

End Wrap.

(** A call made with the whole line free. *)
Definition freeLine (c : Call) : bool :=
  Qeq_bool (c_spaceLeft c) (c_lineWidth c).

(** What is expected of a call made while a word is chopped, for a break
    whose flag is [bkRequired]. The flag of the call is set exactly when
    the break requires it or a part of the word is left. The piece is one
    of three: a piece of one character or more that fits the space left,
    passed with its measured width; one character, forced on a line that
    is free because the search found no piece that fits, passed with the
    width of the empty piece; or the empty piece, on a line that is not
    free. *)
Definition pieceOK (wordWidth : jsstring -> Q) (bkRequired : bool)
    (c : Call) : Prop :=
  c_required c = bkRequired || negb (bool_decide (c_rest c = []))
  /\ ((c_word c <> [] /\ c_w c = wordWidth (c_word c)
       /\ (c_w c <= c_spaceLeft c)%Q)
      \/ (freeLine c = true /\ length (c_word c) = 1%nat
          /\ c_w c = wordWidth [])
      \/ (freeLine c = false /\ c_word c = [])).

(** No piece of the word that a call still has to place, however short,
    fits the space left. *)
Definition nothingFits (wordWidth : jsstring -> Q) (c : Call) : Prop :=
  forall k : nat,
    (1 <= k <= length (c_word c ++ c_rest c))%nat ->
    (c_spaceLeft c < wordWidth (take k (c_word c ++ c_rest c)))%Q.

(** A font in which every character is one unit wide. *)
Definition unitWidth (s : jsstring) : Q := inject_Z (Z.of_nat (length s)).

(** A wrapper for lines of the given width, nothing buffered yet. *)
Definition emptyWrapper (lineWidth : Q) : Wrapper :=
  {| w_spaceLeft := lineWidth; w_lineWidth := lineWidth; w_continuedX := 0;
     w_wordSpacing := 0; buffer := []; textWidth := 0; wc := 0; lines := [] |}.

(** *** What [wrap] keeps

    The text of a line, and the text a wrapper has emitted or holds in its
    buffer. *)
Definition lineText (l : jsstring * Q * Z * bool) : jsstring := l.1.1.1.

Definition shown (x : Wrapper) : jsstring :=
  concat (map lineText (lines x)) ++ buffer x.

(** A wrapper between two calls of the callback, for lines of width
    [LW] and a text without soft hyphens. *)
Record Kept (LW : Q) (x : Wrapper) : Prop := {
  kept_space : (0 <= w_spaceLeft x)%Q /\ (w_spaceLeft x <= LW)%Q;
  kept_line : w_lineWidth x = LW;
  kept_continued : w_continuedX x = 0%Q;
  kept_buffer : Forall (fun c => c <> SOFT_HYPHEN) (buffer x);
  kept_wc : 0 <= wc x /\ (wc x = 0 -> buffer x = [])
}.

(** Break positions that never go back, from [start] on. *)
Fixpoint ascending (start : nat) (breaks : list Break) : Prop :=
  match breaks with
  | [] => True
  | bk :: rest => (start <= position bk)%nat /\ ascending (position bk) rest
  end.

(** The position of the last break, [start] when there is none. *)
Definition covered (start : nat) (breaks : list Break) : nat :=
  match last breaks with
  | Some bk => position bk
  | None => start
  end.

End LineWrapper.

(** ** TextMixin: alignment of a line in [_fragment]

    Widths are exact rationals, as in [LineWrapper]. *)

Module TextMixin.

(** The class [\s] of JavaScript regular expressions, which is also what
    [trim] removes. *)
Definition isSpace (c : Z) : bool :=
  existsb (Z.eqb c)
    [9; 10; 11; 12; 13; 32; 0xa0; 0x1680; 0x2028; 0x2029; 0x202f; 0x205f;
     0x3000; 0xfeff]
  || ((0x2000 <=? c) && (c <=? 0x200a)).

(** [text.replace(/\n/g, '')] and [text.replace(/\s+/g, '')]. *)
Definition removeNewlines (text : jsstring) : jsstring :=
  filter (fun c => c ≠ 10) text.

Definition removeSpaces (text : jsstring) : jsstring :=
  filter (fun c => isSpace c = false) text.

(** The runs of characters between spaces; [acc] is the run being read. *)
Fixpoint runs (text acc : jsstring) : list jsstring :=
  match text with
  | [] => match acc with [] => [] | _ => [acc] end
  | c :: rest =>
      if isSpace c
      then match acc with
           | [] => runs rest []
           | _ => acc :: runs rest []
           end
      else runs rest (acc ++ [c])
  end.

(** [text.trim().split(/\s+/)]: splitting the empty string gives one
    empty word. *)
Definition words (text : jsstring) : list jsstring :=
  match runs text [] with
  | [] => [[]]
  | ws => ws
  end.

(** The options of a text call, as [_fragment] and the wrapper read them.
    A numeric option that is [undefined] is kept as 0: each one is read
    through [||] or a truth test, which treat the two alike. *)
Record Options : Type := {
  align : option string;
  width : Q;
  lineWidth : Q;
  textWidth : Q;
  wordCount : Z;
  wordSpacing : Q;
  characterSpacing : Q;
  horizontalScaling : Q
}.

Definition setAlign (a : option string) (o : Options) : Options :=
  {| align := a; width := width o; lineWidth := lineWidth o;
     textWidth := textWidth o; wordCount := wordCount o;
     wordSpacing := wordSpacing o; characterSpacing := characterSpacing o;
     horizontalScaling := horizontalScaling o |}.

(** The options [{}] of a call without options. *)
Definition noOptions : Options :=
  {| align := None; width := 0; lineWidth := 0; textWidth := 0;
     wordCount := 0; wordSpacing := 0; characterSpacing := 0;
     horizontalScaling := 0 |}.

(** [x || d] on numbers. *)
Definition orQ (x d : Q) : Q := if Qeq_bool x 0 then d else x.

Section Fragment.

(** [this._font.widthOfString(string, this._fontSize, features)]. *)
Variable fontWidth : jsstring -> Q.

(** [widthOfString(string, options)]. *)
Definition widthOfString (string : jsstring) (options : Options) : Q :=
  ((fontWidth string
    + orQ (characterSpacing options) 0 * inject_Z (Z.of_nat (length string) - 1))
   * orQ (horizontalScaling options) 100 / 100)%Q.

(** The case ['justify'] of the alignment switch. *)
Definition justifySpacing (text : jsstring) (options : Options) : Q :=
  let words := words text in
  let textWidth := widthOfString (removeSpaces text) options in
  let spaceWidth :=
    (widthOfString (lit " ") noOptions + orQ (characterSpacing options) 0)%Q in
  Qmax 0
    ((lineWidth options - textWidth)
     / inject_Z (Z.max 1 (Z.of_nat (length words) - 1))
     - spaceWidth)%Q.

(** The value of [wordSpacing] after the alignment switch of [_fragment],
    for a text that is not empty once its newlines are removed (an empty
    one renders nothing). *)
Definition fragmentWordSpacing (text : jsstring) (options : Options)
    : option Q :=
  let text := removeNewlines text in
  match text with
  | [] => None
  | _ =>
      let align :=
        match align options with
        | Some a => if String.eqb a "" then "left"%string else a
        | None => "left"%string
        end in
      let wordSpacing := orQ (wordSpacing options) 0 in
      Some (if negb (Qeq_bool (width options) 0) && String.eqb align "justify"
            then justifySpacing text options
            else wordSpacing)
  end.

(** The event [line] of the wrapper: the listener of the document, which
    was registered first, renders the line through [_fragment]; the
    handlers registered with [once] run after it. *)
Definition emitLine (text : jsstring) (options : Options)
    (afterLine : Options -> Options) : option Q * Options :=
  (fragmentWordSpacing text options, afterLine options).

(** The handler of [lastLine] and the line that follows it: a justified
    paragraph has its last line rendered with [align] set to ['left'], and
    the handler registered for the next [line] event restores the
    option. *)
Definition lastLine (text : jsstring) (options : Options)
    : option Q * Options :=
  let saved := align options in
  let options :=
    if bool_decide (saved = Some "justify"%string)
    then setAlign (Some "left"%string) options
    else options in
  emitLine text options (setAlign saved).

(** A line for which [lastLine] was not raised. *)
Definition innerLine (text : jsstring) (options : Options)
    : option Q * Options :=
  emitLine text options (fun o => o).

(** [emitLine] of [wrap] fills in [textWidth], [wordCount] and [lineWidth]
    before it raises the event [line]. *)
Definition setLine (tw : Q) (wc : Z) (lw : Q) (o : Options) : Options :=
  {| align := align o; width := width o; lineWidth := lw;
     textWidth := tw; wordCount := wc;
     wordSpacing := wordSpacing o; characterSpacing := characterSpacing o;
     horizontalScaling := horizontalScaling o |}.

(** One line that [wrap] has emitted, as the wrapper keeps it (its text,
    text width, word count, and whether [wrap] raised [lastLine] for it),
    through the events: [lastLine] first where it was raised, then
    [line], on a wrapper whose lines are [lw] wide. [lastLine] comes
    before [emitLine] fills in the options in the source; the handler
    reads and writes [align] only, so the order does not show. *)
Definition wrappedLine (lw : Q) (l : jsstring * Q * Z * bool)
    (options : Options) : option Q * Options :=
  let '(text, tw, wc, isLast) := l in
  let options := setLine tw wc lw options in
  if isLast then lastLine text options else innerLine text options.

End Fragment.

End TextMixin.


(** ** TextMixin._fragment: the glyphs written as TJ operators

    The operators are kept as data: a [TJ] with its segments, each the
    hexadecimal text and the adjustment that follows it, and a [Tm] with
    the position it moves to. Positions and advances are exact rationals;
    [number] makes the text of an operand, or throws. *)

Module TextFragment.

Import StandardFont.

(** What is added to the content of the page: [[...] TJ] with its
    commands, each [<hex> n] kept as the hexadecimal text and the text of
    the number, and [1 0 0 1 x y Tm] with the texts of its two numbers. *)
Inductive op : Type :=
| TJ (commands : list (string * string))
| Tm (x y : string).

(** The variables of the loop: [x], [last], [hadOffset], the buffer
    [commands], and what was added to the content of the page. *)
Record state : Type := {
  x : Q;
  last : nat;
  hadOffset : bool;
  commands : list (string * string);
  content : list op
}.

(** A number is truthy unless it is zero. *)
Definition truthy (q : Q) : bool := negb (Qeq_bool q 0).

Section Show.

(** [number], which gives the text of an operand or throws. *)
Variable number : Q -> result string.

Variable encoded : list string.
Variable positions : list Position.
Variable scale : Q.
Variable y : Q.

(** [addSegment(cur)]; reading [positions[cur - 1]] past the array is a
    [TypeError]. *)
Definition addSegment (cur : nat) (st : state) : result state :=
  bind
    (if (last st <? cur)%nat then
       match positions !! (cur - 1)%nat with
       | Some p =>
           let hex := TextSegment.segmentHex encoded (last st) cur in
           let advance := (xAdvance p - advanceWidth p)%Q in
           bind (number (- advance)%Q) (fun n =>
           Ok {| x := x st; last := last st; hadOffset := hadOffset st;
                 commands := commands st ++ [(hex, n)];
                 content := content st |})
       | None => Throw "TypeError"
       end
     else Ok st)
    (fun st =>
       Ok {| x := x st; last := cur; hadOffset := hadOffset st;
             commands := commands st; content := content st |}).

(** [flush(i)]. *)
Definition flush (i : nat) (st : state) : result state :=
  bind (addSegment i st) (fun st =>
  Ok (match commands st with
      | [] => st
      | _ => {| x := x st; last := last st; hadOffset := hadOffset st;
                commands := []; content := content st ++ [TJ (commands st)] |}
      end)).

Definition addContent (o : op) (st : state) : state :=
  {| x := x st; last := last st; hadOffset := hadOffset st;
     commands := commands st; content := content st ++ [o] |}.

Definition setHadOffset (b : bool) (st : state) : state :=
  {| x := x st; last := last st; hadOffset := b;
     commands := commands st; content := content st |}.

(** [addContent(`1 0 0 1 ${number(a)} ${number(b)} Tm`)]. *)
Definition moveTo (a b : Q) (st : state) : result state :=
  bind (number a) (fun a =>
  bind (number b) (fun b => Ok (addContent (Tm a b) st))).

(** The body of the loop over the positions. *)
Definition step (i : nat) (pos : Position) (st : state) : result state :=
  bind
    (if truthy (xOffset pos) || truthy (yOffset pos) then
       bind (flush i st) (fun st =>
       bind (moveTo (x st + xOffset pos * scale) (y + yOffset pos * scale) st)
         (fun st =>
       bind (flush (i + 1) st) (fun st => Ok (setHadOffset true st))))
     else
       bind (if hadOffset st
             then bind (moveTo (x st) y st)
                    (fun st => Ok (setHadOffset false st))
             else Ok st) (fun st =>
       if truthy (xAdvance pos - advanceWidth pos)%Q
       then addSegment (i + 1) st
       else Ok st))
    (fun st =>
       Ok {| x := (x st + xAdvance pos * scale)%Q; last := last st;
             hadOffset := hadOffset st; commands := commands st;
             content := content st |}).

Fixpoint loop (i : nat) (rest : list Position) (st : state) : result state :=
  match rest with
  | [] => Ok st
  | pos :: rest' => bind (step i pos st) (loop (i + 1) rest')
  end.

(** The loop and the flush that follows it, from the position [x0]. *)
Definition show (x0 : Q) : result state :=
  bind (loop 0 positions
          {| x := x0; last := 0; hadOffset := false; commands := [];
             content := [] |})
       (flush (length positions)).

(** The outcome of a part of the loop: a value with a property, or an
    error that [number] has thrown. *)
Definition returns {A : Type} (r : result A) (P : A -> Prop) : Prop :=
  match r with
  | Ok a => P a
  | Throw e => exists q : Q, number q = Throw e
  end.

End Show.

(** The hexadecimal text an operator carries. *)
Definition hexOf (o : op) : list string :=
  match o with
  | TJ commands => map fst commands
  | Tm _ _ => []
  end.

(** An operator that shows at least one segment. *)
Definition filled (o : op) : Prop :=
  match o with
  | TJ commands => commands <> []
  | Tm _ _ => True
  end.

(** What the loop keeps when [i] positions are done: the segments written
    or buffered are the tokens before [last], and [last] is not beyond
    [i]. *)
Record Inv (encoded : list string) (i : nat) (st : state) : Prop := {
  inv_last : (last st <= i)%nat;
  inv_written :
    (String.concat "" (flat_map hexOf (content st))
     ++ String.concat "" (map fst (commands st)))%string
    = String.concat "" (take (last st) encoded);
  inv_filled : Forall filled (content st)
}.

End TextFragment.

(** ** PDFDocument: the buffer of pages

    A page is known by the number of pages created before it. *)

Module PageBuffer.

Record t : Type := {
  _pageBuffer : list Z;
  _pageBufferStart : Z;
  page : option Z;
  bufferPages : bool;
  Count : Z;
  ended : list Z
}.

(** The fields as the constructor leaves them before the first page. *)
Definition new (bufferPages : bool) : t :=
  {| _pageBuffer := []; _pageBufferStart := 0; page := None;
     bufferPages := bufferPages; Count := 0; ended := [] |}.

(** [flushPages()]: the pages of the buffer are ended in order. *)
Definition flushPages (d : t) : t :=
  let pages := _pageBuffer d in
  {| _pageBuffer := [];
     _pageBufferStart := _pageBufferStart d + Z.of_nat (length pages);
     page := page d; bufferPages := bufferPages d; Count := Count d;
     ended := ended d ++ pages |}.

(** [addPage()]. *)
Definition addPage (d : t) : t :=
  let d := if negb (bufferPages d) then flushPages d else d in
  let p := Count d in
  {| _pageBuffer := _pageBuffer d ++ [p];
     _pageBufferStart := _pageBufferStart d;
     page := Some p; bufferPages := bufferPages d; Count := Count d + 1;
     ended := ended d |}.

(** [bufferedPageRange()]: [start] and [count]. *)
Definition bufferedPageRange (d : t) : Z * Z :=
  (_pageBufferStart d, Z.of_nat (length (_pageBuffer d))).

(** [switchToPage(n)] for an integer [n]: an index below 0 or past the
    buffer reads [undefined]. *)
Definition switchToPage (n : Z) (d : t) : result t :=
  let index := n - _pageBufferStart d in
  match (if index <? 0 then None else _pageBuffer d !! Z.to_nat index) with
  | Some p =>
      Ok {| _pageBuffer := _pageBuffer d;
            _pageBufferStart := _pageBufferStart d;
            page := Some p; bufferPages := bufferPages d; Count := Count d;
            ended := ended d |}
  | None => Throw "switchToPage out of bounds"
  end.

(** The calls a client makes; a call that throws leaves the document as it
    was. *)
Inductive call : Type :=
| AddPage
| FlushPages
| SwitchToPage (n : Z).

Definition perform (d : t) (c : call) : t :=
  match c with
  | AddPage => addPage d
  | FlushPages => flushPages d
  | SwitchToPage n =>
      match switchToPage n d with
      | Ok d' => d'
      | Throw _ => d
      end
  end.

(** What every sequence of calls keeps. *)
Record Pages (d : t) : Prop := {
  pages_start : 0 <= _pageBufferStart d;
  pages_buffer :
    _pageBuffer d
    = seqZ (_pageBufferStart d) (Z.of_nat (length (_pageBuffer d)));
  pages_count :
    Count d = _pageBufferStart d + Z.of_nat (length (_pageBuffer d));
  pages_ended : ended d = seqZ 0 (_pageBufferStart d);
  pages_single : bufferPages d = false -> (length (_pageBuffer d) <= 1)%nat
}.

End PageBuffer.

(** ** VectorMixin: the current transformation matrix

    The numbers of a matrix are exact rationals: the products and sums of
    [transform] are taken without rounding. *)

Module VectorMixin.

(** The six numbers of a matrix, as the array [_ctm] holds them. *)
Record matrix : Type := {
  m0 : Q; m1 : Q; m2 : Q; m3 : Q; m4 : Q; m5 : Q
}.

Definition identity : matrix :=
  {| m0 := 1; m1 := 0; m2 := 0; m3 := 1; m4 := 0; m5 := 0 |}.

Inductive op : Type :=
| Save_q
| Restore_Q
| Concat_cm (m11 m12 m21 m22 dx dy : Q).

Record t : Type := {
  _ctm : matrix;
  _ctmStack : list matrix;
  content : list op
}.

(** [initVector()]. *)
Definition initVector : t :=
  {| _ctm := identity; _ctmStack := []; content := [] |}.

(** [save()]: a copy of the matrix is pushed. *)
Definition save (d : t) : t :=
  {| _ctm := _ctm d; _ctmStack := _ctmStack d ++ [_ctm d];
     content := content d ++ [Save_q] |}.

(** [restore()]: the matrix popped, or the identity when the stack is
    empty. *)
Definition restore (d : t) : t :=
  {| _ctm := match last (_ctmStack d) with
             | Some m => m
             | None => identity
             end;
     _ctmStack := removelast (_ctmStack d);
     content := content d ++ [Restore_Q] |}.

(** [transform(m11, m12, m21, m22, dx, dy)]. The matrix is updated first;
    the operator is then written with each number passed through [number],
    which rounds it to six decimals and throws for a number outside its
    range. The operator is kept here with the numbers as given, and the
    numbers are taken to be in range. *)
Definition transform (m11 m12 m21 m22 dx dy : Q) (d : t) : t :=
  if Qeq_bool m11 1 && Qeq_bool m12 0 && Qeq_bool m21 0 && Qeq_bool m22 1
     && Qeq_bool dx 0 && Qeq_bool dy 0
  then d
  else
    let m := _ctm d in
    {| _ctm := {| m0 := m0 m * m11 + m2 m * m12;
                  m1 := m1 m * m11 + m3 m * m12;
                  m2 := m0 m * m21 + m2 m * m22;
                  m3 := m1 m * m21 + m3 m * m22;
                  m4 := m0 m * dx + m2 m * dy + m4 m;
                  m5 := m1 m * dx + m3 m * dy + m5 m |}%Q;
       _ctmStack := _ctmStack d;
       content := content d ++ [Concat_cm m11 m12 m21 m22 dx dy] |}.

(** [translate(x, y)]. *)
Definition translate (x y : Q) (d : t) : t := transform 1 0 0 1 x y d.

(** [scale(xFactor, yFactor, {origin})]; [yFactor] is [xFactor] when it is
    not given. *)
Definition scale (xFactor : Q) (yFactor : option Q) (origin : option (Q * Q))
    (d : t) : t :=
  let yFactor := match yFactor with Some f => f | None => xFactor end in
  let '(x, y) :=
    match origin with
    | Some (x, y) => (x - xFactor * x, y - yFactor * y)%Q
    | None => (0, 0)%Q
    end in
  transform xFactor 0 0 yFactor x y d.

(** [rotate(angle, {origin})], given the values [Math.cos] and [Math.sin]
    return for the angle. *)
Definition rotate (cos sin : Q) (origin : option (Q * Q)) (d : t) : t :=
  let '(x, y) :=
    match origin with
    | Some (x, y) =>
        let x1 := (x * cos - y * sin)%Q in
        let y1 := (x * sin + y * cos)%Q in
        (x - x1, y - y1)%Q
    | None => (0, 0)%Q
    end in
  transform cos sin (- sin) cos x y d.

(** A matrix applied to a point, as the file format defines it. *)
Definition apply (m : matrix) (p : Q * Q) : Q * Q :=
  (m0 m * fst p + m2 m * snd p + m4 m, m1 m * fst p + m3 m * snd p + m5 m)%Q.

(** The calls on the graphics state. *)
Inductive call : Type :=
| Save
| Restore
| Transform (m11 m12 m21 m22 dx dy : Q).

Definition perform (d : t) (c : call) : t :=
  match c with
  | Save => save d
  | Restore => restore d
  | Transform m11 m12 m21 m22 dx dy => transform m11 m12 m21 m22 dx dy d
  end.

(** Calls in which every [Restore] answers a [Save] made before it, [depth]
    of which are open at the start, and no [Save] is left open. *)
Fixpoint nested (depth : nat) (calls : list call) : bool :=
  match calls with
  | [] => (depth =? 0)%nat
  | Save :: rest => nested (S depth) rest
  | Restore :: rest =>
      match depth with
      | O => false
      | S depth' => nested depth' rest
      end
  | Transform _ _ _ _ _ _ :: rest => nested depth rest
  end.

(** Two points with equal coordinates. *)
Definition same (p q : Q * Q) : Prop := (fst p == fst q /\ snd p == snd q)%Q.

End VectorMixin.

(** ** AnnotationsMixin: the rectangle of an annotation *)

Module AnnotationsMixin.

Import VectorMixin.

(** [_convertRect(x1, y1, w, h)]: each assignment reads the values the
    assignments before it have left. *)
Definition _convertRect (_ctm : matrix) (x1 y1 w h : Q) : Q * Q * Q * Q :=
  let y2 := y1 in
  let y1 := (y1 + h)%Q in
  let x2 := (x1 + w)%Q in
  let x1 := (m0 _ctm * x1 + m2 _ctm * y1 + m4 _ctm)%Q in
  let y1 := (m1 _ctm * x1 + m3 _ctm * y1 + m5 _ctm)%Q in
  let x2 := (m0 _ctm * x2 + m2 _ctm * y2 + m4 _ctm)%Q in
  let y2 := (m1 _ctm * x2 + m3 _ctm * y2 + m5 _ctm)%Q in
  (x1, y1, x2, y2).

(** A call that does not rotate or skew the horizontal axis: a
    [transform] whose second number is zero, as [translate] and [scale]
    make it, or a [save] or [restore]. *)
Definition upright (c : call) : Prop :=
  match c with
  | Transform _ m12 _ _ _ _ => (m12 == 0)%Q
  | _ => True
  end.

End AnnotationsMixin.

(** ** PDFReference: the stream of an object *)

Module PDFReference.

Import PDFDocument.

(** The fields that writing touches: [data.Length] ([None] while it is
    [undefined]), [uncompressedLength] and [chunks]. *)
Record t : Type := {
  id : Z;
  compress : bool;
  Length : option Z;
  uncompressedLength : Z;
  chunks : list (list byte)
}.

(** The constructor, for data without [Length] or [Filter]. *)
Definition new (id : Z) (documentCompress : bool) : t :=
  {| id := id; compress := documentCompress; Length := None;
     uncompressedLength := 0; chunks := [] |}.

(** What is written: a [Uint8Array], or anything else through its text. *)
Inductive chunk : Type :=
| Bytes (b : list byte)
| Chars (s : string).

(** The handler of the [data] event of the deflate stream, which exists
    from the first [_write] on, when [data.Length] is a number. *)
Definition deflateData (out : list byte) (r : t) : t :=
  {| id := id r; compress := compress r;
     Length := option_map (fun l => l + size out) (Length r);
     uncompressedLength := uncompressedLength r;
     chunks := chunks r ++ [out] |}.

(** [_write(chunk)]. With compression the chunk goes to the deflate
    stream, whose output arrives through [deflateData]. *)
Definition _write (c : chunk) (r : t) : t :=
  let c := match c with
           | Bytes b => b
           | Chars s => bytes s ++ newline
           end in
  let len := Some (match Length r with Some l => l | None => 0 end) in
  if compress r then
    {| id := id r; compress := compress r; Length := len;
       uncompressedLength := uncompressedLength r + size c;
       chunks := chunks r |}
  else
    {| id := id r; compress := compress r;
       Length := option_map (fun l => l + size c) len;
       uncompressedLength := uncompressedLength r + size c;
       chunks := chunks r ++ [c] |}.

(** What happens to a reference before it is finalized. *)
Inductive event : Type :=
| Write (c : chunk)
| DeflateData (out : list byte).

Definition step (r : t) (e : event) : t :=
  match e with
  | Write c => _write c r
  | DeflateData out => deflateData out r
  end.

(** The bytes a chunk stands for. *)
Definition written (e : event) : list byte :=
  match e with
  | Write (Bytes b) => b
  | Write (Chars s) => bytes s ++ newline
  | DeflateData _ => []
  end.

(** The deflate stream exists from the first [_write] on. *)
Definition ordered (events : list event) : bool :=
  match events with
  | DeflateData _ :: _ => false
  | _ => true
  end.

Section Finalize.

(** [PDFObject.convert(this.data)], given the value of [Length], and the
    conversion of the trailer of the document. *)
Variable convertData : option Z -> string.
Variable convertTrailer : Z -> string.

(** [finalize()]. *)
Definition finalize (r : t) (d : PDFDocument.t) : PDFDocument.t :=
  PDFDocument.finalize convertTrailer (id r) (convertData (Length r))
    (chunks r) d.

End Finalize.

End PDFReference.

(** ** Documents and lines used as worked examples *)

Module Scenarios.
Import PDFDocument TextMixin.

(** A document of two objects, the first with a stream of one chunk; the
    trailer dictionary plays no part. *)
Definition twoObjects (chunk : list byte) : list event :=
  [Ref; Ref; Finalize 1 "<<>>" [chunk]; Finalize 2 "<<>>" []; End].

Definition anyTrailer (size : Z) : string := "<<>>".

(** Two references; [end()] is called while both are open, the second
    one (with a stream) is finalized first, the first one last. *)
Definition lateFinalizations : list event :=
  [Ref; Ref; End; Finalize 2 "<<>>" [[Byte.x41]]; Finalize 1 "<<>>" []].

(** A host whose Numbers are written as a question mark, and the order
    of strings by their code units, shorter first among prefixes. *)
Definition hostNumberToString (n : float) : list Z := [63].

Fixpoint codeUnitCompare (a b : list Z) : Z :=
  match a, b with
  | [], [] => 0
  | [], _ :: _ => -1
  | _ :: _, [] => 1
  | x :: a', y :: b' => if x =? y then codeUnitCompare a' b' else x - y
  end.

(** A host that writes a Number as its kind, sign, mantissa and exponent
    and reads that back, and a host that writes the integer part of a
    Number in decimal digits. *)
Definition fieldsToString (x : float) : list Z :=
  match Prim2SF x with
  | S754_zero s => [0; if s then 1 else 0]
  | S754_infinity s => [1; if s then 1 else 0]
  | S754_nan => [2]
  | S754_finite s m e => [3; if s then 1 else 0; Zpos m; e]
  end.

Definition parseFields (t : list Z) : float :=
  match t with
  | [0; s] => SF2Prim (S754_zero (s =? 1))
  | [1; s] => SF2Prim (S754_infinity (s =? 1))
  | [3; s; Zpos m; e] => SF2Prim (S754_finite (s =? 1) m e)
  | _ => SF2Prim S754_nan
  end.

Definition digitsToString (x : float) : list Z :=
  match PDFObject.exactValue x with
  | Some q => lit (PDFObject.showInt (Qfloor q))
  | None => []
  end.

(** A fixed-pitch font at a size that makes every character 6 units
    wide. *)
Definition fixedPitch (s : list Z) : Q := 6 * inject_Z (Z.of_nat (length s)).

Definition justified (w : Q) (lw : Q) (n : Z) : Options :=
  {| align := Some "justify"%string; width := lw; lineWidth := lw;
     textWidth := w; wordCount := n; wordSpacing := 0;
     characterSpacing := 0; horizontalScaling := 0 |}.

(** Two glyphs of Helvetica and their kerning pairs. *)
Definition helveticaAV : AFMFont.Metrics :=
  {| AFMFont.glyphWidths :=
       fun g => if String.eqb g "A" then Some 667
                else if String.eqb g "V" then Some 667 else None;
     AFMFont.kernPairs :=
       fun k => if String.eqb k "AV" then Some (-70)
                else if String.eqb k "VA" then Some (-80) else None |}.

End Scenarios.

(** * Properties *)

Module JSFacts.

Lemma length_string_of_list_ascii (l : list ascii) :
  String.length (string_of_list_ascii l) = length l.
Proof. induction l as [|a l IH]; simpl; congruence. Qed.

Lemma digits_length_acc (fuel : nat) (radix n : Z) (acc : list ascii) :
  (length acc <= length (digits fuel radix n acc))%nat.
Proof.
  revert n acc. induction fuel as [|fuel IH]; intros n acc; simpl; [lia|].
  destruct (n / radix =? 0); simpl; [lia|].
  specialize (IH (n / radix) (digit (n mod radix) :: acc)). simpl in IH. lia.
Qed.

(** A number below the radix is a single digit. *)
Lemma toString_one_digit (radix n : Z) :
  0 <= n < radix -> String.length (toString radix n) = 1%nat.
Proof.
  intros Hn. unfold toString. rewrite length_string_of_list_ascii. simpl.
  rewrite Z.div_small by lia. reflexivity.
Qed.

(** A number of at least [radix * radix] has three digits or more. *)
Lemma toString_three_digits (n : Z) :
  256 <= n -> (3 <= String.length (toString 16 n))%nat.
Proof.
  intros Hn. unfold toString. rewrite length_string_of_list_ascii.
  assert (Hlog : 8 <= Z.log2 n).
  { change 8 with (Z.log2 256). apply Z.log2_le_mono. lia. }
  destruct (Z.to_nat (Z.log2 n)) as [|[|k]] eqn:E; try lia.
  cbn [digits].
  assert (H1 : (n / 16 =? 0) = false) by (apply Z.eqb_neq; intros H0;
    apply Z.div_small_iff in H0; lia).
  rewrite H1.
  assert (H2 : (n / 16 / 16 =? 0) = false).
  { apply Z.eqb_neq. intros H0. apply Z.div_small_iff in H0; [|lia].
    destruct H0 as [H0|H0]; [|lia].
    assert (16 <= n / 16) by (apply Z.div_le_lower_bound; lia). lia. }
  rewrite H2.
  destruct (n / 16 / 16 / 16 =? 0).
  - simpl. lia.
  - etransitivity; [|apply digits_length_acc]. simpl. lia.
Qed.

End JSFacts.

Module AFMFontFacts.
Import AFMFont JSFacts.

(** The value read at a position and the distance to the next position,
    for a suffix that is not empty. *)
Lemma codePoints_step (u : Z) (rest : jsstring) :
  0 <= u <= 0xFFFF ->
  exists cp,
    codePointAt (u :: rest) = Some cp
    /\ codePoints (u :: rest)
       = cp :: codePoints (drop (getUTF16Increment cp) (u :: rest))
    /\ (1 <= getUTF16Increment cp <= 2)%nat.
Proof.
  intros Hu. unfold getUTF16Increment. destruct rest as [|v rest]; simpl.
  - exists u. replace (65535 <? u) with false by (symmetry; apply Z.ltb_ge; lia).
    simpl. repeat split; lia.
  - destruct (isHighSurrogate u && isLowSurrogate v) eqn:Hpair.
    + eexists. split; [reflexivity|].
      apply andb_true_iff in Hpair as [Hh Hl].
      unfold isHighSurrogate in Hh. unfold isLowSurrogate in Hl.
      apply andb_true_iff in Hh as [Hh1 Hh2]. apply andb_true_iff in Hl as [Hl1 Hl2].
      apply Z.leb_le in Hh1, Hh2, Hl1, Hl2.
      replace (65535 <? _) with true by (symmetry; apply Z.ltb_lt; lia).
      simpl. repeat split; lia.
    + exists u. replace (65535 <? u) with false by (symmetry; apply Z.ltb_ge; lia).
      simpl. repeat split; lia.
Qed.

Lemma eachCodePoint_map {A} (f : Z -> A) (text : jsstring) :
  validUnits text ->
  forall (fuel i : nat) (res : list A),
    (length text - i <= fuel)%nat ->
    eachCodePoint f fuel text i res = res ++ map f (codePoints (drop i text)).
Proof.
  intros Hv fuel. induction fuel as [|fuel IH]; intros i res Hfuel.
  - simpl. rewrite drop_ge by lia. simpl. now rewrite app_nil_r.
  - cbn [eachCodePoint].
    destruct (drop i text) as [|u rest] eqn:E.
    + simpl. now rewrite app_nil_r.
    + assert (Hu : 0 <= u <= 0xFFFF).
      { assert (Hin : u ∈ text).
        { eapply (subseteq_drop i text). rewrite E. left. }
        unfold validUnits in Hv. rewrite Forall_forall in Hv. now apply Hv. }
      destruct (codePoints_step u rest Hu) as (cp & -> & Hcps & Hinc).
      assert (Hlen : length (drop i text) = S (length rest)) by now rewrite E.
      rewrite length_drop in Hlen.
      rewrite IH by lia.
      rewrite Hcps, <- E, drop_drop. rewrite <- app_assoc. reflexivity.
Qed.

Lemma encodeText_codePoints (text : jsstring) :
  validUnits text ->
  encodeText text = map (fun cp => toString 16 (charCode cp)) (codePoints text).
Proof.
  intros Hv. unfold encodeText. rewrite eachCodePoint_map by (auto; lia).
  reflexivity.
Qed.

Lemma glyphsForString_codePoints (text : jsstring) :
  validUnits text ->
  glyphsForString text = map characterToGlyph (codePoints text).
Proof.
  intros Hv. unfold glyphsForString. rewrite eachCodePoint_map by (auto; lia).
  reflexivity.
Qed.

Lemma WIN_ANSI_MAP_range (cp v : Z) :
  WIN_ANSI_MAP !! cp = Some v -> 0x80 <= v <= 0x9F.
Proof.
  intros Hl. unfold WIN_ANSI_MAP in Hl.
  apply elem_of_list_to_map_2 in Hl.
  match type of Hl with
  | _ ∈ ?l =>
      assert (HF : Forall (fun p : Z * Z => 0x80 <= p.2 <= 0x9F) l)
        by (repeat constructor; simpl; lia)
  end.
  rewrite Forall_forall in HF. exact (HF _ Hl).
Qed.

Lemma charCode_mapped (cp v : Z) :
  WIN_ANSI_MAP !! cp = Some v -> charCode cp = v.
Proof.
  intros Hl. pose proof (WIN_ANSI_MAP_range cp v Hl) as Hv.
  unfold charCode, or_number. rewrite Hl.
  replace (v =? 0) with false by (symmetry; apply Z.eqb_neq; lia).
  reflexivity.
Qed.

Lemma charCode_unmapped (cp : Z) :
  WIN_ANSI_MAP !! cp = None -> charCode cp = cp.
Proof. intros Hl. unfold charCode. now rewrite Hl. Qed.

Lemma characterToGlyph_no_name (c : Z) :
  nameAt (charCode c) = None -> characterToGlyph c = ".notdef"%string.
Proof. intros Hn. unfold characterToGlyph. now rewrite Hn. Qed.

Lemma nameAt_outside (k : Z) : 256 <= k -> nameAt k = None.
Proof.
  intros Hk. unfold nameAt.
  replace (k <? 0) with false by (symmetry; apply Z.ltb_ge; lia).
  apply lookup_ge_None. change (length characters) with 256%nat. lia.
Qed.

(** C7. Standard-font encoding goes through the text code point by code
    point (a surrogate pair is one code point): the hexadecimal tokens and
    the glyph names are those of the code points in order. A code point of
    the WinAnsi table is replaced by its entry, which lies between 0x80 and
    0x9F; any other code point is its own output code. A code with no
    glyph name, such as any code from 256 on, gets the name .notdef. The
    text Hello is encoded as 48 65 6c 6c 6f. *)
Theorem encodeText_by_code_point (text : jsstring) :
  validUnits text ->
  encodeText text = map (fun cp => toString 16 (charCode cp)) (codePoints text)
  /\ glyphsForString text = map characterToGlyph (codePoints text)
  /\ (forall cp v, WIN_ANSI_MAP !! cp = Some v ->
        charCode cp = v /\ 0x80 <= v <= 0x9F)
  /\ (forall cp, WIN_ANSI_MAP !! cp = None -> charCode cp = cp)
  /\ (forall c, nameAt (charCode c) = None ->
        characterToGlyph c = ".notdef"%string)
  /\ (forall c, 256 <= charCode c -> characterToGlyph c = ".notdef"%string)
  /\ encodeText (lit "Hello")
     = ["48"; "65"; "6c"; "6c"; "6f"]%string.
Proof.
  intros Hv. repeat split.
  - now apply encodeText_codePoints.
  - now apply glyphsForString_codePoints.
  - now apply charCode_mapped.
  - eapply WIN_ANSI_MAP_range; eassumption.
  - eapply WIN_ANSI_MAP_range; eassumption.
  - apply charCode_unmapped.
  - apply characterToGlyph_no_name.
  - intros c Hc. apply characterToGlyph_no_name. now apply nameAt_outside.
Qed.

(** The text "H€llo" followed by U+1F600 (a surrogate pair). *)
Lemma encodeText_by_code_point_witness :
  encodeText [72; 8364; 108; 108; 111; 0xD83D; 0xDE00]
  = ["48"; "80"; "6c"; "6c"; "6f"; "1f600"]%string
  /\ glyphsForString [72; 8364; 108; 108; 111; 0xD83D; 0xDE00]
     = ["H"; "Euro"; "l"; "l"; "o"; ".notdef"]%string.
Proof.
  assert (Hv : validUnits [72; 8364; 108; 108; 111; 0xD83D; 0xDE00])
    by (repeat constructor; lia).
  destruct (encodeText_by_code_point _ Hv) as (He & Hg & _).
  split; [rewrite He | rewrite Hg]; reflexivity.
Defined.

(** C10. The tokens of the standard-font encoding are not padded: the tab
    (code 9) gives the single digit 9, every code below 0x10 gives one
    digit, and a code point above 0xFF that the WinAnsi table does not
    list is passed on and gives three digits or more, so a text holding
    one gives such a token. Joined as [addSegment] joins them, the tokens
    of a tab followed by A form the odd-length string 941. *)
Theorem encodeText_tokens_unpadded :
  encodeText [9] = ["9"%string]
  /\ (forall cp, 0 <= cp < 0x10 ->
        String.length (toString 16 (charCode cp)) = 1%nat)
  /\ (forall cp, 0xFF < cp -> WIN_ANSI_MAP !! cp = None ->
        charCode cp = cp
        /\ (2 < String.length (toString 16 (charCode cp)))%nat)
  /\ (forall text cp, validUnits text -> cp ∈ codePoints text ->
        0xFF < cp -> WIN_ANSI_MAP !! cp = None ->
        exists token, token ∈ encodeText text
                      /\ (2 < String.length token)%nat)
  /\ encodeText [0x100] = ["100"%string]
  /\ TextSegment.segmentHex (encodeText [9; 65]) 0 2 = "941"%string.
Proof.
  split; [reflexivity|]. split; [|split; [|split; [|split; reflexivity]]].
  - intros cp Hcp.
    assert (Hn : WIN_ANSI_MAP !! cp = None).
    { destruct (WIN_ANSI_MAP !! cp) as [v|] eqn:E; [|reflexivity].
      pose proof (WIN_ANSI_MAP_range cp v E) as Hv.
      pose proof (charCode_mapped cp v E) as Hc.
      exfalso. revert E. unfold WIN_ANSI_MAP.
      assert (Hcases : cp = 0 \/ cp = 1 \/ cp = 2 \/ cp = 3 \/ cp = 4 \/ cp = 5
        \/ cp = 6 \/ cp = 7 \/ cp = 8 \/ cp = 9 \/ cp = 10 \/ cp = 11
        \/ cp = 12 \/ cp = 13 \/ cp = 14 \/ cp = 15) by lia.
      repeat (destruct Hcases as [->|Hcases]; [vm_compute; discriminate|]).
      subst cp. vm_compute. discriminate. }
    rewrite (charCode_unmapped cp Hn). apply toString_one_digit. lia.
  - intros cp Hcp Hn. rewrite (charCode_unmapped cp Hn). split; [reflexivity|].
    pose proof (toString_three_digits cp ltac:(lia)). lia.
  - intros text cp Hv Hin Hcp Hn.
    exists (toString 16 (charCode cp)). split.
    + rewrite (encodeText_codePoints text Hv).
      apply list_elem_of_fmap. exists cp. split; [reflexivity|exact Hin].
    + rewrite (charCode_unmapped cp Hn).
      pose proof (toString_three_digits cp ltac:(lia)). lia.
Qed.

End AFMFontFacts.


Module PDFObjectFacts.
Import PDFObject.

(** Splits on whether [c] is the literal [k]. *)
Ltac split_code c k :=
  destruct (Z.eqb_spec c k) as [->|?]; [reflexivity|].

Lemma escape_char_refines (c : Z) : escape_char c = spec_escape_char c.
Proof.
  split_code c 10. split_code c 13. split_code c 9. split_code c 8.
  split_code c 12. split_code c 92. split_code c 40. split_code c 41.
  unfold escape_char, spec_escape_char, escapableRe. simpl.
  repeat match goal with
         | H : c <> ?k |- _ => apply Z.eqb_neq in H; rewrite H; clear H
         end.
  reflexivity.
Qed.

Lemma escape_refines (s : jsstring) : escape s = flat_map spec_escape_char s.
Proof.
  unfold escape. induction s as [|c s IH]; simpl; [reflexivity|].
  now rewrite escape_char_refines, IH.
Qed.

Lemma unescape_spec_escape (s : jsstring) :
  unescape (flat_map spec_escape_char s) = s.
Proof.
  induction s as [|c s IH]; [reflexivity|].
  cbn [flat_map].
  destruct (Z.eqb_spec c 10) as [->|?]; [cbn; now rewrite IH|].
  destruct (Z.eqb_spec c 13) as [->|?]; [cbn; now rewrite IH|].
  destruct (Z.eqb_spec c 9) as [->|?]; [cbn; now rewrite IH|].
  destruct (Z.eqb_spec c 8) as [->|?]; [cbn; now rewrite IH|].
  destruct (Z.eqb_spec c 12) as [->|?]; [cbn; now rewrite IH|].
  destruct (Z.eqb_spec c 92) as [->|H92]; [cbn; now rewrite IH|].
  destruct (Z.eqb_spec c 40) as [->|?]; [cbn; now rewrite IH|].
  destruct (Z.eqb_spec c 41) as [->|?]; [cbn; now rewrite IH|].
  unfold spec_escape_char.
  repeat match goal with
         | H : c <> ?k |- _ => apply Z.eqb_neq in H; rewrite H
         end.
  cbn [app unescape]. rewrite H92. f_equal. exact IH.
Qed.

Lemma isUnicode_ascii (s : jsstring) :
  Forall (fun c => c <= 0x7f) s -> isUnicode s = false.
Proof.
  unfold isUnicode. induction 1 as [|c s Hc _ IH]; simpl; [reflexivity|].
  rewrite IH, orb_false_r. apply Z.ltb_ge. exact Hc.
Qed.

(** C6. A string whose code units are all at most 0x7F is converted to a
    parenthesised literal whose body replaces exactly the eight escapable
    characters by their backslash sequences and keeps every other
    character; undoing the escape sequences in the body gives the string
    back. *)
Theorem convert_String_escape_roundtrip (s : jsstring) :
  Forall (fun c => c <= 0x7f) s ->
  exists body,
    convert_String s = Ok (lit "(" ++ body ++ lit ")")
    /\ body = flat_map spec_escape_char s
    /\ unescape body = s.
Proof.
  intros Hs. exists (escape s). split; [|split].
  - unfold convert_String. now rewrite (isUnicode_ascii s Hs).
  - apply escape_refines.
  - rewrite escape_refines. apply unescape_spec_escape.
Qed.

Lemma convert_String_escape_roundtrip_witness :
  exists body,
    convert_String [97; 10; 13; 9; 8; 12; 92; 40; 41; 98]
      = Ok (lit "(" ++ body ++ lit ")")
    /\ body = lit "a\n\r\t\b\f\\\(\)b"
    /\ unescape body = [97; 10; 13; 9; 8; 12; 92; 40; 41; 98].
Proof.
  apply (convert_String_escape_roundtrip [97; 10; 13; 9; 8; 12; 92; 40; 41; 98]).
  repeat constructor; lia.
Defined.

(** *** Numbers *)

Open Scope float_scope.


Set Warnings "-inexact-float".

Example number_examples :
  number 5 = Ok 5
  /\ number 1.23456789 = Ok 1.234568
  /\ number (-0.5) = Ok (-0.5)
  /\ number (-4e-7) = Ok (-0)
  /\ number 12345678.9 = Ok 12345678.9
  /\ number nan = Throw "unsupported number"
  /\ number infinity = Throw "unsupported number"
  /\ number neg_infinity = Throw "unsupported number"
  /\ number 1e21 = Throw "unsupported number"
  /\ number (-1e21) = Throw "unsupported number".
Proof. repeat split; vm_compute; reflexivity. Qed.

Set Warnings "inexact-float".


End PDFObjectFacts.


Module EmbeddedFontFacts.
Import EmbeddedFont.

(** *** Arrays with holes *)

Lemma array_get_set_eq {A} (a : jsarray A) (i : nat) (v : A) :
  array_get (array_set a i v) i = Some v.
Proof.
  unfold array_get, array_set. destruct (Nat.ltb_spec i (length a)).
  - now rewrite list_lookup_insert_eq.
  - rewrite lookup_app_r by lia.
    rewrite lookup_app_r by (rewrite length_replicate; lia).
    rewrite length_replicate. now replace (i - length a - (i - length a))%nat with O by lia.
Qed.

Lemma array_get_set_ne {A} (a : jsarray A) (i j : nat) (v : A) :
  i <> j -> array_get (array_set a i v) j = array_get a j.
Proof.
  intros Hne. unfold array_get, array_set. destruct (Nat.ltb_spec i (length a)).
  - now rewrite list_lookup_insert_ne.
  - destruct (Nat.lt_ge_cases j (length a)).
    + now rewrite lookup_app_l.
    + rewrite (lookup_ge_None_2 a j) by lia.
      rewrite lookup_app_r by lia.
      destruct (Nat.lt_ge_cases j i).
      * rewrite lookup_app_l by (rewrite length_replicate; lia).
        rewrite lookup_replicate_2 by lia. reflexivity.
      * rewrite lookup_app_r by (rewrite length_replicate; lia).
        rewrite length_replicate.
        destruct (j - length a - (i - length a))%nat as [|k] eqn:E; [lia|].
        reflexivity.
Qed.

Lemma setIfUnset_get {A} (a : jsarray A) (i j : nat) (v : A) :
  array_get (setIfUnset a i v) j
  = match array_get a j with
    | Some x => Some x
    | None => if decide (i = j) then Some v else None
    end.
Proof.
  unfold setIfUnset. destruct (decide (i = j)) as [->|Hne].
  - destruct (array_get a j) eqn:E; [now rewrite E|].
    apply array_get_set_eq.
  - destruct (array_get a i) eqn:E.
    + now destruct (array_get a j).
    + rewrite array_get_set_ne by exact Hne. now destruct (array_get a j).
Qed.

Section Generic.

Context {Sub : Type} `{Subset Sub}.

Lemma encodeStep_fields (self : t Sub) (res : list string) (g : Glyph) :
  let gid := fst (includeGlyph (glyph_id g) (subset self)) in
  let self' := fst (encodeStep (self, res) g) in
  widths self' = setIfUnset (widths self) gid (advanceWidth g * scale self)%Q
  /\ unicode self' = setIfUnset (unicode self) gid (glyph_codePoints g)
  /\ scale self' = scale self
  /\ font self' = font self
  /\ subset self' = snd (includeGlyph (glyph_id g) (subset self))
  /\ snd (encodeStep (self, res) g) = res ++ [hex4 gid].
Proof.
  unfold encodeStep, setIfUnset.
  destruct (includeGlyph (glyph_id g) (subset self)) as [gid sub'].
  simpl. repeat split.
Qed.

Lemma encodeStep_keeps (self : t Sub) (res : list string) (g : Glyph) (i : nat) :
  let self' := fst (encodeStep (self, res) g) in
  (forall w, array_get (widths self) i = Some w ->
             array_get (widths self') i = Some w)
  /\ (forall u, array_get (unicode self) i = Some u ->
                array_get (unicode self') i = Some u).
Proof.
  destruct (encodeStep_fields self res g) as (Hw & Hu & _).
  cbv zeta. rewrite Hw, Hu. split; intros x Hx; rewrite setIfUnset_get, Hx; reflexivity.
Qed.

Lemma encodeGlyphs_keeps (glyphs : list Glyph) :
  forall (self : t Sub) (res : list string) (i : nat),
  let self' := fst (fold_left encodeStep glyphs (self, res)) in
  (forall w, array_get (widths self) i = Some w ->
             array_get (widths self') i = Some w)
  /\ (forall u, array_get (unicode self) i = Some u ->
                array_get (unicode self') i = Some u).
Proof.
  induction glyphs as [|g glyphs IH]; intros self res i; cbn [fold_left].
  - split; auto.
  - destruct (encodeStep (self, res) g) as [self1 res1] eqn:E.
    pose proof (encodeStep_keeps self res g i) as [Hw Hu]. rewrite E in Hw, Hu.
    simpl in Hw, Hu.
    destruct (IH self1 res1 i) as [Hw' Hu']. split; auto.
Qed.

Lemma perform_keeps (self : t Sub) (c : call) (i : nat) :
  (forall w, array_get (widths self) i = Some w ->
             array_get (widths (perform self c)) i = Some w)
  /\ (forall u, array_get (unicode self) i = Some u ->
                array_get (unicode (perform self c)) i = Some u).
Proof.
  destruct c as [text features|glyphs]; unfold perform, encode, encodeGlyphs;
    apply encodeGlyphs_keeps.
Qed.

(** C9. In an embedded font the metadata of a compact glyph id is written
    once. The constructor seeds position 0 with the advance width of glyph
    0 and the code points [0]. One round of the loop of [encode] and
    [encodeGlyphs] writes the width (the advance width times the scale)
    and the code points of the glyph at its compact id only if the entry
    is unset, and touches no other entry. Hence whatever calls follow, an
    entry that is set keeps its value. *)
Theorem encode_keeps_glyph_metadata (f : Font) (self : t Sub)
    (calls : list call) (i : nat) :
  (array_get (widths (new f)) 0 = Some (advanceWidth (getGlyph0 f))
   /\ array_get (unicode (new f)) 0 = Some [0]
   /\ scale (new (Sub := Sub) f) = (1000 / unitsPerEm f)%Q)
  /\ (forall res g,
        let gid := fst (includeGlyph (glyph_id g) (subset self)) in
        let self' := fst (encodeStep (self, res) g) in
        array_get (widths self') i
        = match array_get (widths self) i with
          | Some w => Some w
          | None => if decide (gid = i)
                    then Some (advanceWidth g * scale self)%Q else None
          end
        /\ array_get (unicode self') i
           = match array_get (unicode self) i with
             | Some u => Some u
             | None => if decide (gid = i)
                       then Some (glyph_codePoints g) else None
             end)
  /\ (forall w, array_get (widths self) i = Some w ->
        array_get (widths (fold_left perform calls self)) i = Some w)
  /\ (forall u, array_get (unicode self) i = Some u ->
        array_get (unicode (fold_left perform calls self)) i = Some u).
Proof.
  split; [repeat split|]. split.
  - intros res g. destruct (encodeStep_fields self res g) as (Hw & Hu & _).
    cbv zeta. rewrite Hw, Hu, !setIfUnset_get. split; reflexivity.
  - revert self. induction calls as [|c calls IH]; intros self; cbn [fold_left].
    + split; auto.
    + destruct (perform_keeps self c i) as [Hw Hu].
      destruct (IH (perform self c)) as [Hw' Hu']. split; auto.
Qed.

End Generic.




Lemma indexOf_lt (g : Z) (table : list Z) (i : nat) :
  indexOf g table = Some i -> (i < length table)%nat /\ table !! i = Some g.
Proof.
  revert i. induction table as [|g' table IH]; intros i; simpl; [discriminate|].
  destruct (Z.eqb_spec g g') as [->|Hne].
  - intros [= <-]. split; [lia|reflexivity].
  - destruct (indexOf g table) as [j|]; simpl; [|discriminate].
    intros [= <-]. destruct (IH j eq_refl). split; [lia|assumption].
Qed.

Lemma indexOf_app (g : Z) (table more : list Z) (i : nat) :
  indexOf g table = Some i -> indexOf g (table ++ more) = Some i.
Proof.
  revert i. induction table as [|g' table IH]; intros i; simpl; [discriminate|].
  destruct (g =? g'); [auto|].
  destruct (indexOf g table) as [j|]; simpl; [|discriminate].
  intros [= <-]. now rewrite (IH j eq_refl).
Qed.

Lemma indexOf_None_app (g : Z) (table : list Z) :
  indexOf g table = None -> indexOf g (table ++ [g]) = Some (length table).
Proof.
  induction table as [|g' table IH]; simpl.
  - now rewrite Z.eqb_refl.
  - destruct (g =? g'); [discriminate|].
    destruct (indexOf g table); simpl; [discriminate|].
    intros _. now rewrite IH.
Qed.

(** Different glyph ids never share a position. *)
Lemma indexOf_inj (g g' : Z) (table : list Z) (i : nat) :
  indexOf g table = Some i -> indexOf g' table = Some i -> g = g'.
Proof.
  intros H1 H2. apply indexOf_lt in H1 as [_ H1], H2 as [_ H2]. congruence.
Qed.

(** After [includeGlyph] the glyph is in the table at the answered
    position, and the table has only grown at its end. *)
Lemma includeGlyph_spec (g : Z) (table : list Z) :
  let '(i, table') := includeGlyph g table in
  indexOf g table' = Some i
  /\ exists more, table' = table ++ more.
Proof.
  simpl. destruct (indexOf g table) as [i|] eqn:E.
  - split; [assumption|]. exists []. now rewrite app_nil_r.
  - split; [now apply indexOf_None_app|]. now exists [g].
Qed.

Lemma includeGlyph_present (g : Z) (table : list Z) (i : nat) :
  indexOf g table = Some i -> includeGlyph g table = (i, table).
Proof. intros E. simpl. now rewrite E. Qed.

Lemma includeAll_spec (gs : list Z) :
  forall table : list Z,
  let '(ids, table') := includeAll table gs in
  Forall2 (fun g i => indexOf g table' = Some i) gs ids
  /\ exists more, table' = table ++ more.
Proof.
  induction gs as [|g gs IH]; intros table; cbn [includeAll].
  - split; [constructor|]. exists []. now rewrite app_nil_r.
  - pose proof (includeGlyph_spec g table) as Hg.
    destruct (includeGlyph g table) as [i table1].
    destruct Hg as [Hi [more1 ->]].
    specialize (IH (table ++ more1)).
    destruct (includeAll (table ++ more1) gs) as [ids table2].
    destruct IH as [Hall [more2 ->]]. split.
    + constructor; [|assumption]. now apply indexOf_app.
    + exists (more1 ++ more2). now rewrite app_assoc.
Qed.

Lemma includeAll_present (gs : list Z) (table : list Z) (ids : list nat) :
  Forall2 (fun g i => indexOf g table = Some i) gs ids ->
  includeAll table gs = (ids, table).
Proof.
  induction 1 as [|g i gs ids Hg _ IH]; cbn [includeAll]; [reflexivity|].
  rewrite (includeGlyph_present g table i Hg). now rewrite IH.
Qed.

(** Encoding the same glyph ids again gives the same compact ids. *)
Lemma includeAll_twice (gs : list Z) (table : list Z) :
  includeAll (snd (includeAll table gs)) gs
  = (fst (includeAll table gs), snd (includeAll table gs)).
Proof.
  pose proof (includeAll_spec gs table) as Hs.
  destruct (includeAll table gs) as [ids table']. destruct Hs as [Hall _].
  simpl. now apply includeAll_present.
Qed.

Lemma encodeGlyphs_includeAll (glyphs : list Glyph) :
  forall (self : t (list Z)) (res : list string),
  let r := fold_left encodeStep glyphs (self, res) in
  let a := includeAll (subset self) (map glyph_id glyphs) in
  snd r = res ++ map hex4 (fst a) /\ subset (fst r) = snd a
  /\ font (fst r) = font self.
Proof.
  induction glyphs as [|g glyphs IH]; intros self res; cbv zeta.
  - simpl. now rewrite app_nil_r.
  - cbn [fold_left map includeAll].
    destruct (encodeStep_fields self res g) as (_ & _ & _ & Hf & Hs & Hr).
    destruct (encodeStep (self, res) g) as [self1 res1] eqn:E.
    cbn [fst snd] in Hf, Hs, Hr.
    destruct (IH self1 res1) as (I1 & I2 & I3).
    rewrite I1, I2, I3, Hs, Hr, Hf.
    destruct (includeGlyph (glyph_id g) (subset self)) as [gid sub'].
    cbn [fst snd].
    destruct (includeAll sub' (map glyph_id glyphs)) as [ids table''].
    cbn [fst snd map]. rewrite <- app_assoc. repeat split.
Qed.

(** *** The order of first use *)

Lemma filter_firstUses (P : Z -> Prop) `{forall g, Decision (P g)}
    (gs : list Z) :
  filter P (firstUses gs) = firstUses (filter P gs).
Proof.
  induction gs as [|g gs IH]; [reflexivity|]. cbn [firstUses].
  rewrite !filter_cons. destruct (decide (P g)) as [Hg|Hg].
  - cbn [firstUses]. f_equal. rewrite <- IH.
    rewrite !list_filter_filter. apply list_filter_iff. tauto.
  - rewrite <- IH, list_filter_filter. apply list_filter_iff.
    intros g'. split; [tauto|]. intros Hg'. split; [exact Hg'|].
    intros ->. contradiction.
Qed.

Lemma indexOf_None_elem (g : Z) (table : list Z) :
  indexOf g table = None <-> g ∉ table.
Proof.
  induction table as [|h table IH]; simpl.
  - split; [intros _; apply not_elem_of_nil|reflexivity].
  - rewrite not_elem_of_cons. destruct (Z.eqb_spec g h) as [->|Hne].
    + split; [discriminate|tauto].
    + destruct (indexOf g table); simpl.
      * split; [discriminate|]. intros [_ Hx]. now apply IH in Hx.
      * split; [|reflexivity]. intros _. split; [exact Hne|now apply IH].
Qed.

Lemma indexOf_snoc_None (g g' : Z) (table : list Z) :
  indexOf g (table ++ [g']) = None <-> indexOf g table = None /\ g <> g'.
Proof.
  rewrite !indexOf_None_elem, not_elem_of_app, list_elem_of_singleton.
  reflexivity.
Qed.

Lemma newIds_present (g : Z) (table gs : list Z) (i : nat) :
  indexOf g table = Some i -> newIds table (g :: gs) = newIds table gs.
Proof.
  intros E. unfold newIds. rewrite filter_cons.
  destruct (decide (indexOf g table = None)) as [Hn|_]; [congruence|reflexivity].
Qed.

Lemma newIds_absent (g : Z) (table gs : list Z) :
  indexOf g table = None ->
  newIds table (g :: gs) = g :: newIds (table ++ [g]) gs.
Proof.
  intros E. unfold newIds. rewrite filter_cons.
  destruct (decide (indexOf g table = None)) as [_|Hn]; [|contradiction].
  cbn [firstUses]. f_equal. rewrite filter_firstUses, list_filter_filter.
  f_equal. apply list_filter_iff. intros g'. rewrite indexOf_snoc_None. tauto.
Qed.

(** The table after a run: the new glyph ids at its end, in the order of
    first use. *)
Lemma includeAll_newIds (gs : list Z) :
  forall table : list Z,
  snd (includeAll table gs) = table ++ newIds table gs.
Proof.
  induction gs as [|g gs IH]; intros table; cbn [includeAll].
  - unfold newIds. cbn. now rewrite app_nil_r.
  - cbn [includeGlyph tableSubset]. destruct (indexOf g table) as [i|] eqn:E.
    + specialize (IH table). destruct (includeAll table gs) as [ids table'].
      cbn [snd] in *. now rewrite (newIds_present g table gs i E).
    + specialize (IH (table ++ [g])).
      destruct (includeAll (table ++ [g]) gs) as [ids table'].
      cbn [snd] in *. rewrite (newIds_absent g table gs E), IH, <- app_assoc.
      reflexivity.
Qed.

Lemma elem_of_firstUses (g : Z) (gs : list Z) : g ∈ firstUses gs <-> g ∈ gs.
Proof.
  induction gs as [|h gs IH]; cbn [firstUses]; [reflexivity|].
  rewrite !elem_of_cons, list_elem_of_filter, IH.
  destruct (decide (g = h)); tauto.
Qed.

Lemma NoDup_firstUses (gs : list Z) : NoDup (firstUses gs).
Proof.
  induction gs as [|g gs IH]; cbn [firstUses]; [constructor|].
  constructor; [|now apply NoDup_filter].
  rewrite list_elem_of_filter. tauto.
Qed.

Lemma indexOf_lookup (g : Z) (l : list Z) (k : nat) :
  NoDup l -> l !! k = Some g -> indexOf g l = Some k.
Proof.
  revert k. induction l as [|h l IH]; intros k Hnd Hk; [discriminate|].
  apply NoDup_cons in Hnd as [Hh Hnd]. destruct k as [|k]; simpl in *.
  - injection Hk as ->. now rewrite Z.eqb_refl.
  - destruct (Z.eqb_spec g h) as [->|Hne].
    + exfalso. apply Hh. eapply list_elem_of_lookup_2. exact Hk.
    + now rewrite (IH k Hnd Hk).
Qed.

Lemma indexOf_app_r (g : Z) (table more : list Z) (k : nat) :
  indexOf g table = None -> indexOf g more = Some k ->
  indexOf g (table ++ more) = Some (length table + k)%nat.
Proof.
  induction table as [|h table IH]; simpl; [auto|].
  destruct (g =? h); [discriminate|].
  destruct (indexOf g table) eqn:E; simpl; [discriminate|].
  intros _ Hk. now rewrite (IH eq_refl Hk).
Qed.

(** A new glyph id gets the next free position: the size of the table
    plus the number of new glyph ids used before it. *)
Lemma newIds_position (table gs : list Z) (k : nat) (g : Z) :
  newIds table gs !! k = Some g ->
  indexOf g (table ++ newIds table gs) = Some (length table + k)%nat.
Proof.
  intros Hk. apply indexOf_app_r.
  - apply list_elem_of_lookup_2 in Hk. unfold newIds in Hk.
    apply elem_of_firstUses, list_elem_of_filter in Hk. tauto.
  - apply indexOf_lookup; [apply NoDup_firstUses|exact Hk].
Qed.

(** The table only grows at its end, whatever is called. *)
Lemma perform_grows (c : call) (self : t (list Z)) :
  exists more, subset (perform self c) = subset self ++ more.
Proof.
  destruct c as [text features|glyphs]; unfold perform, encode, encodeGlyphs.
  - destruct (encodeGlyphs_includeAll
                (glyphsOf (layout (font self) text features false)) self [])
      as (_ & -> & _).
    rewrite includeAll_newIds. eexists. reflexivity.
  - destruct (encodeGlyphs_includeAll glyphs self []) as (_ & -> & _).
    rewrite includeAll_newIds. eexists. reflexivity.
Qed.

Lemma run_grows (calls : list call) :
  forall self : t (list Z),
  exists more, subset (fold_left perform calls self) = subset self ++ more.
Proof.
  induction calls as [|c calls IH]; intros self; cbn [fold_left].
  - exists []. now rewrite app_nil_r.
  - destruct (perform_grows c self) as [more1 E1].
    destruct (IH (perform self c)) as [more2 E2].
    exists (more1 ++ more2). now rewrite E2, E1, app_assoc.
Qed.

(** C8. With the subset table of the specification, these are the compact
    glyph ids that [encode] hands out. Each token of a text is the
    position of its glyph in the table after the call. The table grows at
    its end by the glyph ids of the text it did not hold, each once, in
    the order of first use, so the k-th new glyph id gets the position
    size + k. A glyph id keeps its position whatever is called afterwards,
    and no two glyph ids share one; hence encoding the text again gives
    the same tokens and leaves the table as it is. The table of a new
    instance holds glyph 0 at position 0, and position 0 stays with
    glyph 0 alone. *)
Theorem encode_twice_same_ids (self : t (list Z)) (text : jsstring)
    (features : option Features) (calls : list call) (f : Font) :
  let gs := map glyph_id (glyphsOf (layout (font self) text features false)) in
  let self' := fst (encode self text features) in
  let tokens := snd (encode self text features) in
  Forall2 (fun g token =>
             exists i, indexOf g (subset self') = Some i /\ token = hex4 i)
    gs tokens
  /\ subset self' = subset self ++ newIds (subset self) gs
  /\ (forall k g,
        newIds (subset self) gs !! k = Some g ->
        indexOf g (subset self') = Some (length (subset self) + k)%nat)
  /\ (forall g i,
        indexOf g (subset self) = Some i ->
        indexOf g (subset (fold_left perform calls self)) = Some i)
  /\ (forall g g' i,
        indexOf g (subset self) = Some i ->
        indexOf g' (subset self) = Some i -> g = g')
  /\ (snd (encode self' text features) = tokens
      /\ subset (fst (encode self' text features)) = subset self')
  /\ (subset (new (Sub := list Z) f) = [0]
      /\ forall g,
           indexOf g (subset (fold_left perform calls (new f))) = Some 0%nat
           <-> g = 0).
Proof.
  cbv zeta. unfold encode, encodeGlyphs.
  set (glyphs := glyphsOf (layout (font self) text features false)).
  destruct (encodeGlyphs_includeAll glyphs self []) as (H1 & H2 & H3).
  cbv zeta in H1, H2, H3.
  set (self1 := fst (fold_left encodeStep glyphs (self, []))) in *.
  pose proof (includeAll_spec (map glyph_id glyphs) (subset self)) as Hs.
  pose proof (includeAll_newIds (map glyph_id glyphs) (subset self)) as Hn.
  destruct (includeAll (subset self) (map glyph_id glyphs)) as [ids table'] eqn:E.
  cbn [fst snd] in H1, H2, Hn. destruct Hs as [Hall _].
  split; [|split; [|split; [|split; [|split; [|split]]]]].
  - rewrite H1, H2. cbn [app]. clear -Hall.
    induction Hall as [|g i gs ids Hg _ IH]; cbn [map]; constructor;
      [exists i; split; [exact Hg|reflexivity]|exact IH].
  - now rewrite H2.
  - intros k g Hk. rewrite H2, Hn. now apply newIds_position.
  - intros g i Hg. destruct (run_grows calls self) as [more ->].
    now apply indexOf_app.
  - intros g g' i. apply indexOf_inj.
  - rewrite H3. fold glyphs.
    destruct (encodeGlyphs_includeAll glyphs self1 []) as (K1 & K2 & _).
    cbv zeta in K1, K2. rewrite K1, K2, H1, H2.
    pose proof (includeAll_twice (map glyph_id glyphs) (subset self)) as Ht.
    rewrite E in Ht. cbn [fst snd] in Ht. rewrite Ht. split; reflexivity.
  - split; [reflexivity|]. intros g.
    destruct (run_grows calls (new (Sub := list Z) f)) as [more ->].
    change (subset (new f) ++ more) with (0 :: more). simpl.
    destruct (Z.eqb_spec g 0) as [->|Hne]; simpl.
    + tauto.
    + destruct (indexOf g more) as [j|]; simpl; split; intros; try lia; congruence.
Qed.

End EmbeddedFontFacts.


Module PDFDocumentFacts.
Import PDFDocument JSFacts.

Lemma size_app (a b : list byte) : size (a ++ b) = size a + size b.
Proof. unfold size. rewrite length_app. lia. Qed.

Lemma size_nonneg (a : list byte) : 0 <= size a.
Proof. unfold size. lia. Qed.

(** *** Writes *)

Lemma _writeBuffer_fields (data : list byte) (d : t) :
  _offsets (_writeBuffer data d) = _offsets d
  /\ _waiting (_writeBuffer data d) = _waiting d
  /\ _ended (_writeBuffer data d) = _ended d
  /\ _offset (_writeBuffer data d) = _offset d + size data
  /\ eof (_writeBuffer data d) = eof d
  /\ pushed (_writeBuffer data d)
     = if eof d then pushed d else pushed d ++ data.
Proof. unfold _writeBuffer, push. destruct (eof d) eqn:E; simpl; rewrite ?E; repeat split. Qed.

Lemma t_eq (a b : t) :
  _offsets a = _offsets b -> _waiting a = _waiting b -> _ended a = _ended b ->
  _offset a = _offset b -> pushed a = pushed b -> eof a = eof b -> a = b.
Proof. destruct a, b; simpl; intros; subst; reflexivity. Qed.

(** Two writes in a row are one write of the two chunks. *)
Lemma _writeBuffer_twice (a b : list byte) (d : t) :
  _writeBuffer b (_writeBuffer a d) = _writeBuffer (a ++ b) d.
Proof.
  destruct (_writeBuffer_fields a d) as (H1 & H2 & H3 & H4 & H5 & H6).
  destruct (_writeBuffer_fields b (_writeBuffer a d)) as (K1 & K2 & K3 & K4 & K5 & K6).
  destruct (_writeBuffer_fields (a ++ b) d) as (L1 & L2 & L3 & L4 & L5 & L6).
  apply t_eq; try congruence.
  - rewrite K4, H4, L4, size_app. lia.
  - rewrite K6, H5, H6, L6. destruct (eof d); [reflexivity|]. now rewrite app_assoc.
Qed.

Lemma _write_eq (s : string) (d : t) :
  _write s d = _writeBuffer (bytes s ++ newline) d.
Proof. reflexivity. Qed.

Lemma fold_writeBuffer (chunks : list (list byte)) (d : t) :
  fold_left (fun d chunk => _writeBuffer chunk d) chunks d
  = _writeBuffer (concat chunks) d.
Proof.
  revert d. induction chunks as [|c chunks IH]; intros d; simpl.
  - apply t_eq; destruct (_writeBuffer_fields [] d) as (H1 & H2 & H3 & H4 & H5 & H6);
      try congruence.
    + rewrite H4. unfold size. simpl. lia.
    + rewrite H6. destruct (eof d); [reflexivity|]. now rewrite app_nil_r.
  - rewrite IH. apply _writeBuffer_twice.
Qed.

Lemma fold_write_entries (offsets : list (option Z)) (d : t) :
  fold_left (fun d offset => _write (offsetField offset ++ " 00000 n ") d) offsets d
  = _writeBuffer (concat (map xrefEntry offsets)) d.
Proof.
  rewrite <- fold_writeBuffer. revert d.
  induction offsets as [|o offsets IH]; intros d; simpl; [reflexivity|].
  rewrite IH. reflexivity.
Qed.

Section WithTrailer.

Variable convertTrailer : Z -> string.

Local Abbreviation closing := (PDFDocument.closing convertTrailer) (only parsing).

Lemma _finalize_eq (d : t) :
  _finalize convertTrailer d
  = pushNull (_writeBuffer (closing (_offsets d) (_offset d)) d).
Proof.
  unfold _finalize. cbv zeta. f_equal.
  rewrite !_write_eq.
  assert (E : _offsets (_writeBuffer (bytes "0000000000 65535 f " ++ newline)
         (_writeBuffer (bytes ("0 " ++ decimal (Z.of_nat (length (_offsets d)) + 1)) ++ newline)
            (_writeBuffer (bytes "xref" ++ newline) d))) = _offsets d).
  { rewrite !(proj1 (_writeBuffer_fields _ _)). reflexivity. }
  rewrite E, fold_write_entries, !_writeBuffer_twice.
  f_equal. unfold closing, xrefSection, trailerSection.
  rewrite <- !app_assoc. reflexivity.
Qed.

Lemma finalize_eq (id : Z) (dict : string) (chunks : list (list byte)) (d : t) :
  finalize convertTrailer id dict chunks d
  = _refEnd convertTrailer id (_offset d)
      (_writeBuffer (objectBytes id dict chunks) d).
Proof.
  unfold finalize. cbv zeta. f_equal.
  rewrite !_write_eq. unfold objectBytes.
  destruct chunks as [|c chunks].
  - rewrite !_writeBuffer_twice. f_equal. rewrite <- !app_assoc. reflexivity.
  - rewrite fold_writeBuffer, !_writeBuffer_twice. f_equal.
    rewrite <- !app_assoc. reflexivity.
Qed.

End WithTrailer.


(** *** Traces *)

Lemma allocated_app (p q : list event) :
  allocated (p ++ q) = allocated p + allocated q.
Proof. induction p as [|[| |] p IH]; simpl; lia. Qed.

Lemma allocated_nonneg (p : list event) : 0 <= allocated p.
Proof. induction p as [|[| |] p IH]; simpl; lia. Qed.

Lemma finalized_app (p q : list event) :
  finalized (p ++ q) = finalized p ++ finalized q.
Proof. induction p as [|[| |] p IH]; simpl; congruence. Qed.

Lemma objects_app (p q : list event) :
  objects (p ++ q) = objects p ++ objects q.
Proof.
  induction p as [|[| |] p IH]; simpl; try congruence.
  now rewrite IH, app_assoc.
Qed.

Lemma requested_app (p q : list event) :
  requested (p ++ q) = requested p || requested q.
Proof. unfold requested. apply existsb_app. Qed.

Lemma existsb_eqb_false (id : Z) (l : list Z) :
  existsb (Z.eqb id) l = false <-> id ∉ l.
Proof.
  induction l as [|x l IH]; simpl.
  - split; [intros _; apply not_elem_of_nil | reflexivity].
  - rewrite orb_false_iff, IH, not_elem_of_cons, Z.eqb_neq. tauto.
Qed.

Lemma wellFormed_snoc_gen (p : list event) (e : event) :
  forall (n : Z) (done : list Z),
  (wellFormed n done (p ++ [e]) = true)
  <-> wellFormed n done p = true
      /\ match e with
         | Finalize id _ _ =>
             1 <= id <= n + allocated p /\ (id ∉ finalized p) /\ (id ∉ done)
         | _ => True
         end.
Proof.
  induction p as [|[|id' dict' chunks'|] p IH]; intros n done; simpl.
  - destruct e as [|id dict chunks|]; simpl; try tauto.
    rewrite !andb_true_iff, negb_true_iff, existsb_eqb_false, !Z.leb_le.
    pose proof (not_elem_of_nil id). split; intros; repeat split; try tauto; lia.
  - rewrite IH. destruct e; try tauto.
    replace (n + 1 + allocated p) with (n + (1 + allocated p)) by lia. tauto.
  - rewrite !andb_true_iff, negb_true_iff, existsb_eqb_false, !Z.leb_le, IH.
    destruct e as [|id dict chunks|]; try tauto.
    rewrite !not_elem_of_cons. tauto.
  - apply IH.
Qed.

Lemma wellFormed_snoc (p : list event) (e : event) :
  (wellFormed 0 [] (p ++ [e]) = true)
  <-> wellFormed 0 [] p = true /\ admissible p e.
Proof.
  rewrite wellFormed_snoc_gen. unfold admissible.
  destruct e as [|id dict chunks|]; try tauto.
  pose proof (not_elem_of_nil id). rewrite Z.add_0_l. tauto.
Qed.

Lemma wellFormed_prefix (p q : list event) :
  wellFormed 0 [] (p ++ q) = true -> wellFormed 0 [] p = true.
Proof.
  revert p. induction q as [|e q IH] using rev_ind; intros p.
  - now rewrite app_nil_r.
  - rewrite app_assoc, wellFormed_snoc. intros [H _]. now apply IH.
Qed.

(** In a well-formed trace no reference is finalized twice, and only
    references that were allocated are finalized. *)
Lemma wellFormed_finalized (p : list event) :
  wellFormed 0 [] p = true ->
  NoDup (finalized p) /\ forall id, id ∈ finalized p -> 1 <= id <= allocated p.
Proof.
  induction p as [|e p IH] using rev_ind; intros Hwf.
  - simpl. split; [constructor|]. intros id Hid. now apply elem_of_nil in Hid.
  - apply wellFormed_snoc in Hwf as [Hwf Hadm].
    destruct (IH Hwf) as [Hnd Hrange].
    rewrite finalized_app, allocated_app.
    pose proof (allocated_nonneg [e]).
    destruct e as [|id dict chunks|]; simpl in *.
    + rewrite app_nil_r. split; [assumption|]. intros id Hid.
      specialize (Hrange id Hid). lia.
    + destruct Hadm as [Hid Hnew]. split.
      * apply NoDup_app. split; [assumption|]. split; [|apply NoDup_singleton].
        intros x Hx Hx'. apply list_elem_of_singleton in Hx'. now subst.
      * intros x Hx. apply elem_of_app in Hx as [Hx|Hx].
        -- specialize (Hrange x Hx). lia.
        -- apply list_elem_of_singleton in Hx. subst. lia.
    + rewrite app_nil_r. split; [assumption|]. intros id Hid.
      specialize (Hrange id Hid). lia.
Qed.

(** The counting argument behind the pending counter: at most as many
    finalizations as allocations, and as many only when every reference
    is finalized. *)
Lemma finalized_count (p : list event) :
  wellFormed 0 [] p = true ->
  Z.of_nat (length (finalized p)) <= allocated p
  /\ (Z.of_nat (length (finalized p)) = allocated p ->
      forall id, 1 <= id <= allocated p -> id ∈ finalized p).
Proof.
  intros Hwf. destruct (wellFormed_finalized p Hwf) as [Hnd Hrange].
  pose proof (allocated_nonneg p) as Hn.
  assert (Hsub : finalized p ⊆+ seqZ 1 (allocated p)).
  { apply NoDup_submseteq; [assumption|]. intros x Hx.
    apply elem_of_seqZ. specialize (Hrange x Hx). lia. }
  split.
  - apply submseteq_length in Hsub. rewrite length_seqZ in Hsub. lia.
  - intros Hlen id Hid.
    assert (Hperm : finalized p ≡ₚ seqZ 1 (allocated p)).
    { apply submseteq_length_Permutation; [assumption|].
      rewrite length_seqZ. lia. }
    rewrite Hperm. apply elem_of_seqZ. lia.
Qed.


(** *** The invariant of the writer *)

Section Invariant.

Variable convertTrailer : Z -> string.
Variable version : string.

Local Abbreviation run := (PDFDocument.run convertTrailer) (only parsing).
Local Abbreviation step := (PDFDocument.step convertTrailer) (only parsing).
Local Abbreviation Table := (PDFDocument.Table version) (only parsing).
Local Abbreviation Live := (PDFDocument.Live version) (only parsing).
Local Abbreviation Closed := (PDFDocument.Closed convertTrailer version) (only parsing).

Lemma new_fields :
  _offsets (new version) = [] /\ _waiting (new version) = 0
  /\ _ended (new version) = false /\ eof (new version) = false
  /\ pushed (new version) = header version
  /\ _offset (new version) = size (header version).
Proof.
  unfold new. rewrite !_write_eq, _writeBuffer_twice.
  destruct (_writeBuffer_fields
    ((bytes ("%PDF-" ++ version) ++ newline) ++ bytes binaryComment ++ newline) empty)
    as (H1 & H2 & H3 & H4 & H5 & H6).
  rewrite H1, H2, H3, H4, H5, H6. simpl. unfold header.
  rewrite <- !app_assoc. repeat split.
Qed.

Lemma Live_new : Live [] (new version).
Proof.
  destruct new_fields as (H1 & H2 & H3 & H4 & H5 & H6).
  split.
  - exact H4.
  - split.
    + now rewrite H1.
    + now rewrite H2.
    + intros p1 id dict chunks p2 E. now destruct p1.
  - now rewrite H3.
  - now rewrite H6, H5.
  - rewrite H5. simpl. now rewrite app_nil_r.
  - discriminate.
Qed.

(** The slot of an earlier finalization survives a later event. *)
Lemma recorded_snoc (p : list event) (e : event) (offsets offsets' : list (option Z))
    (here : Z) :
  (forall p1 id dict chunks p2,
     p = p1 ++ Finalize id dict chunks :: p2 ->
     offsets !! Z.to_nat (id - 1)
     = Some (Some (size (header version ++ objects p1)))) ->
  (forall k x, offsets !! k = Some (Some x) ->
     (forall id dict chunks, e = Finalize id dict chunks -> k <> Z.to_nat (id - 1)) ->
     offsets' !! k = Some (Some x)) ->
  (forall id dict chunks, e = Finalize id dict chunks ->
     offsets' !! Z.to_nat (id - 1) = Some (Some here)) ->
  here = size (header version ++ objects p) ->
  wellFormed 0 [] p = true -> admissible p e ->
  forall p1 id dict chunks p2,
    p ++ [e] = p1 ++ Finalize id dict chunks :: p2 ->
    offsets' !! Z.to_nat (id - 1)
    = Some (Some (size (header version ++ objects p1))).
Proof.
  intros Hold Hkeep Hnew Hhere Hwf Hadm p1 id dict chunks p2 E.
  destruct p2 as [|e' p2 _] using rev_ind.
  - apply app_inj_tail in E as [-> ->]. rewrite <- Hhere. eapply Hnew. reflexivity.
  - rewrite app_comm_cons, app_assoc in E. apply app_inj_tail in E as [-> ->].
    apply Hkeep; [eapply Hold; reflexivity|].
    intros id' dict' chunks' ->. simpl in Hadm. destruct Hadm as [Hid' Hnot].
    destruct (wellFormed_finalized _ Hwf) as [_ Hrange].
    assert (Hin : id ∈ finalized (p1 ++ Finalize id dict chunks :: p2)).
    { rewrite finalized_app. apply elem_of_app. right. simpl. left. }
    specialize (Hrange id Hin).
    intros Heq. assert (id = id') by lia. subst. contradiction.
Qed.

(** One event from a live writer: the writer stays live, or the event
    makes [_finalize] run. *)
Lemma step_live (p : list event) (e : event) (d : t) :
  Live p d -> wellFormed 0 [] p = true -> admissible p e ->
  (Live (p ++ [e]) (step d e))
  \/ (Closed (p ++ [e]) (step d e)
      /\ Z.of_nat (length (finalized (p ++ [e]))) = allocated (p ++ [e])).
Proof.
  intros [Heof [Hlen Hwait Hrec] Hended Hoff Hpushed Hpend] Hwf Hadm.
  destruct (finalized_count p Hwf) as [Hcount _].
  pose proof (allocated_nonneg p) as Hn.
  destruct e as [|id dict chunks|].
  - (* ref *)
    left. simpl. split; simpl.
    + exact Heof.
    + split; simpl.
      * rewrite length_app, allocated_app. simpl. lia.
      * rewrite allocated_app, finalized_app, app_nil_r. simpl. lia.
      * eapply recorded_snoc with (here := size (header version ++ objects p));
          try eassumption; try reflexivity.
        -- intros k x Hk _. rewrite lookup_app_l; [assumption|].
           now apply lookup_lt_Some in Hk.
        -- discriminate.
    + rewrite requested_app. simpl. now rewrite orb_false_r.
    + exact Hoff.
    + now rewrite objects_app, app_nil_r.
    + rewrite requested_app. simpl. rewrite orb_false_r. intros Hr.
      specialize (Hpend Hr). lia.
  - (* finalize *)
    simpl in Hadm. destruct Hadm as [Hid Hnot].
    cbn [PDFDocument.step]. rewrite finalize_eq. unfold _refEnd.
    destruct (_writeBuffer_fields (objectBytes id dict chunks) d)
      as (W1 & W2 & W3 & W4 & W5 & W6).
    rewrite Heof in W5, W6.
    set (d1 := _writeBuffer (objectBytes id dict chunks) d) in *. clearbody d1.
    set (d2 := {| _offsets := <[Z.to_nat (id - 1) := Some (_offset d)]> (_offsets d1);
                  _waiting := _waiting d1 - 1; _ended := _ended d1;
                  _offset := _offset d1; pushed := pushed d1; eof := eof d1 |}).
    assert (D : _offsets d2 = <[Z.to_nat (id - 1) := Some (_offset d)]> (_offsets d)
             /\ _waiting d2 = _waiting d - 1 /\ _ended d2 = _ended d
             /\ _offset d2 = _offset d + size (objectBytes id dict chunks)
             /\ pushed d2 = pushed d ++ objectBytes id dict chunks
             /\ eof d2 = false).
    { subst d2. simpl. rewrite W1, W2, W3, W4, W5, W6. repeat split. }
    clearbody d2. destruct D as (D1 & D2 & D3 & D4 & D5 & D6).
    assert (Htable : Table (p ++ [Finalize id dict chunks]) d2).
    { split.
      - rewrite D1, length_insert, allocated_app. simpl. lia.
      - rewrite D2, allocated_app, finalized_app, length_app. simpl. lia.
      - rewrite D1.
        eapply recorded_snoc with (here := size (header version ++ objects p));
          try eassumption; try reflexivity.
        + intros k x Hk Hne. rewrite list_lookup_insert_ne; [assumption|].
          intros Heq. eapply Hne; [reflexivity|]. now symmetry.
        + intros id' dict' chunks' [= <- <- <-]. rewrite Hoff, Hpushed.
          apply list_lookup_insert_eq. lia.
        + simpl. split; assumption. }
    assert (Hpushed2 : pushed d2 = header version ++ objects (p ++ [Finalize id dict chunks])).
    { rewrite D5, Hpushed, objects_app. simpl.
      now rewrite app_nil_r, app_assoc. }
    assert (Hoff2 : _offset d2 = size (pushed d2)).
    { rewrite D4, D5, size_app. lia. }
    destruct ((_waiting d2 =? 0) && _ended d2) eqn:Hclose.
    + right. apply andb_true_iff in Hclose as [Hw0 He].
      apply Z.eqb_eq in Hw0.
      rewrite _finalize_eq.
      destruct (_writeBuffer_fields (closing convertTrailer (_offsets d2) (_offset d2)) d2)
        as (F1 & F2 & F3 & F4 & F5 & F6).
      rewrite D6 in F6.
      split.
      * unfold pushNull. split; cbn [eof _offsets _waiting pushed].
        -- reflexivity.
        -- destruct Htable as [T1 T2 T3].
           split; cbn [_offsets _waiting]; rewrite ?F1, ?F2; assumption.
        -- rewrite requested_app. rewrite D3, Hended in He.
           now rewrite He.
        -- now rewrite F2.
        -- rewrite F6, F1, Hoff2, Hpushed2. now rewrite <- app_assoc.
      * destruct Htable as [_ T2 _]. lia.
    + left. split.
      * exact D6.
      * exact Htable.
      * rewrite D3, Hended, requested_app. simpl. now rewrite orb_false_r.
      * exact Hoff2.
      * exact Hpushed2.
      * rewrite requested_app. simpl. rewrite orb_false_r. intros Hr.
        apply andb_false_iff in Hclose.
        assert (He : _ended d2 = true) by congruence.
        destruct Hclose as [Hw|He']; [|congruence].
        apply Z.eqb_neq in Hw. specialize (Hpend Hr). lia.
  - (* end *)
    cbn [PDFDocument.step]. unfold end_.
    destruct (Z.eqb_spec (_waiting d) 0) as [Hw0|Hw].
    + right. rewrite _finalize_eq.
      destruct (_writeBuffer_fields (closing convertTrailer (_offsets d) (_offset d)) d)
        as (F1 & F2 & F3 & F4 & F5 & F6).
      rewrite Heof in F6. split.
      * unfold pushNull. split; cbn [eof _offsets _waiting pushed].
        -- reflexivity.
        -- split; cbn [_offsets _waiting]; rewrite ?F1, ?F2.
           ++ rewrite allocated_app. simpl. lia.
           ++ rewrite allocated_app, finalized_app, app_nil_r. simpl. lia.
           ++ eapply recorded_snoc with (here := size (header version ++ objects p));
                try eassumption; try reflexivity.
              ** intros k x Hk _. exact Hk.
              ** discriminate.
        -- rewrite requested_app. simpl. apply orb_true_r.
        -- now rewrite F2.
        -- rewrite F6, F1, Hoff, Hpushed, objects_app. simpl.
           now rewrite !app_nil_r, <- app_assoc.
      * rewrite allocated_app, finalized_app, app_nil_r. simpl. lia.
    + left. split; cbn [eof _offsets _waiting _ended _offset pushed].
      * exact Heof.
      * split; cbn [_offsets _waiting].
        -- rewrite allocated_app. simpl. lia.
        -- rewrite allocated_app, finalized_app, app_nil_r. simpl. lia.
        -- eapply recorded_snoc with (here := size (header version ++ objects p));
             try eassumption; try reflexivity.
           ++ intros k x Hk _. exact Hk.
           ++ discriminate.
      * rewrite requested_app. simpl. now rewrite orb_true_r.
      * exact Hoff.
      * now rewrite objects_app, app_nil_r.
      * intros _. lia.
Qed.

End Invariant.




Lemma digits_acc (fuel : nat) (radix : Z) :
  forall (n : Z) (acc : list ascii),
  digits fuel radix n acc = digits fuel radix n [] ++ acc.
Proof.
  induction fuel as [|fuel IH]; intros n acc; simpl; [reflexivity|].
  destruct (n / radix =? 0); [reflexivity|].
  rewrite IH, (IH _ [_]), <- app_assoc. reflexivity.
Qed.

Lemma digit_value (d : Z) :
  0 <= d < 10 -> Z.of_N (N_of_ascii (digit d)) - 48 = d.
Proof.
  intros Hd. unfold digit.
  replace (d <? 10) with true by (symmetry; apply Z.ltb_lt; lia).
  rewrite N_ascii_embedding by lia. lia.
Qed.

Lemma readDigits_digits (fuel : nat) :
  forall n : Z,
  (0 < fuel)%nat -> 0 <= n < 10 ^ Z.of_nat fuel ->
  readDigits 0 (digits fuel 10 n []) = n.
Proof.
  induction fuel as [|fuel IH]; intros n Hfuel Hn; [lia|].
  cbn [digits]. pose proof (Z.mod_pos_bound n 10 ltac:(lia)) as Hmod.
  pose proof (Z.div_mod n 10 ltac:(lia)) as Hdiv.
  destruct (Z.eqb_spec (n / 10) 0) as [H0|H0].
  - unfold readDigits. simpl fold_left. rewrite digit_value by lia. lia.
  - rewrite digits_acc. unfold readDigits. rewrite fold_left_app. simpl fold_left.
    fold (readDigits 0 (digits fuel 10 (n / 10) [])).
    assert (Hq : 0 <= n / 10 < 10 ^ Z.of_nat fuel).
    { split; [apply Z.div_pos; lia|].
      apply Z.div_lt_upper_bound; [lia|].
      rewrite Nat2Z.inj_succ, Z.pow_succ_r in Hn by lia. lia. }
    assert (Hf : (0 < fuel)%nat).
    { destruct fuel; [|lia]. simpl in Hq. lia. }
    rewrite IH by assumption. rewrite digit_value by lia. lia.
Qed.

Lemma digits_length_le (fuel : nat) :
  forall (n : Z) (k : nat),
  (0 < k)%nat -> 0 <= n < 10 ^ Z.of_nat k ->
  (length (digits fuel 10 n []) <= k)%nat.
Proof.
  induction fuel as [|fuel IH]; intros n k Hk Hn; simpl; [lia|].
  destruct (Z.eqb_spec (n / 10) 0) as [H0|H0]; [simpl; lia|].
  rewrite digits_acc, length_app. simpl.
  destruct k as [|k]; [lia|].
  assert (Hq : 0 <= n / 10 < 10 ^ Z.of_nat k).
  { split; [apply Z.div_pos; lia|].
    apply Z.div_lt_upper_bound; [lia|].
    rewrite Nat2Z.inj_succ, Z.pow_succ_r in Hn by lia. lia. }
  assert (Hk' : (0 < k)%nat).
  { destruct k; [|lia]. simpl in Hq. lia. }
  specialize (IH (n / 10) k Hk' Hq). lia.
Qed.

Lemma toString_fuel (n : Z) :
  0 <= n -> n < 10 ^ Z.of_nat (S (Z.to_nat (Z.log2 n))).
Proof.
  intros Hn. rewrite Nat2Z.inj_succ, Z2Nat.id by apply Z.log2_nonneg.
  destruct (Z.eq_dec n 0) as [->|Hne]; [reflexivity|].
  pose proof (Z.log2_spec n ltac:(lia)) as [_ Hlt].
  eapply Z.lt_le_trans; [exact Hlt|].
  apply Z.pow_le_mono_l. pose proof (Z.log2_nonneg n). lia.
Qed.

(** A number written in decimal reads back as itself. *)
Lemma parseDecimal_decimal (n : Z) : 0 <= n -> parseDecimal (decimal n) = n.
Proof.
  intros Hn. unfold parseDecimal, decimal, toString.
  rewrite list_ascii_of_string_of_list_ascii.
  apply (readDigits_digits (S (Z.to_nat (Z.log2 n)))); [lia|].
  split; [assumption|]. now apply toString_fuel.
Qed.

Lemma decimal_length (n : Z) :
  0 <= n < 10 ^ 10 ->
  (length (list_ascii_of_string (decimal n)) <= 10)%nat.
Proof.
  intros Hn. unfold decimal, toString.
  rewrite list_ascii_of_string_of_list_ascii.
  apply digits_length_le; [lia|exact Hn].
Qed.

Lemma list_ascii_of_string_app (s1 s2 : string) :
  list_ascii_of_string (s1 ++ s2)
  = list_ascii_of_string s1 ++ list_ascii_of_string s2.
Proof. induction s1 as [|a s1 IH]; simpl; [reflexivity|]. now rewrite IH. Qed.

Lemma length_list_ascii_of_string (s : string) :
  length (list_ascii_of_string s) = String.length s.
Proof. induction s as [|a s IH]; simpl; [reflexivity|]. now rewrite IH. Qed.

Lemma length_bytes (s : string) : length (bytes s) = String.length s.
Proof.
  unfold bytes, list_byte_of_string.
  now rewrite length_map, length_list_ascii_of_string.
Qed.

(** Below ten digits the offset field is the offset with zeros in
    front. *)
Lemma offsetField_pad10 (n : Z) :
  0 <= n < 10 ^ 10 -> offsetField (Some n) = pad10 n.
Proof.
  intros Hn. pose proof (decimal_length n Hn) as Hlen.
  unfold offsetField, pad10, sliceLast. f_equal.
  rewrite list_ascii_of_string_app, length_app.
  change (list_ascii_of_string "0000000000") with (replicate 10 "0"%char).
  rewrite length_replicate.
  replace (10 + length (list_ascii_of_string (decimal n)) - 10)%nat
    with (length (list_ascii_of_string (decimal n))) by lia.
  rewrite drop_app_le by (rewrite length_replicate; lia).
  now rewrite drop_replicate.
Qed.

Lemma pad10_length (n : Z) :
  0 <= n < 10 ^ 10 -> String.length (pad10 n) = 10%nat.
Proof.
  intros Hn. pose proof (decimal_length n Hn) as Hlen.
  unfold pad10. rewrite length_string_of_list_ascii, length_app, length_replicate.
  lia.
Qed.

Lemma readDigits_zeros (k : nat) : readDigits 0 (replicate k "0"%char) = 0.
Proof. induction k as [|k IH]; [reflexivity|]. simpl. exact IH. Qed.

Lemma parseDecimal_pad10 (n : Z) : 0 <= n -> parseDecimal (pad10 n) = n.
Proof.
  intros Hn. unfold parseDecimal, pad10.
  rewrite list_ascii_of_string_of_list_ascii. unfold readDigits at 1.
  rewrite fold_left_app.
  fold (readDigits 0 (replicate (10 - length (list_ascii_of_string (decimal n))) "0"%char)).
  rewrite readDigits_zeros. now apply parseDecimal_decimal.
Qed.

(** An entry of the cross-reference section for an offset below ten
    digits: twenty bytes, the padded offset first. *)
Lemma xrefEntry_small (n : Z) :
  0 <= n < 10 ^ 10 ->
  xrefEntry (Some n) = bytes (pad10 n ++ " 00000 n ") ++ newline
  /\ length (xrefEntry (Some n)) = 20%nat.
Proof.
  intros Hn. unfold xrefEntry. rewrite (offsetField_pad10 n Hn). split; [reflexivity|].
  rewrite length_app, length_bytes.
  rewrite <- length_list_ascii_of_string, list_ascii_of_string_app, length_app.
  rewrite !length_list_ascii_of_string, (pad10_length n Hn). reflexivity.
Qed.




Section Runs.

Variable convertTrailer : Z -> string.
Variable version : string.

Local Abbreviation run := (PDFDocument.run convertTrailer) (only parsing).
Local Abbreviation step := (PDFDocument.step convertTrailer) (only parsing).

Lemma run_snoc (p : list event) (e : event) (d : t) :
  run (p ++ [e]) d = step (run p d) e.
Proof. unfold PDFDocument.run. now rewrite fold_left_app. Qed.

Lemma run_app (p q : list event) (d : t) : run (p ++ q) d = run q (run p d).
Proof. unfold PDFDocument.run. now rewrite fold_left_app. Qed.

Lemma _finalize_after_eof (d : t) :
  eof (_finalize convertTrailer d) = true
  /\ (eof d = true -> pushed (_finalize convertTrailer d) = pushed d).
Proof.
  rewrite _finalize_eq. unfold pushNull. cbn [eof pushed].
  split; [reflexivity|]. intros Heof.
  destruct (_writeBuffer_fields (closing convertTrailer (_offsets d) (_offset d)) d)
    as (_ & _ & _ & _ & _ & F6).
  now rewrite Heof in F6.
Qed.

Lemma _refEnd_after_eof (id offset : Z) (d : t) :
  eof d = true ->
  eof (_refEnd convertTrailer id offset d) = true
  /\ pushed (_refEnd convertTrailer id offset d) = pushed d.
Proof.
  intros Heof. unfold _refEnd. cbv zeta.
  set (d2 := {| _offsets := <[Z.to_nat (id - 1) := Some offset]> (_offsets d);
                _waiting := _waiting d - 1; _ended := _ended d;
                _offset := _offset d; pushed := pushed d; eof := eof d |}).
  assert (D : eof d2 = true /\ pushed d2 = pushed d) by (subst d2; simpl; now split).
  clearbody d2. destruct D as [D1 D2].
  destruct ((_waiting d2 =? 0) && _ended d2).
  - rewrite _finalize_eq. unfold pushNull. cbn [eof pushed].
    destruct (_writeBuffer_fields (closing convertTrailer (_offsets d2) (_offset d2)) d2)
      as (_ & _ & _ & _ & _ & F6).
    rewrite D1 in F6. rewrite F6. now split.
  - now split.
Qed.

(** Once the end of the stream is signalled, nothing more is emitted. *)
Lemma step_after_eof (d : t) (e : event) :
  eof d = true -> eof (step d e) = true /\ pushed (step d e) = pushed d.
Proof.
  intros Heof. destruct e as [|id dict chunks|]; cbn [PDFDocument.step].
  - simpl. now split.
  - rewrite finalize_eq.
    destruct (_writeBuffer_fields (objectBytes id dict chunks) d)
      as (W1 & W2 & W3 & W4 & W5 & W6). rewrite Heof in W5, W6.
    destruct (_refEnd_after_eof id (_offset d) _ W5) as [R1 R2].
    rewrite R1, R2, W6. now split.
  - unfold end_. destruct (_waiting d =? 0).
    + destruct (_finalize_after_eof d) as [F1 F2]. rewrite F1, (F2 Heof). now split.
    + cbn [eof pushed]. now split.
Qed.

Lemma run_after_eof (q : list event) (d : t) :
  eof d = true -> eof (run q d) = true /\ pushed (run q d) = pushed d.
Proof.
  revert d. induction q as [|e q IH]; intros d Heof; [now split|].
  cbn [PDFDocument.run fold_left].
  destruct (step_after_eof d e Heof) as [H1 H2].
  destruct (IH _ H1) as [K1 K2]. split; [exact K1|]. now rewrite <- H2.
Qed.

Lemma run_live (p : list event) :
  wellFormed 0 [] p = true -> eof (run p (new version)) = false ->
  Live version p (run p (new version)).
Proof.
  induction p as [|e p IH] using rev_ind; intros Hwf Heof.
  - apply Live_new.
  - apply wellFormed_snoc in Hwf as [Hwf Hadm].
    rewrite run_snoc in Heof |- *.
    destruct (eof (run p (new version))) eqn:E.
    + destruct (step_after_eof _ e E) as [E' _]. congruence.
    + destruct (step_live convertTrailer version p e _ (IH Hwf eq_refl) Hwf Hadm)
        as [HL|[HC _]]; [exact HL|].
      destruct HC as [HC _ _ _ _]. congruence.
Qed.

(** A run that has emitted the end of the stream did so at one event:
    the writer was live before it and is closed after it, and what it has
    emitted then is all it ever emits. *)
Lemma run_closed (tr : list event) :
  wellFormed 0 [] tr = true -> eof (run tr (new version)) = true ->
  exists p q,
    tr = p ++ q
    /\ Closed convertTrailer version p (run p (new version))
    /\ Z.of_nat (length (finalized p)) = allocated p
    /\ wellFormed 0 [] p = true
    /\ pushed (run tr (new version)) = pushed (run p (new version)).
Proof.
  induction tr as [|e tr IH] using rev_ind; intros Hwf Heof.
  - destruct (new_fields version) as (_ & _ & _ & H4 & _).
    cbn [PDFDocument.run fold_left] in Heof. congruence.
  - pose proof Hwf as Hwf'.
    apply wellFormed_snoc in Hwf as [Hwf Hadm].
    destruct (eof (run tr (new version))) eqn:E.
    + destruct (IH Hwf eq_refl) as (p & q & -> & HC & Hcount & Hwfp & Hpushed).
      exists p, (q ++ [e]). rewrite app_assoc.
      split; [reflexivity|]. split; [exact HC|]. split; [exact Hcount|].
      split; [exact Hwfp|].
      rewrite run_snoc.
      destruct (step_after_eof _ e E) as [_ ->]. exact Hpushed.
    + pose proof (run_live tr Hwf E) as HL.
      rewrite run_snoc in Heof.
      destruct (step_live convertTrailer version tr e _ HL Hwf Hadm)
        as [HL'|[HC Hcount]].
      * destruct HL' as [HL' _ _ _ _ _]. congruence.
      * exists (tr ++ [e]), []. rewrite app_nil_r, run_snoc.
        split; [reflexivity|]. split; [exact HC|]. split; [exact Hcount|].
        split; [exact Hwf'|reflexivity].
Qed.

Lemma finalized_split (p : list event) (id : Z) :
  id ∈ finalized p ->
  exists p1 dict chunks p2, p = p1 ++ Finalize id dict chunks :: p2.
Proof.
  induction p as [|e p IH]; simpl; intros Hin.
  - now apply elem_of_nil in Hin.
  - destruct e as [|id' dict chunks|].
    + destruct (IH Hin) as (p1 & dict & chunks & p2 & ->).
      now exists (Ref :: p1), dict, chunks, p2.
    + apply elem_of_cons in Hin as [->|Hin].
      * now exists [], dict, chunks, p.
      * destruct (IH Hin) as (p1 & dict' & chunks' & p2 & ->).
        now exists (Finalize id' dict chunks :: p1), dict', chunks', p2.
    + destruct (IH Hin) as (p1 & dict & chunks & p2 & ->).
      now exists (End :: p1), dict, chunks, p2.
Qed.

End Runs.

(** C1. In every run in which each finalization is for an allocated
    reference that was not finalized before, whatever the order: as long as
    the end of the stream is not signalled, the output is the header
    followed by the finalized objects and nothing else. When it is
    signalled, there is a point of the run by which [end()] had been called,
    every allocated reference had been finalized and the pending counter
    was zero; the output is the header, the objects finalized up to that
    point, the cross-reference section and the trailer, and nothing is
    added later. The section has one entry per allocated id, in ascending
    id order, entry [id] being made from the position at which object [id]
    was written. *)
Theorem xref_waits_for_every_reference (convertTrailer : Z -> string)
    (version : string) (tr : list event) :
  wellFormed 0 [] tr = true ->
  let d := run convertTrailer tr (new version) in
  if eof d then
    exists p q,
      tr = p ++ q
      /\ requested p = true
      /\ (forall id, 1 <= id <= allocated p -> id ∈ finalized p)
      /\ _waiting (run convertTrailer p (new version)) = 0
      /\ (exists offsets,
            _offsets (run convertTrailer p (new version)) = offsets
            /\ Z.of_nat (length offsets) = allocated p
            /\ pushed d
               = header version ++ objects p ++ xrefSection offsets
                 ++ trailerSection (convertTrailer (allocated p + 1))
                      (size (header version ++ objects p))
            /\ forall p1 id dict chunks p2,
                 p = p1 ++ Finalize id dict chunks :: p2 ->
                 offsets !! Z.to_nat (id - 1)
                 = Some (Some (size (header version ++ objects p1))))
  else pushed d = header version ++ objects tr.
Proof.
  intros Hwf d. subst d.
  destruct (eof (run convertTrailer tr (new version))) eqn:Heof.
  - destruct (run_closed convertTrailer version tr Hwf Heof)
      as (p & q & -> & HC & Hcount & Hwfp & Hpushed).
    destruct HC as [_ [T1 T2 T3] Hreq Hw Hp].
    exists p, q. split; [reflexivity|]. split; [exact Hreq|].
    split; [now apply (proj2 (finalized_count p Hwfp))|]. split; [exact Hw|].
    eexists. split; [reflexivity|]. split; [exact T1|]. split; [|exact T3].
    rewrite Hpushed, Hp. unfold closing. rewrite T1. reflexivity.
  - apply (run_live convertTrailer version tr Hwf Heof).
Qed.

End PDFDocumentFacts.

Module PDFDocumentOffsets.
Import PDFDocument JSFacts PDFDocumentFacts.

(** The object of a finalization starts where the header and the objects
    finalized before it end. *)
Lemma object_at_recorded_offset (version : string) (p p1 p2 : list event)
    (id : Z) (dict : string) (chunks : list (list byte)) (tail : list byte) :
  p = p1 ++ Finalize id dict chunks :: p2 ->
  exists rest,
    drop (Z.to_nat (size (header version ++ objects p1)))
      (header version ++ objects p ++ tail)
    = bytes (decimal id ++ " 0 obj") ++ newline ++ rest.
Proof.
  intros ->. rewrite objects_app. cbn [objects]. unfold objectBytes at 1.
  eexists. unfold size. rewrite Nat2Z.id.
  rewrite <- !app_assoc, (app_assoc (header version)).
  rewrite drop_app_length. reflexivity.
Qed.

(** C2, as amended. In a completed run of well-formed finalizations, the
    output is the header, the objects, then the cross-reference section:
    the line xref, the line 0 N+1 for the N allocated objects, the free
    entry, and one entry per object id from 1 to N in this order, followed
    by the trailer. Every object has a recorded offset, which is the value
    of the byte counter when its header was written: the output from that
    offset on starts with the text id 0 obj. When the offset is below 10^10
    its entry is twenty bytes, the offset padded with zeros to ten digits,
    a space, 00000, a space, n, a space and a newline, and the ten digits
    read back as the offset. *)
Theorem xref_entries_locate_objects (convertTrailer : Z -> string)
    (version : string) (tr : list event) :
  wellFormed 0 [] tr = true ->
  eof (run convertTrailer tr (new version)) = true ->
  exists p q offsets,
    tr = p ++ q
    /\ Z.of_nat (length offsets) = allocated p
    /\ _offsets (run convertTrailer p (new version)) = map Some offsets
    /\ pushed (run convertTrailer tr (new version))
       = header version ++ objects p
         ++ (bytes "xref" ++ newline
             ++ bytes ("0 " ++ decimal (allocated p + 1)) ++ newline
             ++ bytes "0000000000 65535 f " ++ newline
             ++ concat (map (fun off => xrefEntry (Some off)) offsets))
         ++ trailerSection (convertTrailer (allocated p + 1))
              (size (header version ++ objects p))
    /\ forall id, 1 <= id <= allocated p ->
         exists off,
           offsets !! Z.to_nat (id - 1) = Some off
           /\ 0 <= off
           /\ (exists rest,
                 drop (Z.to_nat off) (pushed (run convertTrailer tr (new version)))
                 = bytes (decimal id ++ " 0 obj") ++ newline ++ rest)
           /\ (off < 10 ^ 10 ->
                 xrefEntry (Some off) = bytes (pad10 off ++ " 00000 n ") ++ newline
                 /\ length (xrefEntry (Some off)) = 20%nat
                 /\ parseDecimal (pad10 off) = off).
Proof.
  intros Hwf Heof.
  destruct (run_closed convertTrailer version tr Hwf Heof)
    as (p & q & -> & HC & Hcount & Hwfp & Hpushed).
  destruct HC as [_ [T1 T2 T3] Hreq Hw Hp].
  set (d := run convertTrailer p (new version)) in *.
  assert (Hall : forall id, 1 <= id <= allocated p ->
            exists p1 dict chunks p2,
              p = p1 ++ Finalize id dict chunks :: p2
              /\ _offsets d !! Z.to_nat (id - 1)
                 = Some (Some (size (header version ++ objects p1)))).
  { intros id Hid.
    pose proof (proj2 (finalized_count p Hwfp) Hcount id Hid) as Hin.
    destruct (finalized_split p id Hin) as (p1 & dict & chunks & p2 & E).
    exists p1, dict, chunks, p2. split; [exact E|]. eapply T3. exact E. }
  assert (Hsome : exists offsets, _offsets d = map Some offsets).
  { assert (HF : Forall (fun o => is_Some o) (_offsets d)).
    { apply Forall_lookup. intros k o Hk.
      assert (Hlt : (k < length (_offsets d))%nat) by (eapply lookup_lt_Some; eassumption).
      destruct (Hall (Z.of_nat k + 1) ltac:(lia)) as (p1 & dict & chunks & p2 & _ & Hs).
      replace (Z.to_nat (Z.of_nat k + 1 - 1)) with k in Hs by lia.
      rewrite Hk in Hs. injection Hs as ->. eexists. reflexivity. }
    clear -HF. induction HF as [|o l [x ->] _ [offs ->]].
    - now exists [].
    - now exists (x :: offs). }
  destruct Hsome as [offsets Hoffs].
  exists p, q, offsets.
  assert (Hlen : Z.of_nat (length offsets) = allocated p).
  { rewrite <- T1, Hoffs, length_map. reflexivity. }
  split; [reflexivity|]. split; [exact Hlen|]. split; [exact Hoffs|].
  assert (Hout : pushed (run convertTrailer (p ++ q) (new version))
       = header version ++ objects p
         ++ (bytes "xref" ++ newline
             ++ bytes ("0 " ++ decimal (allocated p + 1)) ++ newline
             ++ bytes "0000000000 65535 f " ++ newline
             ++ concat (map (fun off => xrefEntry (Some off)) offsets))
         ++ trailerSection (convertTrailer (allocated p + 1))
              (size (header version ++ objects p))).
  { rewrite Hpushed, Hp. unfold closing, xrefSection.
    rewrite Hoffs, length_map, Hlen, map_map, <- !app_assoc. reflexivity. }
  split; [exact Hout|].
  intros id Hid.
  destruct (Hall id Hid) as (p1 & dict & chunks & p2 & E & Hs).
  exists (size (header version ++ objects p1)).
  split; [|split; [apply size_nonneg|split]].
  - rewrite Hoffs, list_lookup_fmap in Hs.
    destruct (offsets !! Z.to_nat (id - 1)) as [x|]; [|discriminate].
    cbn in Hs. injection Hs as ->. reflexivity.
  - rewrite Hout. eapply object_at_recorded_offset. exact E.
  - intros Hsmall.
    assert (Hn : 0 <= size (header version ++ objects p1) < 10 ^ 10)
      by (split; [apply size_nonneg|exact Hsmall]).
    destruct (xrefEntry_small _ Hn) as [E1 E2].
    split; [exact E1|]. split; [exact E2|].
    apply parseDecimal_pad10. apply size_nonneg.
Qed.

End PDFDocumentOffsets.

Module LargeDocument.
Import PDFDocument Scenarios JSFacts PDFDocumentFacts.

Lemma twoObjects_closed (chunk : list byte) :
  Closed anyTrailer "1.3" (twoObjects chunk)
    (run anyTrailer (twoObjects chunk) (new "1.3")).
Proof.
  set (p := [Ref; Ref; Finalize 1 "<<>>" [chunk]; Finalize 2 "<<>>" []]).
  assert (Hwf : wellFormed 0 [] p = true) by reflexivity.
  assert (HL : Live "1.3" p (run anyTrailer p (new "1.3"))).
  { apply run_live; [exact Hwf|reflexivity]. }
  change (twoObjects chunk) with (p ++ [End]). rewrite run_snoc.
  destruct (step_live anyTrailer "1.3" p End _ HL Hwf I) as [HL'|[HC _]];
    [|exact HC].
  exfalso. destruct HL' as [_ [_ Hw _] _ _ _ Hpend].
  specialize (Hpend eq_refl). rewrite Hw in Hpend.
  change (allocated (p ++ [End])) with 2 in Hpend.
  change (length (finalized (p ++ [End]))) with 2%nat in Hpend. lia.
Qed.

Lemma twoObjects_second_offset (chunk : list byte) :
  size (header "1.3" ++ objects [Ref; Ref; Finalize 1 "<<>>" [chunk]])
  = 53 + size chunk.
Proof.
  unfold size. cbn [objects]. unfold objectBytes.
  rewrite !length_app. cbn [concat]. rewrite !length_app. simpl. lia.
Qed.

Lemma twoObjects_state (chunk : list byte) :
  let d := run anyTrailer (twoObjects chunk) (new "1.3") in
  eof d = true
  /\ _offsets d !! 1%nat = Some (Some (53 + size chunk))
  /\ ((18 < length chunk)%nat -> pushed d !! 53%nat = chunk !! 18%nat).
Proof.
  destruct (twoObjects_closed chunk) as [Heof [_ _ Hrec] _ _ Hp].
  cbv zeta. split; [exact Heof|]. split.
  - rewrite <- twoObjects_second_offset.
    apply (Hrec [Ref; Ref; Finalize 1 "<<>>" [chunk]] 2 "<<>>"%string [] [End]).
    reflexivity.
  - intros Hlen. rewrite Hp.
    generalize (closing anyTrailer
      (_offsets (run anyTrailer (twoObjects chunk) (new "1.3")))
      (size (header "1.3" ++ objects (twoObjects chunk)))).
    intros tail. unfold twoObjects. cbn [objects]. unfold objectBytes at 1.
    cbn [concat]. rewrite app_nil_r.
    rewrite <- !app_assoc. simpl.
    rewrite lookup_app_l by lia. reflexivity.
Qed.

(** C2, counterexample. A document whose first object carries a stream
    of 10^10 bytes: the second object is written at offset 10000000053, and
    that is the offset recorded for it. Its entry in the cross-reference
    section keeps the last ten digits only: it reads 0000000053, which is
    not the offset padded to ten digits, and byte 53 of the output lies in
    the stream of the first object (a space), not at the 2 that starts the
    header of the second. *)
Lemma xref_entry_drops_leading_digit :
  let chunk := replicate (Z.to_nat 10000000000) Byte.x20 in
  let tr := twoObjects chunk in
  let d := run anyTrailer tr (new "1.3") in
  wellFormed 0 [] tr = true
  /\ eof d = true
  /\ _offsets d !! 1%nat = Some (Some 10000000053)
  /\ xrefEntry (Some 10000000053) = bytes "0000000053 00000 n " ++ newline
  /\ parseDecimal "0000000053" = 53
  /\ pushed d !! 53%nat = Some Byte.x20
  /\ bytes (decimal 2 ++ " 0 obj") !! 0%nat = Some Byte.x32.
Proof.
  cbv zeta.
  destruct (twoObjects_state (replicate (Z.to_nat 10000000000) Byte.x20))
    as (Heof & Hoff & Hbyte).
  assert (Hsize : size (replicate (Z.to_nat 10000000000) Byte.x20) = 10000000000).
  { unfold size. rewrite length_replicate. lia. }
  rewrite Hsize in Hoff.
  split; [reflexivity|]. split; [exact Heof|]. split; [exact Hoff|].
  split; [vm_compute; reflexivity|]. split; [vm_compute; reflexivity|].
  split; [|vm_compute; reflexivity].
  rewrite Hbyte by (rewrite length_replicate; lia).
  apply lookup_replicate_2. lia.
Qed.

End LargeDocument.

Module TextMixinFacts.
Import TextMixin Scenarios.

Lemma setAlign_restore (o : Options) :
  setAlign (align o) (setAlign (Some "left"%string) o) = o.
Proof. now destruct o. Qed.

Lemma setAlign_same (o : Options) : setAlign (align o) o = o.
Proof. now destruct o. Qed.

Lemma Qmax_0_pos (x : Q) : (0 < Qmax 0 x <-> 0 < x)%Q.
Proof.
  rewrite Q.max_lt_iff. split; [|now right].
  intros [H|H]; [|exact H]. now apply Qlt_irrefl in H.
Qed.

Lemma gap_pos (room sw : Q) (m : Z) :
  1 <= m ->
  (0 < room / inject_Z m - sw <-> sw * inject_Z m < room)%Q.
Proof.
  intros Hm.
  assert (Hpos : (0 < inject_Z m)%Q) by (unfold Qlt; simpl; lia).
  assert (Hne : ~ (inject_Z m == 0)%Q).
  { intros E. rewrite E in Hpos. now apply Qlt_irrefl in Hpos. }
  assert (E : (inject_Z m * (room / inject_Z m) == room)%Q)
    by (apply Qmult_div_r; exact Hne).
  split; intros H.
  - assert (H1 : (sw < room / inject_Z m)%Q) by lra.
    apply (Qmult_lt_r _ _ _ Hpos) in H1.
    rewrite <- E, (Qmult_comm (inject_Z m)). exact H1.
  - assert (H1 : (sw < room / inject_Z m)%Q)
      by (apply Qlt_shift_div_l; assumption).
    lra.
Qed.

(** *** The lines for which [wrap] raises [lastLine] *)

Section Wrap.

Variable wordWidth : jsstring -> Q.

(** The callback of [wrap] emits at most two lines. With a required break
    the last of them, which ends at the break, is emitted after
    [lastLine]; every other line is emitted without it. *)
Lemma wrapCallback_flags (word : jsstring) (w : Q) (bkRequired : bool)
    (lastRequired : option bool) (x : LineWrapper.Wrapper) :
  let x' := fst (LineWrapper.wrapCallback wordWidth word w bkRequired
                   lastRequired x) in
  exists new,
    LineWrapper.lines x' = LineWrapper.lines x ++ new
    /\ (bkRequired = true ->
        exists before l,
          new = before ++ [l] /\ l.2 = true
          /\ Forall (fun l => l.2 = false) before)
    /\ (bkRequired = false -> Forall (fun l => l.2 = false) new).
Proof.
  cbv zeta. unfold LineWrapper.wrapCallback. cbv zeta.
  set (x1 := match lastRequired with
             | Some false => x
             | _ => LineWrapper.setSpaceLeft (LineWrapper.w_lineWidth x) x
             end).
  assert (E1 : LineWrapper.lines x1 = LineWrapper.lines x)
    by (unfold x1; now destruct lastRequired as [[|]|]).
  clearbody x1. rewrite <- E1. clear E1.
  destruct (LineWrapper.canFit wordWidth word w x1) eqn:Efit1;
    cbn [negb orb];
    repeat match goal with
           | |- context [if ?c then _ else _] =>
               lazymatch c with
               | bkRequired => fail
               | _ => destruct c eqn:?
               end
           end;
    destruct bkRequired; cbn [andb orb fst LineWrapper.lines
      LineWrapper.emitLine LineWrapper.setBuffer LineWrapper.setSpaceLeft];
    repeat match goal with
           | |- context [if ?c then _ else _] => destruct c eqn:?
           end;
    cbn [andb orb fst LineWrapper.lines LineWrapper.emitLine
         LineWrapper.setBuffer LineWrapper.setSpaceLeft];
    rewrite <- ?app_assoc;
    (eexists; split; [try reflexivity; now rewrite app_nil_r|]);
    (split; [intros Hreq; try discriminate|intros Hreq; try discriminate]);
    try (repeat constructor);
    try (first [ now (eexists [], _; split; [reflexivity|]; split;
                      [reflexivity|constructor])
               | now (eexists [_], _; split; [reflexivity|]; split;
                      [reflexivity|repeat constructor]) ]).
Qed.

End Wrap.

(** Every piece of a chopped word that leaves a part of the word is passed
    with a required break. *)
Lemma forceSplit_required (wordWidth : jsstring -> Q) (St : Type)
    (spaceLeft lineWidth : St -> Q)
    (fn : jsstring -> Q -> bool -> option bool -> St -> St * bool)
    (bkRequired : bool) (fuel : nat) :
  forall (word : jsstring) (w : Q) (lbk : option bool) (mightGrow : bool)
         (st : St) (log : list LineWrapper.Call) r,
  Forall (fun c => LineWrapper.c_rest c <> [] ->
                   LineWrapper.c_required c = true) log ->
  LineWrapper.forceSplit wordWidth St spaceLeft lineWidth fn fuel word w
    bkRequired lbk mightGrow st log = Some r ->
  Forall (fun c => LineWrapper.c_rest c <> [] ->
                   LineWrapper.c_required c = true) r.2.
Proof.
  induction fuel as [|fuel IH]; intros word w lbk mg st log r Hlog E.
  - destruct word; simpl in E; [|discriminate]. injection E as <-. exact Hlog.
  - destruct word as [|c0 word0] eqn:Eword.
    { simpl in E. injection E as <-. exact Hlog. }
    rewrite <- Eword in *. assert (Hne : word <> []) by (rewrite Eword; discriminate).
    rewrite Eword in E. cbn [LineWrapper.forceSplit] in E. rewrite <- Eword in E.
    destruct (LineWrapper.fit wordWidth (S fuel) word w (spaceLeft st) mg)
      as [[[l w'] mg']|]; [|discriminate].
    cbv zeta in E.
    set (l1 := if (l =? 0) && Qeq_bool (spaceLeft st) (lineWidth st)
               then 1 else l) in *.
    set (call := {| LineWrapper.c_word := LineWrapper.slice0 l1 word;
                    LineWrapper.c_rest := LineWrapper.sliceFrom l1 word |}) in *.
    assert (Hcall : LineWrapper.c_rest call <> [] ->
                    LineWrapper.c_required call = true).
    { cbn [LineWrapper.c_rest LineWrapper.c_required call]. intros Hrest.
      apply orb_true_iff. right. apply Z.ltb_lt.
      destruct (Z.lt_ge_cases l1 (Z.of_nat (length word))) as [H|H]; [exact H|].
      exfalso. apply Hrest. unfold LineWrapper.sliceFrom.
      destruct (Z.ltb_spec l1 0); [lia|]. apply drop_ge. lia. }
    destruct (fn (LineWrapper.slice0 l1 word) w'
                (bkRequired || (l1 <? Z.of_nat (length word))) lbk st)
      as [st' cont].
    assert (Hlog' : Forall (fun c => LineWrapper.c_rest c <> [] ->
                             LineWrapper.c_required c = true) (log ++ [call]))
      by (apply Forall_app; split; [exact Hlog|now constructor]).
    destruct cont.
    + eapply IH; [exact Hlog'|exact E].
    + injection E as <-. exact Hlog'.
Qed.

Section Justify.

Variable fontWidth : jsstring -> Q.
Variable wordWidth : jsstring -> Q.

(** C5, as amended. A line that [wrap] emits without raising [lastLine]
    and that is rendered with align justify in a given width gets the
    inter-word spacing
    max(0, (lineWidth - width of the text without whitespace)
           / max(1, words - 1) - (width of a space + characterSpacing)),
    which, the arithmetic taken exactly, is positive exactly when the room
    left by the text without whitespace exceeds max(1, words - 1) times
    the width of a space with its character spacing. A line for which
    [lastLine] was raised is rendered with align left: it keeps the word
    spacing of the options, nothing is added, and the option is justify
    again afterwards. The callback of [wrap] raises [lastLine] for the
    line it ends at a required break and for no other line it emits;
    [eachWord] passes every piece of a chopped word that leaves a part of
    the word with a required break; and the line that [wrap] emits at the
    end of the text comes after [lastLine]. *)
Theorem justified_line_spacing (text : jsstring) (tw : Q) (wc : Z) (lw : Q)
    (options : Options) :
  align options = Some "justify"%string ->
  Qeq_bool (width options) 0 = false ->
  removeNewlines text <> [] ->
  let line := removeNewlines text in
  let n := Z.of_nat (length (words line)) in
  let textWidth := widthOfString fontWidth (removeSpaces line) options in
  let sw := (widthOfString fontWidth (lit " ") noOptions
             + orQ (characterSpacing options) 0)%Q in
  let gap := ((lw - textWidth) / inject_Z (Z.max 1 (n - 1)) - sw)%Q in
  (wrappedLine fontWidth lw (text, tw, wc, false) options
   = (Some (Qmax 0 gap), setLine tw wc lw options)
   /\ (0 < Qmax 0 gap <-> sw * inject_Z (Z.max 1 (n - 1)) < lw - textWidth)%Q
   /\ wrappedLine fontWidth lw (text, tw, wc, true) options
      = (Some (orQ (wordSpacing options) 0), setLine tw wc lw options))
  /\ (forall word w bkRequired lastRequired x,
        let x' := fst (LineWrapper.wrapCallback wordWidth word w bkRequired
                         lastRequired x) in
        exists new,
          LineWrapper.lines x' = LineWrapper.lines x ++ new
          /\ (bkRequired = true ->
              exists before l,
                new = before ++ [l] /\ l.2 = true
                /\ Forall (fun l => l.2 = false) before)
          /\ (bkRequired = false -> Forall (fun l => l.2 = false) new))
  /\ (forall fuel word bkRequired lbk mightGrow x r,
        LineWrapper.forceSplit wordWidth LineWrapper.Wrapper
          LineWrapper.w_spaceLeft LineWrapper.w_lineWidth
          (LineWrapper.wrapCallback wordWidth) fuel word (wordWidth word)
          bkRequired lbk mightGrow x [] = Some r ->
        Forall (fun c => LineWrapper.c_rest c <> [] ->
                         LineWrapper.c_required c = true) r.2)
  /\ (forall fuel txt breaks x x' log,
        LineWrapper.wrap wordWidth fuel txt breaks x = Some (x', log) ->
        exists x1,
          LineWrapper.eachWord wordWidth LineWrapper.Wrapper
            LineWrapper.w_spaceLeft LineWrapper.w_lineWidth
            LineWrapper.w_continuedX (LineWrapper.wrapCallback wordWidth)
            fuel txt breaks (LineWrapper.setBuffer [] 0%Q 0 x)
          = Some (x1, log)
          /\ ((0 < LineWrapper.wc x1)%Z ->
              exists l, LineWrapper.lines x' = LineWrapper.lines x1 ++ [l]
                        /\ l.1.1.1 = LineWrapper.buffer x1 /\ l.2 = true)
          /\ ((LineWrapper.wc x1 <= 0)%Z ->
              LineWrapper.lines x' = LineWrapper.lines x1)).
Proof.
  intros Halign Hwidth Htext. cbv zeta.
  split; [|split; [|split]].
  - split; [|split].
    + unfold wrappedLine, innerLine, emitLine, fragmentWordSpacing.
      cbn [align setLine width lineWidth characterSpacing].
      destruct (removeNewlines text) as [|c line] eqn:E; [contradiction|].
      rewrite Halign, Hwidth. reflexivity.
    + rewrite Qmax_0_pos. apply gap_pos. lia.
    + unfold wrappedLine, lastLine, emitLine, fragmentWordSpacing.
      cbn [align setLine]. rewrite Halign.
      rewrite bool_decide_eq_true_2 by reflexivity.
      destruct (removeNewlines text) as [|c line] eqn:E; [contradiction|].
      cbn [align setAlign width wordSpacing setLine].
      f_equal; [rewrite Hwidth; reflexivity|].
      rewrite <- Halign. reflexivity.
  - intros word w req lastReq x. apply wrapCallback_flags.
  - intros fuel word req lbk mg x r E.
    eapply forceSplit_required; [|exact E]. constructor.
  - intros fuel txt breaks x x' log E. unfold LineWrapper.wrap in E.
    destruct (LineWrapper.eachWord _ _ _ _ _ _ _ _ _ _) as [[x1 log1]|] eqn:E1;
      [|discriminate].
    injection E as <- <-. exists x1. split; [reflexivity|]. split.
    + intros Hwc. replace (0 <? LineWrapper.wc x1) with true
        by (symmetry; now apply Z.ltb_lt).
      eexists. split; [reflexivity|]. split; reflexivity.
    + intros Hwc. replace (0 <? LineWrapper.wc x1) with false
        by (symmetry; now apply Z.ltb_ge).
      reflexivity.
Qed.

End Justify.

(** Three words on a line of width 100: (100 - 54) / 2 - 6 = 17. *)
Lemma justified_line_spacing_witness :
  wrappedLine fixedPitch 100 (lit "ab cde fghi ", 72%Q, 3, false)
    (justified 0 100 0)
  = (Some (Qmax 0 ((100 - fixedPitch (lit "abcdefghi") * 100 / 100) / 2
                   - (fixedPitch (lit " ") * 100 / 100 + 0)))%Q,
     justified 72 100 3)
  /\ wrappedLine fixedPitch 100 (lit "ab cde fghi ", 72%Q, 3, true)
       (justified 0 100 0)
     = (Some 0%Q, justified 72 100 3).
Proof.
  destruct (justified_line_spacing fixedPitch LineWrapper.unitWidth
              (lit "ab cde fghi ") 72 3 100 (justified 0 100 0)
              eq_refl eq_refl ltac:(discriminate))
    as ((H1 & _ & H3) & _).
  split; [exact H1 | exact H3].
Defined.

(** A word of 25 characters on lines that hold ten: each of its three
    lines is emitted after [lastLine], the first two because a chopped
    piece is passed with a required break, so none of them is justified;
    of two words that fit a line each, the first line is emitted without
    [lastLine] and the second, at the end of the text, after it. *)
Lemma chopped_lines_are_rendered_left :
  (exists x calls,
     LineWrapper.wrap LineWrapper.unitWidth 53 (replicate 25 97)
       [{| LineWrapper.position := 25; LineWrapper.required := false |}]
       (LineWrapper.emptyWrapper 10)
     = Some (x, calls)
     /\ map (fun l => (length l.1.1.1, l.2)) (LineWrapper.lines x)
        = [(10%nat, true); (10%nat, true); (5%nat, true)])
  /\ (exists x calls,
        LineWrapper.wrap LineWrapper.unitWidth 53
          (replicate 7 97 ++ [32] ++ replicate 7 98)
          [{| LineWrapper.position := 8; LineWrapper.required := false |};
           {| LineWrapper.position := 15; LineWrapper.required := false |}]
          (LineWrapper.emptyWrapper 10)
        = Some (x, calls)
        /\ map (fun l => (length l.1.1.1, l.2)) (LineWrapper.lines x)
           = [(8%nat, false); (7%nat, true)]).
Proof.
  split; eexists _, _; (split; [vm_compute; reflexivity|reflexivity]).
Qed.

(** C5, counterexample. The line Hello- (cut at its hyphen, so not the
    last line) on a line of width 40: its natural width 36 is less than the
    line width, yet the spacing is max(0, (40 - 36) / 1 - 6) = 0, which is
    not positive. *)
Lemma justified_single_word_gets_no_spacing :
  (widthOfString fixedPitch (lit "Hello-") (justified 36 40 1) == 36)%Q
  /\ (36 < lineWidth (justified 36 40 1))%Q
  /\ exists s, fst (innerLine fixedPitch (lit "Hello-") (justified 36 40 1)) = Some s
               /\ ~ (0 < s)%Q.
Proof.
  split; [reflexivity|]. split; [reflexivity|].
  eexists. split; [reflexivity|]. vm_compute. discriminate.
Qed.

End TextMixinFacts.

Module LineWrapperFacts.
Import LineWrapper.

Lemma gtb_true (a b : Q) : gtb a b = true <-> (b < a)%Q.
Proof.
  unfold gtb. rewrite negb_true_iff, <- not_true_iff_false, Qle_bool_iff.
  split; [apply Qnot_le_lt | apply Qlt_not_le].
Qed.

Lemma gtb_false (a b : Q) : gtb a b = false <-> (a <= b)%Q.
Proof. unfold gtb. rewrite negb_false_iff. apply Qle_bool_iff. Qed.

Lemma gtb_leb (a b : Q) : gtb a b = negb (leb a b).
Proof. reflexivity. Qed.

Lemma slice0_nonneg (l : Z) (word : jsstring) :
  0 <= l -> slice0 l word = take (Z.to_nat l) word.
Proof.
  intros Hl. unfold slice0.
  now replace (l <? 0) with false by (symmetry; apply Z.ltb_ge; lia).
Qed.

Lemma sliceFrom_nonneg (l : Z) (word : jsstring) :
  0 <= l -> sliceFrom l word = drop (Z.to_nat l) word.
Proof.
  intros Hl. unfold sliceFrom.
  now replace (l <? 0) with false by (symmetry; apply Z.ltb_ge; lia).
Qed.

(** The first guess lies within the word when the word is wider than the
    space and the space is not negative. *)
Lemma guess_range (space w : Q) (len : Z) :
  0 < len -> (0 <= space)%Q -> (space < w)%Q ->
  0 <= Qceiling (space / (w / inject_Z len))%Q <= len.
Proof.
  intros Hlen Hspace Hw.
  assert (Hlenq : (0 < inject_Z len)%Q) by (unfold Qlt; simpl; lia).
  assert (Hwpos : (0 < w)%Q) by lra.
  assert (Hd : (0 < w / inject_Z len)%Q).
  { apply Qlt_shift_div_l; [exact Hlenq|]. lra. }
  set (x := (space / (w / inject_Z len))%Q).
  assert (Hx0 : (0 <= x)%Q).
  { apply Qle_shift_div_l; [exact Hd|]. lra. }
  assert (Hx1 : (x < inject_Z len)%Q).
  { apply Qlt_shift_div_r; [exact Hd|].
    assert (E : (inject_Z len * (w / inject_Z len) == w)%Q).
    { apply Qmult_div_r. intros E. rewrite E in Hlenq. now apply Qlt_irrefl in Hlenq. }
    rewrite E. exact Hw. }
  pose proof (Qle_ceiling x) as Hc1. pose proof (Qceiling_lt x) as Hc2.
  split.
  - rewrite Zle_Qle. change (inject_Z 0) with 0%Q. lra.
  - assert (H : Qceiling x - 1 < len) by (rewrite Zlt_Qlt; lra). lia.
Qed.

Section EachWord.

Variable wordWidth : jsstring -> Q.
Variable St : Type.
Variable spaceLeft lineWidth continuedX : St -> Q.
Variable fn : jsstring -> Q -> bool -> option bool -> St -> St * bool.

Local Abbreviation adjust := (LineWrapper.adjust wordWidth) (only parsing).
Local Abbreviation fit := (LineWrapper.fit wordWidth) (only parsing).
Local Abbreviation forceSplit :=
  (LineWrapper.forceSplit wordWidth St spaceLeft lineWidth fn) (only parsing).

Lemma adjust_terminates (word : jsstring) (space : Q) (fuel : nat) :
  forall (l : Z) (w : Q) (mustShrink mightGrow : bool),
  0 <= l <= Z.of_nat (length word) ->
  mustShrink = gtb w space && (0 <? l) ->
  (mightGrow = true -> (w <= space)%Q /\ l < Z.of_nat (length word)) ->
  (if mightGrow then 2 * Z.of_nat (length word) - l else l) <= Z.of_nat fuel ->
  exists l' w',
    adjust fuel word space l w mustShrink mightGrow = Some (l', w', false)
    /\ 0 <= l' <= Z.of_nat (length word)
    /\ ((w' <= space)%Q \/ l' = 0)
    /\ ((l' = l /\ w' = w) \/ w' = wordWidth (slice0 l' word)).
Proof.
  induction fuel as [|fuel IH]; intros l w ms mg Hl Hms Hmg Hfuel.
  - (* no round is left: the loop must be at its exit *)
    destruct mg.
    + destruct (Hmg eq_refl). lia.
    + assert (l = 0) by lia. subst l. simpl in Hms. rewrite andb_false_r in Hms.
      subst ms. simpl. exists 0, w. repeat split; try lia; auto.
  - cbn [LineWrapper.adjust].
    destruct ms.
    + (* shrink *)
      symmetry in Hms. apply andb_true_iff in Hms as [Hgt Hpos].
      apply Z.ltb_lt in Hpos. apply gtb_true in Hgt.
      assert (Hmgf : mg = false).
      { destruct mg; [|reflexivity]. destruct (Hmg eq_refl). lra. }
      subst mg. cbn [orb].
      destruct (IH (l - 1) (wordWidth (slice0 (l - 1) word))
                  (gtb (wordWidth (slice0 (l - 1) word)) space && (0 <? l - 1)) false)
        as (l' & w' & E & Hr & Hfit & Hw); try lia; try reflexivity; try discriminate.
      exists l', w'. split; [exact E|]. split; [lia|]. split; [exact Hfit|].
      right. destruct Hw as [[-> ->]|Hw]; [reflexivity|exact Hw].
    + destruct mg.
      * (* grow *)
        cbn [orb]. destruct (Hmg eq_refl) as [Hle Hlt].
        set (w1 := wordWidth (slice0 (l + 1) word)).
        destruct (IH (l + 1) w1 (gtb w1 space && (0 <? l + 1))
                    (leb w1 space && (l + 1 <? Z.of_nat (length word))))
          as (l' & w' & E & Hr & Hfit & Hw); try lia; try reflexivity.
        -- intros Hg. apply andb_true_iff in Hg as [Hg1 Hg2].
           apply Z.ltb_lt in Hg2. split; [now apply Qle_bool_iff|exact Hg2].
        -- destruct (leb w1 space && (l + 1 <? Z.of_nat (length word))); lia.
        -- exists l', w'. split; [exact E|]. split; [lia|]. split; [exact Hfit|].
           right. destruct Hw as [[-> ->]|Hw]; [reflexivity|exact Hw].
      * (* the exit *)
        cbn [orb]. exists l, w. split; [reflexivity|]. split; [lia|].
        split; [|left; split; reflexivity].
        symmetry in Hms. apply andb_false_iff in Hms as [Hms|Hms].
        -- left. now apply gtb_false.
        -- right. apply Z.ltb_ge in Hms. lia.
Qed.

(** One piece: with enough rounds the length is found; it lies within the
    word, the piece fits or is empty, and [mightGrow] is left false. *)
Lemma fit_terminates (fuel : nat) (word : jsstring) (w space : Q) :
  word <> [] -> (0 <= space)%Q ->
  2 * Z.of_nat (length word) <= Z.of_nat fuel ->
  exists l w',
    fit fuel word w space false = Some (l, w', false)
    /\ 0 <= l <= Z.of_nat (length word)
    /\ ((w' <= space)%Q \/ l = 0)
    /\ ((l = Z.of_nat (length word) /\ w' = w)
        \/ w' = wordWidth (slice0 l word)).
Proof.
  intros Hword Hspace Hfuel. unfold LineWrapper.fit.
  assert (Hlen : 0 < Z.of_nat (length word)) by (destruct word; [contradiction|simpl; lia]).
  destruct (gtb w space) eqn:Hgt.
  - apply gtb_true in Hgt.
    pose proof (guess_range space w _ Hlen Hspace Hgt) as Hl.
    set (l0 := Qceiling (space / (w / inject_Z (Z.of_nat (length word))))%Q) in *.
    set (w0 := wordWidth (slice0 l0 word)).
    destruct (adjust_terminates word space fuel l0 w0
                (gtb w0 space && (0 <? l0))
                (leb w0 space && (l0 <? Z.of_nat (length word))))
      as (l' & w' & E & Hr & Hfit & Hw); try lia; try reflexivity.
    + intros Hg. apply andb_true_iff in Hg as [Hg1 Hg2].
      apply Z.ltb_lt in Hg2. split; [now apply Qle_bool_iff|exact Hg2].
    + destruct (leb w0 space && (l0 <? Z.of_nat (length word))); lia.
    + exists l', w'. split; [exact E|]. split; [exact Hr|]. split; [exact Hfit|].
      right. destruct Hw as [[-> ->]|Hw]; [reflexivity|exact Hw].
  - destruct (adjust_terminates word space fuel (Z.of_nat (length word)) w
                (gtb w space && (0 <? Z.of_nat (length word))) false)
      as (l' & w' & E & Hr & Hfit & Hw); try lia; try reflexivity; try discriminate.
    exists l', w'. split; [exact E|]. split; [exact Hr|]. split; [exact Hfit|].
    exact Hw.
Qed.


(** The callback, like the one of [wrap], hands the whole line back after
    a required break whenever it asks to go on, and keeps the line width
    from becoming negative. *)
Hypothesis fn_resets :
  forall piece w lbk st st',
    (0 <= lineWidth st)%Q ->
    fn piece w true lbk st = (st', true) ->
    Qeq_bool (spaceLeft st') (lineWidth st') = true /\ (0 <= lineWidth st')%Q.

Lemma forceSplit_empty (fuel : nat) (w : Q) (bkRequired : bool)
    (lbk : option bool) (mg : bool) (st : St) (log : list Call) :
  forceSplit fuel [] w bkRequired lbk mg st log = Some (st, true, mg, log).
Proof. destruct fuel; reflexivity. Qed.

Lemma forceSplit_run (bkRequired : bool) (fuel : nat) :
  forall (word : jsstring) (w : Q) (lbk : option bool) (st : St)
         (log : list Call),
  w = wordWidth word ->
  (0 <= spaceLeft st)%Q -> (0 <= lineWidth st)%Q ->
  2 * Z.of_nat (length word)
    + (if Qeq_bool (spaceLeft st) (lineWidth st) then 2 else 3)
    <= Z.of_nat fuel ->
  exists st' shouldContinue calls rest,
    forceSplit fuel word w bkRequired lbk false st log
    = Some (st', shouldContinue, false, log ++ calls)
    /\ Forall (pieceOK wordWidth bkRequired) calls
    /\ concat (map c_word calls) ++ rest = word
    /\ (shouldContinue = true -> rest = [])
    /\ (forall c, head calls = Some c ->
          c_spaceLeft c = spaceLeft st /\ c_lineWidth c = lineWidth st)
    /\ Forall (fun c => freeLine c = true) (tail calls).
Proof.
  induction fuel as [|fuel IH]; intros word w lbk st log Hw Hspace Hline Hfuel.
  - destruct (Qeq_bool (spaceLeft st) (lineWidth st)); lia.
  - destruct word as [|c0 word0] eqn:Eword.
    { exists st, true, [], []. rewrite app_nil_r.
      split; [reflexivity|]. split; [constructor|]. split; [reflexivity|].
      split; [reflexivity|]. split; [discriminate|constructor]. }
    rewrite <- Eword in *.
    assert (Hne : word <> []) by (rewrite Eword; discriminate).
    assert (Hlen : 0 < Z.of_nat (length word)) by (rewrite Eword; simpl; lia).
    destruct (fit_terminates (S fuel) word w (spaceLeft st) Hne Hspace)
      as (l & w' & Efit & Hl & Hfit & Hw').
    { destruct (Qeq_bool (spaceLeft st) (lineWidth st)); lia. }
    assert (Eunfold : forceSplit (S fuel) word w bkRequired lbk false st log
      = let l := if (l =? 0) && Qeq_bool (spaceLeft st) (lineWidth st) then 1 else l in
        let required := bkRequired || (l <? Z.of_nat (length word)) in
        let piece := slice0 l word in
        let rest := sliceFrom l word in
        let call := {| c_word := piece; c_w := w'; c_required := required;
                       c_last := lbk; c_spaceLeft := spaceLeft st;
                       c_lineWidth := lineWidth st; c_rest := rest |} in
        let '(st', shouldContinue) := fn piece w' required lbk st in
        if shouldContinue
        then forceSplit fuel rest (wordWidth rest) bkRequired
               (Some false) false st' (log ++ [call])
        else Some (st', false, false, log ++ [call])).
    { rewrite Eword. cbn [LineWrapper.forceSplit]. rewrite <- Eword, Efit. reflexivity. }
    rewrite Eunfold. clear Eunfold. cbv zeta.
    set (l1 := if (l =? 0) && Qeq_bool (spaceLeft st) (lineWidth st) then 1 else l).
    assert (Hl1 : 0 <= l1 <= Z.of_nat (length word)).
    { subst l1. destruct ((l =? 0) && Qeq_bool (spaceLeft st) (lineWidth st)); lia. }
    rewrite (slice0_nonneg l1 word) by lia.
    rewrite (sliceFrom_nonneg l1 word) by lia.
    set (piece := take (Z.to_nat l1) word).
    set (rest := drop (Z.to_nat l1) word).
    set (required := bkRequired || (l1 <? Z.of_nat (length word))).
    set (call := {| c_word := piece; c_w := w'; c_required := required;
                    c_last := lbk; c_spaceLeft := spaceLeft st;
                    c_lineWidth := lineWidth st; c_rest := rest |}).
    assert (Hpart : piece ++ rest = word) by apply take_drop.
    assert (Hrestlen : Z.of_nat (length rest) = Z.of_nat (length word) - l1).
    { subst rest. rewrite length_drop. lia. }
    assert (Hrest : rest = [] <-> l1 = Z.of_nat (length word)).
    { split; intros H.
      - rewrite H in Hrestlen. simpl in Hrestlen. lia.
      - apply nil_length_inv. lia. }
    assert (Hpiecelen : Z.of_nat (length piece) = l1).
    { subst piece. rewrite length_take. lia. }
    assert (Hcall : pieceOK wordWidth bkRequired call).
    { split; cbn [c_required c_rest c_spaceLeft c_lineWidth c_word c_w call].
      - subst required. f_equal.
        destruct (Z.ltb_spec l1 (Z.of_nat (length word))) as [Hlt|Hge].
        + rewrite bool_decide_eq_false_2; [reflexivity|]. rewrite Hrest. lia.
        + rewrite bool_decide_eq_true_2; [reflexivity|]. apply Hrest. lia.
      - unfold freeLine. cbn [c_spaceLeft c_lineWidth call].
        destruct (Z.eq_dec l 0) as [Hz|Hnz].
        + (* the search found nothing *)
          assert (Hw0 : w' = wordWidth []).
          { destruct Hw' as [[Hll _]|Hw']; [lia|].
            rewrite Hw', Hz, slice0_nonneg by lia. reflexivity. }
          destruct (Qeq_bool (spaceLeft st) (lineWidth st)) eqn:Efree.
          * right. left. split; [reflexivity|]. split; [|exact Hw0].
            assert (l1 = 1) by (subst l1; rewrite Hz; reflexivity).
            apply Nat2Z.inj. rewrite Hpiecelen. lia.
          * right. right. split; [reflexivity|].
            assert (l1 = 0) by (subst l1; rewrite Hz, andb_false_r; reflexivity).
            apply nil_length_inv. apply Nat2Z.inj. rewrite Hpiecelen. lia.
        + (* the search found a piece *)
          left. assert (l1 = l).
          { subst l1. destruct (Z.eqb_spec l 0); [contradiction|reflexivity]. }
          split; [|split].
          * intros Hnil. rewrite Hnil in Hpiecelen. simpl in Hpiecelen. lia.
          * destruct Hw' as [[Hll ->]|Hw'].
            -- rewrite Hw. f_equal. subst piece. rewrite take_ge; [reflexivity|lia].
            -- rewrite Hw'. rewrite slice0_nonneg by lia. subst piece. congruence.
          * destruct Hfit as [Hfit|Hfit]; [exact Hfit|contradiction]. }
    destruct (fn piece w' required lbk st) as [st' shouldContinue] eqn:Efn.
    destruct shouldContinue.
    + destruct (decide (rest = [])) as [Hnil|Hcons].
      * rewrite Hnil, forceSplit_empty.
        exists st', true, [call], []. split; [reflexivity|].
        split; [constructor; [exact Hcall|constructor]|].
        split; [|split; [reflexivity|split;
                  [intros c [= <-]; split; reflexivity|constructor]]].
        simpl. rewrite !app_nil_r.
        change (c_word call) with piece. rewrite <- Hpart, Hnil, app_nil_r. reflexivity.
      * assert (Hreq : required = true).
        { subst required. destruct (Z.ltb_spec l1 (Z.of_nat (length word))) as [Hlt|Hge].
          - apply orb_true_r.
          - exfalso. apply Hcons, Hrest. lia. }
        rewrite Hreq in Efn.
        destruct (fn_resets piece w' lbk st st' Hline Efn) as [Hfresh Hline'].
        assert (Hspace' : (0 <= spaceLeft st')%Q).
        { apply Qeq_bool_iff in Hfresh. rewrite Hfresh. exact Hline'. }
        destruct (IH rest (wordWidth rest) (Some false) st' (log ++ [call])
                    eq_refl Hspace' Hline')
          as (st'' & cont & calls & rest' & E & Hcalls & Hparts & Hcont
              & Hhead & Htail).
        { rewrite Hfresh, Hrestlen.
          destruct (Z.eq_dec l1 0) as [Hz|Hnz].
          - assert (Hnf : Qeq_bool (spaceLeft st) (lineWidth st) = false).
            { subst l1. destruct (Qeq_bool (spaceLeft st) (lineWidth st)); [|reflexivity].
              destruct (Z.eqb_spec l 0); simpl in Hz; lia. }
            rewrite Hnf in Hfuel. lia.
          - destruct (Qeq_bool (spaceLeft st) (lineWidth st)); lia. }
        exists st'', cont, (call :: calls), rest'.
        split; [rewrite E, <- app_assoc; reflexivity|].
        split; [constructor; assumption|].
        split; [|split; [exact Hcont|split]].
        -- cbn [map concat]. change (c_word call) with piece.
           rewrite <- app_assoc, Hparts. exact Hpart.
        -- intros c [= <-]. split; reflexivity.
        -- cbn [tail]. destruct calls as [|c2 calls2]; [constructor|].
           constructor; [|exact Htail].
           destruct (Hhead c2 eq_refl) as [E1 E2]. unfold freeLine.
           rewrite E1, E2. exact Hfresh.
    + exists st', false, [call], rest. split; [reflexivity|].
      split; [constructor; [exact Hcall|constructor]|].
      split; [|split; [discriminate|split;
                [intros c [= <-]; split; reflexivity|constructor]]].
      simpl. rewrite app_nil_r. exact Hpart.
Qed.


(** What [pieceOK] says in the words of the loop. *)
Lemma pieceOK_cases (bkRequired : bool) (c : Call) :
  pieceOK wordWidth bkRequired c ->
  (freeLine c = true -> c_word c <> [])
  /\ (freeLine c = false -> nothingFits wordWidth c -> c_word c = [])
  /\ ((2 <= length (c_word c))%nat ->
      c_w c = wordWidth (c_word c) /\ (c_w c <= c_spaceLeft c)%Q)
  /\ (c_word c = [] -> freeLine c = false).
Proof.
  intros [_ [(Hne & Hw & Hfit)|[(Hfree & Hlen & Hw)|(Hfree & Hnil)]]].
  - split; [intros _; exact Hne|]. split; [|split; [intros _; now split|]].
    + intros _ Hnone. exfalso.
      specialize (Hnone (length (c_word c))).
      rewrite take_app_length, length_app in Hnone.
      assert (Hpos : (1 <= length (c_word c))%nat)
        by (destruct (c_word c); [contradiction|simpl; lia]).
      specialize (Hnone ltac:(lia)). rewrite <- Hw in Hnone.
      apply (Qlt_not_le _ _ Hnone Hfit).
    + intros Hnil. contradiction.
  - split; [intros _ Hnil; rewrite Hnil in Hlen; discriminate|].
    split; [intros Hnf; congruence|]. split; [lia|].
    intros Hnil. rewrite Hnil in Hlen. discriminate.
  - split; [intros Hf; congruence|]. split; [intros _ _; exact Hnil|].
    split; [rewrite Hnil; simpl; lia|intros _; exact Hfree].
Qed.

(** C4, as amended. Let the callback, like the one of [wrap], go on after
    a required break only with the whole line free again and a line width
    that is not negative, and let the space left and the line width not be
    negative at the start. Then the loop that chops a word ends, within
    2 * length + 3 rounds: it returns. Every call it makes passes a piece
    whose required flag is set exactly when the break requires it or a
    part of the word is left, so the last piece carries the flag of the
    break. A piece is one of three: a piece that fits the space left, with
    its measured width; one character forced on a free line; or the empty
    piece on a line that is not free. So a call made with the whole line
    free passes at least one character; a call on a partly filled line
    passes the empty piece when no piece of the word fits; a piece of two
    characters or more fits the space left, with its measured width. Every
    call but the first is made with the whole line free, so only the first
    piece can be empty and the one after it consumes a character. The
    pieces, in order, make up the word, entirely so when the callback
    never stops the loop. *)
Theorem forceSplit_terminates (bkRequired : bool) (fuel : nat)
    (word : jsstring) (lbk : option bool) (st : St) :
  (0 <= spaceLeft st)%Q -> (0 <= lineWidth st)%Q ->
  2 * Z.of_nat (length word) + 3 <= Z.of_nat fuel ->
  exists st' shouldContinue calls rest,
    forceSplit fuel word (wordWidth word) bkRequired lbk false st []
    = Some (st', shouldContinue, false, calls)
    /\ Forall (pieceOK wordWidth bkRequired) calls
    /\ concat (map c_word calls) ++ rest = word
    /\ (shouldContinue = true -> rest = [])
    /\ Forall (fun c => freeLine c = true -> c_word c <> []) calls
    /\ Forall (fun c => freeLine c = false -> nothingFits wordWidth c ->
                        c_word c = []) calls
    /\ Forall (fun c => (2 <= length (c_word c))%nat ->
                        c_w c = wordWidth (c_word c)
                        /\ (c_w c <= c_spaceLeft c)%Q) calls
    /\ Forall (fun c => freeLine c = true /\ c_word c <> []) (tail calls).
Proof.
  intros Hspace Hline Hfuel.
  destruct (forceSplit_run bkRequired fuel word (wordWidth word) lbk st []
              eq_refl Hspace Hline)
    as (st' & cont & calls & rest & E & H1 & H2 & H3 & _ & H5).
  - destruct (Qeq_bool (spaceLeft st) (lineWidth st)); lia.
  - exists st', cont, calls, rest.
    split; [exact E|]. split; [exact H1|]. split; [exact H2|].
    split; [exact H3|].
    split; [|split; [|split]].
    + eapply Forall_impl; [exact H1|]. intros c Hc. now apply pieceOK_cases in Hc.
    + eapply Forall_impl; [exact H1|]. intros c Hc. now apply pieceOK_cases in Hc.
    + eapply Forall_impl; [exact H1|]. intros c Hc. now apply pieceOK_cases in Hc.
    + assert (H1' : Forall (pieceOK wordWidth bkRequired) (tail calls))
        by (destruct calls; [constructor|now inversion H1]).
      revert H5 H1'. generalize (tail calls). intros l H5 H1'.
      induction H5 as [|c l Hc _ IH]; [constructor|].
      inversion H1' as [|? ? Hp Hl]; subst. constructor; [|now apply IH].
      split; [exact Hc|]. apply pieceOK_cases in Hp. now apply Hp.
Qed.

End EachWord.

(** The callback of [wrap] gives the whole line back after a required
    break and never changes the line width. *)
Lemma wrapCallback_resets (wordWidth : jsstring -> Q) (piece : jsstring)
    (w : Q) (lbk : option bool) (x x' : Wrapper) :
  (0 <= w_lineWidth x)%Q ->
  wrapCallback wordWidth piece w true lbk x = (x', true) ->
  Qeq_bool (w_spaceLeft x') (w_lineWidth x') = true /\ (0 <= w_lineWidth x')%Q.
Proof.
  intros Hline E. unfold wrapCallback in E. cbn [orb andb] in E.
  repeat match type of E with
         | context [match ?c with _ => _ end] => destruct c
         end;
    injection E as <-; cbn; (split; [apply Qeq_bool_iff; reflexivity|exact Hline]).
Qed.

(** A word of 500 characters under the callback of [wrap], on lines that
    hold ten characters. *)
Lemma forceSplit_terminates_witness :
  exists st' shouldContinue calls rest,
    forceSplit unitWidth Wrapper w_spaceLeft w_lineWidth (wrapCallback unitWidth)
      1003 (replicate 500 97) (unitWidth (replicate 500 97)) false None false
      (emptyWrapper 10) []
    = Some (st', shouldContinue, false, calls)
    /\ Forall (pieceOK unitWidth false) calls
    /\ concat (map c_word calls) ++ rest = replicate 500 97
    /\ (shouldContinue = true -> rest = [])
    /\ Forall (fun c => freeLine c = true -> c_word c <> []) calls
    /\ Forall (fun c => freeLine c = false -> nothingFits unitWidth c ->
                        c_word c = []) calls
    /\ Forall (fun c => (2 <= length (c_word c))%nat ->
                        c_w c = unitWidth (c_word c)
                        /\ (c_w c <= c_spaceLeft c)%Q) calls
    /\ Forall (fun c => freeLine c = true /\ c_word c <> []) (tail calls).
Proof.
  apply (forceSplit_terminates unitWidth Wrapper w_spaceLeft w_lineWidth
           (wrapCallback unitWidth) (wrapCallback_resets unitWidth)
           false 1003 (replicate 500 97) None (emptyWrapper 10)).
  - unfold Qle. simpl. lia.
  - unfold Qle. simpl. lia.
  - rewrite length_replicate. lia.
Defined.

(** The same word through [wrap]: fifty calls of ten characters each, the
    flag set on all but the last, and fifty lines of ten characters. *)
Lemma wrap_500_characters :
  exists x calls,
    wrap unitWidth 1003 (replicate 500 97)
      [{| position := 500; required := false |}] (emptyWrapper 10)
    = Some (x, calls)
    /\ map (fun c => (length (c_word c), c_required c)) calls
       = replicate 49 (10%nat, true) ++ [(10%nat, false)]
    /\ map (fun l => length l.1.1.1) (lines x) = replicate 50 10%nat.
Proof. eexists _, _. split; [vm_compute; reflexivity|]. split; reflexivity. Qed.

(** Why the space left must not be negative at the start. On a continued
    line [eachWord] compares a word with [lineWidth + continuedX], so a
    word that is not chopped can leave a negative space. With three units
    less than nothing left, the guess for a word of 25 characters is
    l = -3: [slice(0, -3)] passes all but the last three characters, a
    piece of 22 characters that is wider than the space left. *)
Lemma negative_space_passes_wide_piece :
  exists x calls c,
    forceSplit unitWidth Wrapper w_spaceLeft w_lineWidth (wrapCallback unitWidth)
      53 (replicate 25 98) 25 false (Some false) false
      (setSpaceLeft (-3) (emptyWrapper 10)) []
    = Some (x, true, false, calls)
    /\ head calls = Some c
    /\ c_word c = replicate 22 98
    /\ c_rest c = replicate 3 98
    /\ (c_spaceLeft c == -3)%Q
    /\ (c_w c == 22)%Q.
Proof.
  eexists _, _, _. split; [vm_compute; reflexivity|].
  split; [reflexivity|]. repeat split.
Qed.

(** C4, counterexample. The text of nine letters a and a space, followed
    by twenty-five letters b, on lines that hold ten characters: the first
    word fills the line, so the loop that chops the second word starts
    with no space left on a line that is not free. Its first call passes
    an empty piece, with the required flag set and the whole word left: a
    piece that consumes no character. *)
Lemma forced_piece_consumes_nothing :
  exists x calls c,
    wrap unitWidth 53 (replicate 9 97 ++ [32] ++ replicate 25 98)
      [{| position := 10; required := false |};
       {| position := 35; required := false |}] (emptyWrapper 10)
    = Some (x, calls)
    /\ calls !! 1%nat = Some c
    /\ c_word c = []
    /\ c_required c = true
    /\ c_rest c = replicate 25 98
    /\ (c_spaceLeft c == 0)%Q
    /\ (c_lineWidth c == 10)%Q.
Proof.
  eexists _, _, _. split; [vm_compute; reflexivity|].
  split; [reflexivity|]. repeat split.
Qed.

End LineWrapperFacts.

Module PDFDocumentExamples.
Import PDFDocument Scenarios JSFacts PDFDocumentFacts PDFDocumentOffsets LargeDocument.

Lemma xref_waits_for_every_reference_witness :
  wellFormed 0 [] lateFinalizations = true
  /\ exists p q,
       lateFinalizations = p ++ q
       /\ requested p = true
       /\ (forall id, 1 <= id <= allocated p -> id ∈ finalized p)
       /\ _waiting (run anyTrailer p (new "1.3")) = 0
       /\ (exists offsets,
             _offsets (run anyTrailer p (new "1.3")) = offsets
             /\ Z.of_nat (length offsets) = allocated p
             /\ pushed (run anyTrailer lateFinalizations (new "1.3"))
                = header "1.3" ++ objects p ++ xrefSection offsets
                  ++ trailerSection (anyTrailer (allocated p + 1))
                       (size (header "1.3" ++ objects p))
             /\ forall p1 id dict chunks p2,
                  p = p1 ++ Finalize id dict chunks :: p2 ->
                  offsets !! Z.to_nat (id - 1)
                  = Some (Some (size (header "1.3" ++ objects p1)))).
Proof.
  split; [reflexivity|].
  pose proof (xref_waits_for_every_reference anyTrailer "1.3" lateFinalizations
                eq_refl) as H.
  cbv zeta in H.
  replace (eof (run anyTrailer lateFinalizations (new "1.3"))) with true in H
    by (vm_compute; reflexivity).
  exact H.
Defined.

Lemma xref_entries_locate_objects_witness :
  wellFormed 0 [] lateFinalizations = true
  /\ eof (run anyTrailer lateFinalizations (new "1.3")) = true
  /\ exists p q offsets,
       lateFinalizations = p ++ q
       /\ Z.of_nat (length offsets) = allocated p
       /\ _offsets (run anyTrailer p (new "1.3")) = map Some offsets
       /\ pushed (run anyTrailer lateFinalizations (new "1.3"))
          = header "1.3" ++ objects p
            ++ (bytes "xref" ++ newline
                ++ bytes ("0 " ++ decimal (allocated p + 1)) ++ newline
                ++ bytes "0000000000 65535 f " ++ newline
                ++ concat (map (fun off => xrefEntry (Some off)) offsets))
            ++ trailerSection (anyTrailer (allocated p + 1))
                 (size (header "1.3" ++ objects p))
       /\ forall id, 1 <= id <= allocated p ->
            exists off,
              offsets !! Z.to_nat (id - 1) = Some off
              /\ 0 <= off
              /\ (exists rest,
                    drop (Z.to_nat off)
                      (pushed (run anyTrailer lateFinalizations (new "1.3")))
                    = bytes (decimal id ++ " 0 obj") ++ newline ++ rest)
              /\ (off < 10 ^ 10 ->
                    xrefEntry (Some off)
                    = bytes (pad10 off ++ " 00000 n ") ++ newline
                    /\ length (xrefEntry (Some off)) = 20%nat
                    /\ parseDecimal (pad10 off) = off).
Proof.
  assert (Heof : eof (run anyTrailer lateFinalizations (new "1.3")) = true)
    by (vm_compute; reflexivity).
  split; [reflexivity|]. split; [exact Heof|].
  exact (xref_entries_locate_objects anyTrailer "1.3" lateFinalizations
           eq_refl Heof).
Defined.

(** The run of the example, byte for byte. *)
Lemma lateFinalizations_output :
  string_of_list_byte (pushed (run anyTrailer lateFinalizations (new "1.3")))
  = string_of_list_byte
      (header "1.3"
       ++ objectBytes 2 "<<>>" [[Byte.x41]] ++ objectBytes 1 "<<>>" []
       ++ xrefSection [Some 54; Some 15]
       ++ trailerSection "<<>>" 74)
  /\ xrefEntry (Some 54) = bytes "0000000054 00000 n " ++ newline
  /\ xrefEntry (Some 15) = bytes "0000000015 00000 n " ++ newline.
Proof. repeat split; vm_compute; reflexivity. Qed.

End PDFDocumentExamples.

Module PDFObjectNumberFacts.
Import PDFObject.












(** *** Digits *)





(** *** The number a float of an integer stands for *)










(** *** [Math_round] *)





(** *** Integers times and over a million *)






(** *** [number] on integers *)





(** *** [convert] on Numbers *)

Lemma fields_roundTrip : roundTrips Scenarios.fieldsToString Scenarios.parseFields.
Proof.
  intros x. left. rewrite <- (SF2Prim_Prim2SF x) at 2.
  unfold Scenarios.fieldsToString, Scenarios.parseFields.
  destruct (Prim2SF x) as [[]|[]| |[] m e]; reflexivity.
Qed.

Lemma digits_integersPlain : integersPlain Scenarios.digitsToString.
Proof.
  intros x q z Hq E _. unfold Scenarios.digitsToString. rewrite Hq.
  rewrite (Qfloor_comp _ _ E), Qfloor_Z. reflexivity.
Qed.

Set Warnings "-inexact-float".

Example convert_number_examples :
  let convert := convert Scenarios.fieldsToString Scenarios.codeUnitCompare in
  convert (VNumber 1.23456789) = Ok (Num 1.234568)
  /\ convert (VNumber 0.0000005) = Ok (Num 0.000001)
  /\ convert (VNumber (-0.0000005)) = Ok (Num (-0))
  /\ convert (VNumber 2.5) = Ok (Num 2.5)
  /\ convert (VNumber 612) = Ok (Num 612)
  /\ convert (VNumber (-792)) = Ok (Num (-792))
  /\ Scenarios.parseFields (Scenarios.fieldsToString 1.234568) = 1.234568%float
  /\ show Scenarios.digitsToString (Num 612) = lit "612"
  /\ show Scenarios.digitsToString (Num (-792)) = lit "-792"
  /\ convert (VNumber 1e21) = Throw "unsupported number"
  /\ convert (VNumber nan) = Throw "unsupported number"
  /\ convert (VNumber neg_infinity) = Throw "unsupported number".
Proof. repeat split; vm_compute; reflexivity. Qed.

Set Warnings "inexact-float".


End PDFObjectNumberFacts.

Module PDFObjectConvertFacts.
Import PDFObject Scenarios JSFacts PDFObjectFacts PDFDocumentFacts.
Close Scope float_scope.

(** *** Strings above ASCII *)

Lemma length_utf16le (s : jsstring) :
  length (utf16le s) = (2 * length s)%nat.
Proof. unfold utf16le. induction s as [|u s IH]; simpl; lia. Qed.

Lemma swapBytes_utf16le (s : jsstring) :
  swapBytes (utf16le s) = Ok (swapPairs (utf16le s)).
Proof.
  unfold swapBytes. rewrite length_utf16le.
  replace (Z.odd (Z.of_nat (2 * length s))) with false; [reflexivity|].
  symmetry. rewrite Nat2Z.inj_mul, Z.odd_mul. reflexivity.
Qed.

Lemma utf16beUnits_swapPairs (s : jsstring) :
  Forall (fun u => 0 <= u <= 0xFFFF) s ->
  utf16beUnits (swapPairs (utf16le s)) = Some s.
Proof.
  induction 1 as [|u s Hu _ IH]; [reflexivity|].
  cbn [utf16le flat_map app swapPairs utf16beUnits].
  change (flat_map _ s) with (utf16le s). rewrite IH. cbn [option_map].
  f_equal. f_equal.
  change (Z.land (u ≫ 8) 255) with (Z.land (Z.shiftr u 8) (Z.ones 8)).
  change (Z.land u 255) with (Z.land u (Z.ones 8)).
  rewrite !Z.land_ones by lia. rewrite Z.shiftr_div_pow2 by lia.
  change (2 ^ 8) with 256.
  rewrite (Z.mod_small (u / 256)) by (split; [apply Z.div_pos; lia | apply Z.div_lt_upper_bound; lia]).
  pose proof (Z.div_mod u 256 ltac:(lia)). lia.
Qed.

(** X1. A string with a code unit above 0x7F never makes [convert] throw:
    it is converted to a parenthesised literal whose body starts with the
    bytes FE FF; undoing the escape sequences of the body and reading the
    bytes as big-endian UTF-16 gives the byte order mark followed by the
    string. *)
Theorem convert_String_unicode_roundtrip (s : jsstring) :
  AFMFont.validUnits s ->
  isUnicode s = true ->
  exists body,
    convert_String s = Ok (lit "(" ++ body ++ lit ")")
    /\ (exists rest, body = 0xFE :: 0xFF :: rest)
    /\ utf16beUnits (unescape body) = Some (0xFEFF :: s).
Proof.
  intros Hv Hu. exists (escape (swapPairs (utf16le (0xfeff :: s)))).
  split; [|split].
  - unfold convert_String. rewrite Hu, swapBytes_utf16le. reflexivity.
  - eexists. reflexivity.
  - rewrite escape_refines, unescape_spec_escape.
    apply utf16beUnits_swapPairs. constructor; [lia|exact Hv].
Qed.

Lemma convert_String_unicode_roundtrip_witness :
  exists body,
    convert_String [0x4F60; 0x597D; 40] = Ok (lit "(" ++ body ++ lit ")")
    /\ (exists rest, body = 0xFE :: 0xFF :: rest)
    /\ utf16beUnits (unescape body) = Some [0xFEFF; 0x4F60; 0x597D; 40].
Proof.
  apply (convert_String_unicode_roundtrip [0x4F60; 0x597D; 40]).
  - repeat constructor; lia.
  - reflexivity.
Defined.

Lemma convert_String_returns (s : jsstring) : exists r, convert_String s = Ok r.
Proof.
  unfold convert_String. destruct (isUnicode s).
  - rewrite swapBytes_utf16le. eexists. reflexivity.
  - eexists. reflexivity.
Qed.

(** *** Buffers *)

Lemma hexValue_digit (d : Z) : 0 <= d < 16 -> hexValue (digit d) = Some d.
Proof.
  intros Hd.
  assert (Hc : d = 0 \/ d = 1 \/ d = 2 \/ d = 3 \/ d = 4 \/ d = 5 \/ d = 6
    \/ d = 7 \/ d = 8 \/ d = 9 \/ d = 10 \/ d = 11 \/ d = 12 \/ d = 13
    \/ d = 14 \/ d = 15) by lia.
  repeat (destruct Hc as [->|Hc]; [reflexivity|]). subst d. reflexivity.
Qed.

Lemma unhex_hexByte (b : byte) (rest : list ascii) (bs : list byte) :
  unhex rest = Some bs -> unhex (hexByte b ++ rest) = Some (b :: bs).
Proof.
  intros Hr. unfold hexByte. cbn [app unhex].
  pose proof (Byte.to_N_bounded b) as Hb.
  assert (Hn : 0 <= Z.of_N (Byte.to_N b) < 256) by lia.
  set (n := Z.of_N (Byte.to_N b)) in *.
  rewrite !hexValue_digit, Hr.
  - replace (16 * (n / 16) + n mod 16) with n
      by (pose proof (Z.div_mod n 16 ltac:(lia)); lia).
    unfold n. rewrite N2Z.id, Byte.of_to_N. reflexivity.
  - apply Z.mod_pos_bound. lia.
  - split; [apply Z.div_pos; lia | apply Z.div_lt_upper_bound; lia].
Qed.

(** *** Padded integers *)

Lemma pad_digits (n : Z) (k : nat) :
  (0 < k)%nat -> 0 <= n < 10 ^ Z.of_nat k ->
  exists z : nat,
    list_ascii_of_string (pad n k)
    = replicate z "0"%char ++ list_ascii_of_string (decimal n)
    /\ (z + length (list_ascii_of_string (decimal n)) = k)%nat.
Proof.
  intros Hk Hn.
  assert (Hlen : (length (list_ascii_of_string (decimal n)) <= k)%nat).
  { unfold decimal, toString. rewrite list_ascii_of_string_of_list_ascii.
    apply digits_length_le; [exact Hk|exact Hn]. }
  exists (k - length (list_ascii_of_string (decimal n)))%nat.
  split; [|lia].
  unfold pad, showInt. replace (n <? 0) with false by (symmetry; apply Z.ltb_ge; lia).
  destruct k as [|k]; [lia|]. unfold sliceLast.
  rewrite list_ascii_of_string_of_list_ascii, list_ascii_of_string_app,
    list_ascii_of_string_of_list_ascii, length_app, length_replicate.
  replace (S k + length (list_ascii_of_string (decimal n)) - S k)%nat
    with (length (list_ascii_of_string (decimal n))) by lia.
  rewrite drop_app_le by (rewrite length_replicate; lia).
  now rewrite drop_replicate.
Qed.

Lemma pad_small (n : Z) (k : nat) :
  (0 < k)%nat -> 0 <= n < 10 ^ Z.of_nat k ->
  String.length (pad n k) = k /\ PDFDocument.parseDecimal (pad n k) = n.
Proof.
  intros Hk Hn. destruct (pad_digits n k Hk Hn) as (z & E & Hz). split.
  - rewrite <- length_list_ascii_of_string, E, length_app, length_replicate. exact Hz.
  - unfold PDFDocument.parseDecimal. rewrite E.
    unfold PDFDocument.readDigits at 1. rewrite fold_left_app.
    fold (PDFDocument.readDigits 0 (replicate z "0"%char)).
    rewrite readDigits_zeros. apply parseDecimal_decimal. lia.
Qed.

(** Whatever the number, a padded field has the length asked for: digits
    that do not fit are dropped from the front. *)
Lemma pad_length (n : Z) (k : nat) : (0 < k)%nat -> String.length (pad n k) = k.
Proof.
  intros Hk. unfold pad. destruct k as [|k]; [lia|]. unfold sliceLast.
  rewrite length_string_of_list_ascii, length_drop, list_ascii_of_string_app,
    list_ascii_of_string_of_list_ascii, length_app, length_replicate. lia.
Qed.

Section WithHost.

Variable numberToString : float -> jsstring.
Variable localeCompare : jsstring -> jsstring -> Z.

Local Abbreviation convert := (PDFObject.convert numberToString localeCompare) (only parsing).

(** X3. A [Buffer] is converted to its bytes in hexadecimal between angle
    brackets, two lower-case digits for each byte, and reading the digits
    back gives the bytes. *)
Theorem convert_Buffer_roundtrip (buff : list byte) :
  convert (VBuffer buff) = Ok (Text (lit "<" ++ lit (hex buff) ++ lit ">"))
  /\ String.length (hex buff) = (2 * length buff)%nat
  /\ unhex (list_ascii_of_string (hex buff)) = Some buff
  /\ Forall (fun c => hexValue c <> None
                      /\ ~ (65 <= Z.of_N (N_of_ascii c) <= 70))
       (list_ascii_of_string (hex buff)).
Proof.
  split; [reflexivity|]. unfold hex.
  rewrite length_string_of_list_ascii, list_ascii_of_string_of_list_ascii.
  split; [|split].
  - induction buff as [|b buff IH]; simpl; lia.
  - induction buff as [|b buff IH]; [reflexivity|].
    cbn [flat_map]. now apply unhex_hexByte.
  - induction buff as [|b buff IH]; [constructor|].
    cbn [flat_map]. apply Forall_app. split; [|exact IH].
    pose proof (Byte.to_N_bounded b) as Hb.
    assert (Hd : forall d, 0 <= d < 16 ->
              hexValue (digit d) <> None
              /\ ~ (65 <= Z.of_N (N_of_ascii (digit d)) <= 70)).
    { intros d Hd.
      assert (Hc : d = 0 \/ d = 1 \/ d = 2 \/ d = 3 \/ d = 4 \/ d = 5 \/ d = 6
        \/ d = 7 \/ d = 8 \/ d = 9 \/ d = 10 \/ d = 11 \/ d = 12 \/ d = 13
        \/ d = 14 \/ d = 15) by lia.
      repeat (destruct Hc as [->|Hc]; [split; [discriminate|vm_compute; intros [? ?]; congruence]|]).
      subst d. split; [discriminate|vm_compute; intros [? ?]; congruence]. }
    unfold hexByte. repeat constructor.
    + apply Hd. split; [apply Z.div_pos; lia | apply Z.div_lt_upper_bound; lia].
    + apply Hd. split; [apply Z.div_pos; lia | apply Z.div_lt_upper_bound; lia].
    + apply Hd. apply Z.mod_pos_bound. lia.
    + apply Hd. apply Z.mod_pos_bound. lia.
Qed.

(** X2. A [Date] whose year lies from 0 to 9999 is converted to the text
    (D:YYYYMMDDHHMMSSZ) of its UTC fields, nineteen characters long: four
    digits for the year and two for each other field, which read back as
    the year, the month counted from 1, the day, the hours, the minutes
    and the seconds. *)
Theorem convert_Date_fields (d : Date) :
  0 <= getUTCFullYear d <= 9999 ->
  0 <= getUTCMonth d <= 11 -> 1 <= getUTCDate d <= 31 ->
  0 <= getUTCHours d <= 23 -> 0 <= getUTCMinutes d <= 59 ->
  0 <= getUTCSeconds d <= 59 ->
  exists y mo da h mi s : string,
    convert (VDate d)
    = Ok (Text (lit ("(D:" ++ y ++ mo ++ da ++ h ++ mi ++ s ++ "Z)")))
    /\ (String.length y = 4 /\ String.length mo = 2 /\ String.length da = 2
        /\ String.length h = 2 /\ String.length mi = 2
        /\ String.length s = 2)%nat
    /\ PDFDocument.parseDecimal y = getUTCFullYear d
    /\ PDFDocument.parseDecimal mo = getUTCMonth d + 1
    /\ PDFDocument.parseDecimal da = getUTCDate d
    /\ PDFDocument.parseDecimal h = getUTCHours d
    /\ PDFDocument.parseDecimal mi = getUTCMinutes d
    /\ PDFDocument.parseDecimal s = getUTCSeconds d.
Proof.
  intros Hy Hmo Hda Hh Hmi Hs.
  exists (pad (getUTCFullYear d) 4), (pad (getUTCMonth d + 1) 2),
    (pad (getUTCDate d) 2), (pad (getUTCHours d) 2),
    (pad (getUTCMinutes d) 2), (pad (getUTCSeconds d) 2).
  split; [reflexivity|].
  destruct (pad_small (getUTCFullYear d) 4) as [L1 P1]; [lia|simpl; lia|].
  destruct (pad_small (getUTCMonth d + 1) 2) as [L2 P2]; [lia|simpl; lia|].
  destruct (pad_small (getUTCDate d) 2) as [L3 P3]; [lia|simpl; lia|].
  destruct (pad_small (getUTCHours d) 2) as [L4 P4]; [lia|simpl; lia|].
  destruct (pad_small (getUTCMinutes d) 2) as [L5 P5]; [lia|simpl; lia|].
  destruct (pad_small (getUTCSeconds d) 2) as [L6 P6]; [lia|simpl; lia|].
  repeat split; assumption.
Qed.

(** A year of five digits loses its first digit. *)
Example convert_Date_year_10000 :
  convert (VDate {| getUTCFullYear := 12024; getUTCMonth := 1;
                    getUTCDate := 29; getUTCHours := 7;
                    getUTCMinutes := 5; getUTCSeconds := 0 |})
  = Ok (Text (lit "(D:20240229070500Z)")).
Proof. reflexivity. Qed.

(** *** Which values can be converted *)

Lemma sequence_settled {A B} (f : A -> result B) (good : A -> bool) (l : list A) :
  Forall (fun a => settled (good a) (f a)) l ->
  settled (forallb good l) (sequence (map f l)).
Proof.
  induction 1 as [|a l Ha _ IH]; [now exists []|].
  cbn [map sequence forallb]. unfold settled in *.
  destruct (good a); cbn [andb].
  - destruct Ha as [b ->]. cbn [bind].
    destruct (forallb good l).
    + destruct IH as [bs ->]. now exists (b :: bs).
    + now rewrite IH.
  - now rewrite Ha.
Qed.

Lemma insertBy_Forall {A} (cmp : A -> A -> Z) (Q : A -> Prop) (x : A) (l : list A) :
  Q x -> Forall Q l -> Forall Q (insertBy cmp x l).
Proof.
  intros Hx. induction 1 as [|y l Hy Hl IH]; cbn [insertBy].
  - now constructor.
  - destruct (cmp x y <=? 0); repeat constructor; assumption.
Qed.

Lemma sortBy_Forall {A} (cmp : A -> A -> Z) (Q : A -> Prop) (l : list A) :
  Forall Q l -> Forall Q (sortBy cmp l).
Proof.
  unfold sortBy. induction 1 as [|x l Hx _ IH]; cbn [foldr]; [constructor|].
  now apply insertBy_Forall.
Qed.

Lemma insertBy_forallb {A} (cmp : A -> A -> Z) (good : A -> bool) (x : A) (l : list A) :
  forallb good (insertBy cmp x l) = good x && forallb good l.
Proof.
  induction l as [|y l IH]; cbn [insertBy forallb]; [reflexivity|].
  destruct (cmp x y <=? 0); cbn [forallb]; [reflexivity|].
  rewrite IH. destruct (good x), (good y); reflexivity.
Qed.

Lemma sortBy_forallb {A} (cmp : A -> A -> Z) (good : A -> bool) (l : list A) :
  forallb good (sortBy cmp l) = forallb good l.
Proof.
  unfold sortBy. induction l as [|x l IH]; cbn [foldr forallb]; [reflexivity|].
  now rewrite insertBy_forallb, IH.
Qed.

Lemma PDFTree_toString_settled (cmp : jsstring -> jsstring -> Z)
    (name : jsstring) (items : list (jsstring * value)) (limits : bool) :
  Forall (fun kv => settled (supported kv.2) (convert kv.2)) items ->
  settled (forallb (fun kv => supported kv.2) items)
    (PDFTree_toString numberToString cmp name
       (fun k => bind (convert_String k) (fun s => Ok (Text s)))
       limits (map (fun kv => (kv.1, convert kv.2)) items)).
Proof.
  intros Hall. unfold PDFTree_toString.
  set (sorted := PDFTree_sortedKeys cmp (map (fun kv => (kv.1, convert kv.2)) items)).
  assert (Hkey : forall k, exists r,
            bind (convert_String k) (fun s => Ok (Text s)) = Ok r).
  { intros k. destruct (convert_String_returns k) as [r ->]. now eexists. }
  assert (Hlimits : exists line,
    (if limits && (1 <? length sorted)%nat
     then match head sorted, last sorted with
          | Some first, Some lst =>
              bind (bind (convert_String first.1) (fun s => Ok (Text s))) (fun f =>
              bind (bind (convert_String lst.1) (fun s => Ok (Text s))) (fun l =>
              Ok [lit "  /Limits [" ++ show numberToString f ++ lit " "
                  ++ show numberToString l ++ lit "]"]))
          | _, _ => Ok []
          end
     else Ok []) = Ok line).
  { destruct (limits && (1 <? length sorted)%nat); [|now eexists].
    destruct (head sorted) as [first|]; [|now eexists].
    destruct (last sorted) as [lst|]; [|now eexists].
    destruct (Hkey first.1) as [f ->]. destruct (Hkey lst.1) as [l ->].
    now eexists. }
  destruct Hlimits as [line ->]. cbn [bind].
  assert (Hs : settled (forallb (fun kv => supported kv.2) items)
            (sequence
               (map (fun kv : jsstring * result rendered =>
                       bind (bind (convert_String kv.1) (fun s => Ok (Text s))) (fun k =>
                       bind kv.2 (fun v =>
                       Ok (lit "    " ++ show numberToString k ++ lit " "
                           ++ show numberToString v))))
                    sorted))).
  { set (good := fun kv : jsstring * result rendered =>
                   match kv.2 with Ok _ => true | Throw _ => false end).
    assert (Hgood : forallb good sorted
                    = forallb (fun kv => supported kv.2) items).
    { unfold sorted, PDFTree_sortedKeys. rewrite sortBy_forallb.
      clear sorted. induction Hall as [|kv l Hkv _ IH]; [reflexivity|].
      cbn [map forallb]. rewrite IH. f_equal. unfold good. cbn.
      unfold settled in Hkv. destruct (supported kv.2).
      - now destruct Hkv as [a ->].
      - now rewrite Hkv. }
    rewrite <- Hgood. apply sequence_settled.
    unfold sorted, PDFTree_sortedKeys. apply sortBy_Forall.
    apply Forall_map. eapply Forall_impl; [exact Hall|].
    intros kv Hkv. unfold good. cbn. unfold settled in *.
    destruct (Hkey kv.1) as [k ->]. cbn [bind].
    destruct (supported kv.2).
    + destruct Hkv as [a ->]. now eexists.
    + now rewrite Hkv. }
  unfold settled in *. destruct (forallb (fun kv => supported kv.2) items).
  - destruct Hs as [lines ->]. now eexists.
  - now rewrite Hs.
Qed.

Lemma convert_settled (object : value) :
  settled (supported object) (convert object).
Proof.
  induction object as [s|s|b|id gen|items limits IH|d|elements IH|entries IH|n|text]
    using value_nested_ind; cbn [supported PDFObject.convert].
  - now eexists.
  - destruct (convert_String_returns s) as [r ->]. now eexists.
  - now eexists.
  - now eexists.
  - pose proof (PDFTree_toString_settled localeCompare (lit "Names") items limits IH) as H.
    unfold settled in *. destruct (forallb (fun kv => supported kv.2) items).
    + destruct H as [a ->]. now eexists.
    + now rewrite H.
  - now eexists.
  - pose proof (sequence_settled convert supported elements IH) as H.
    unfold settled in *. destruct (forallb supported elements).
    + destruct H as [a ->]. now eexists.
    + now rewrite H.
  - assert (H : settled (forallb (fun kv => supported kv.2) entries)
              (sequence
                 (map (fun kv : jsstring * value =>
                         bind (convert kv.2) (fun c =>
                         Ok (lit "/" ++ kv.1 ++ lit " " ++ show numberToString c)))
                      entries))).
    { apply (sequence_settled _ (fun kv => supported kv.2)).
      eapply Forall_impl; [exact IH|]. intros kv Hkv. unfold settled in *.
      destruct (supported kv.2).
      - destruct Hkv as [a ->]. now eexists.
      - now rewrite Hkv. }
    unfold settled in *. destruct (forallb (fun kv => supported kv.2) entries).
    + destruct H as [a ->]. now eexists.
    + now rewrite H.
  - unfold settled, inRange, number.
    destruct ((-1e21 <? n)%float && (n <? 1e21)%float); [now eexists|reflexivity].
  - now eexists.
Qed.

(** X4. [convert] returns for every value in which each Number, at any
    depth of arrays, dictionaries and name trees, lies strictly between
    -1e21 and 1e21; for any other value it throws the error of [number].
    Strings, buffers, references and dates never make it throw. *)
Theorem convert_throws_only_on_numbers (object : value) :
  (supported object = true -> exists r, convert object = Ok r)
  /\ (supported object = false -> convert object = Throw "unsupported number").
Proof.
  pose proof (convert_settled object) as H. unfold settled in H.
  split; intros E; rewrite E in H; exact H.
Qed.

End WithHost.

Lemma convert_Date_fields_witness :
  exists y mo da h mi s : string,
    PDFObject.convert hostNumberToString codeUnitCompare (VDate {| getUTCFullYear := 2024; getUTCMonth := 1;
                      getUTCDate := 29; getUTCHours := 7;
                      getUTCMinutes := 5; getUTCSeconds := 0 |})
    = Ok (Text (lit ("(D:" ++ y ++ mo ++ da ++ h ++ mi ++ s ++ "Z)")))
    /\ (String.length y = 4 /\ String.length mo = 2 /\ String.length da = 2
        /\ String.length h = 2 /\ String.length mi = 2
        /\ String.length s = 2)%nat
    /\ PDFDocument.parseDecimal y = 2024
    /\ PDFDocument.parseDecimal mo = 1 + 1
    /\ PDFDocument.parseDecimal da = 29
    /\ PDFDocument.parseDecimal h = 7
    /\ PDFDocument.parseDecimal mi = 5
    /\ PDFDocument.parseDecimal s = 0.
Proof.
  apply (convert_Date_fields hostNumberToString codeUnitCompare
           {| getUTCFullYear := 2024; getUTCMonth := 1; getUTCDate := 29;
              getUTCHours := 7; getUTCMinutes := 5; getUTCSeconds := 0 |});
    simpl; lia.
Defined.


End PDFObjectConvertFacts.

Module StringFacts.

Lemma append_assoc (a b c : string) :
  ((a ++ b) ++ c)%string = (a ++ (b ++ c))%string.
Proof.
  induction a as [|x a IH]; [reflexivity|].
  change (String x ((a ++ b) ++ c) = String x (a ++ (b ++ c)))%string.
  now rewrite IH.
Qed.

Lemma append_empty_r (a : string) : (a ++ "")%string = a.
Proof.
  induction a as [|x a IH]; [reflexivity|].
  change (String x (a ++ "") = String x a)%string. now rewrite IH.
Qed.

Lemma concat_empty_cons (x : string) (l : list string) :
  String.concat "" (x :: l) = (x ++ String.concat "" l)%string.
Proof.
  destruct l; [|reflexivity].
  change (x = x ++ "")%string. now rewrite append_empty_r.
Qed.

Lemma concat_empty_app (l1 l2 : list string) :
  String.concat "" (l1 ++ l2)
  = (String.concat "" l1 ++ String.concat "" l2)%string.
Proof.
  induction l1 as [|x l1 IH]; [reflexivity|].
  rewrite <- app_comm_cons, !concat_empty_cons, IH. now rewrite append_assoc.
Qed.

End StringFacts.

Module HexFacts.
Import EmbeddedFont JSFacts PDFDocumentFacts PDFObjectConvertFacts.

Lemma readHex_digits (fuel : nat) :
  forall n : Z,
  (0 < fuel)%nat -> 0 <= n < 16 ^ Z.of_nat fuel ->
  readHex (string_of_list_ascii (digits fuel 16 n [])) = n.
Proof.
  unfold readHex.
  induction fuel as [|fuel IH]; intros n Hfuel Hn; [lia|].
  rewrite list_ascii_of_string_of_list_ascii in *.
  cbn [digits]. pose proof (Z.mod_pos_bound n 16 ltac:(lia)) as Hmod.
  pose proof (Z.div_mod n 16 ltac:(lia)) as Hdiv.
  destruct (Z.eqb_spec (n / 16) 0) as [H0|H0].
  - simpl fold_left. rewrite hexValue_digit by lia. lia.
  - rewrite digits_acc, fold_left_app. simpl fold_left.
    assert (Hq : 0 <= n / 16 < 16 ^ Z.of_nat fuel).
    { split; [apply Z.div_pos; lia|].
      apply Z.div_lt_upper_bound; [lia|].
      rewrite Nat2Z.inj_succ, Z.pow_succ_r in Hn by lia. lia. }
    assert (Hf : (0 < fuel)%nat).
    { destruct fuel; [|lia]. simpl in Hq. lia. }
    specialize (IH (n / 16) Hf Hq).
    rewrite list_ascii_of_string_of_list_ascii in IH.
    rewrite IH, hexValue_digit by lia. lia.
Qed.

Lemma hex_digits_length_le (fuel : nat) :
  forall (n : Z) (k : nat),
  (0 < k)%nat -> 0 <= n < 16 ^ Z.of_nat k ->
  (length (digits fuel 16 n []) <= k)%nat.
Proof.
  induction fuel as [|fuel IH]; intros n k Hk Hn; simpl; [lia|].
  destruct (Z.eqb_spec (n / 16) 0) as [H0|H0]; [simpl; lia|].
  rewrite digits_acc, length_app. simpl.
  destruct k as [|k]; [lia|].
  assert (Hq : 0 <= n / 16 < 16 ^ Z.of_nat k).
  { split; [apply Z.div_pos; lia|].
    apply Z.div_lt_upper_bound; [lia|].
    rewrite Nat2Z.inj_succ, Z.pow_succ_r in Hn by lia. lia. }
  assert (Hk' : (0 < k)%nat).
  { destruct k; [|lia]. simpl in Hq. lia. }
  specialize (IH (n / 16) k Hk' Hq). lia.
Qed.

Lemma toString_16_fuel (n : Z) :
  0 <= n -> n < 16 ^ Z.of_nat (S (Z.to_nat (Z.log2 n))).
Proof.
  intros Hn. rewrite Nat2Z.inj_succ, Z2Nat.id by apply Z.log2_nonneg.
  destruct (Z.eq_dec n 0) as [->|Hne]; [reflexivity|].
  pose proof (Z.log2_spec n ltac:(lia)) as [_ Hlt].
  eapply Z.lt_le_trans; [exact Hlt|].
  apply Z.pow_le_mono_l. pose proof (Z.log2_nonneg n). lia.
Qed.

(** A number written in hexadecimal reads back as itself. *)
Lemma readHex_toString (n : Z) : 0 <= n -> readHex (toString 16 n) = n.
Proof.
  intros Hn. unfold toString.
  apply (readHex_digits (S (Z.to_nat (Z.log2 n)))); [lia|].
  split; [assumption|]. now apply toString_16_fuel.
Qed.

Lemma readHex_zeros (k : nat) (s : list ascii) :
  fold_left (fun v c => 16 * v + match PDFObject.hexValue c with
                                 | Some d => d
                                 | None => 0
                                 end)
    (replicate k "0"%char ++ s) 0
  = fold_left (fun v c => 16 * v + match PDFObject.hexValue c with
                                   | Some d => d
                                   | None => 0
                                   end) s 0.
Proof. induction k as [|k IH]; [reflexivity|]. simpl. exact IH. Qed.

(** The last [k] characters of [k] zeros followed by a number of at most
    [k] hexadecimal digits: the number with zeros in front. *)
Lemma padded_hex (k : nat) (n : Z) :
  (0 < k)%nat -> 0 <= n < 16 ^ Z.of_nat k ->
  let s := sliceLast k (string_of_list_ascii (replicate k "0"%char)
                        ++ toString 16 n)%string in
  String.length s = k /\ readHex s = n.
Proof.
  intros Hk Hn s.
  assert (Hlen : (length (list_ascii_of_string (toString 16 n)) <= k)%nat).
  { unfold toString. rewrite list_ascii_of_string_of_list_ascii.
    apply hex_digits_length_le; [exact Hk|exact Hn]. }
  assert (E : list_ascii_of_string s
              = replicate (k - length (list_ascii_of_string (toString 16 n)))
                  "0"%char
                ++ list_ascii_of_string (toString 16 n)).
  { unfold s, sliceLast.
    rewrite list_ascii_of_string_of_list_ascii, list_ascii_of_string_app,
      list_ascii_of_string_of_list_ascii, length_app, length_replicate.
    replace (k + length (list_ascii_of_string (toString 16 n)) - k)%nat
      with (length (list_ascii_of_string (toString 16 n))) by lia.
    rewrite drop_app_le by (rewrite length_replicate; lia).
    now rewrite drop_replicate. }
  split.
  - rewrite <- length_list_ascii_of_string, E, length_app, length_replicate. lia.
  - unfold readHex. rewrite E, readHex_zeros.
    apply readHex_toString. lia.
Qed.

(** Whatever the number, the last [k] characters are [k] characters. *)
Lemma padded_hex_length (k : nat) (t : string) :
  String.length (sliceLast k (string_of_list_ascii (replicate k "0"%char) ++ t)%string)
  = k.
Proof.
  unfold sliceLast.
  rewrite length_string_of_list_ascii, length_drop, list_ascii_of_string_app,
    list_ascii_of_string_of_list_ascii, length_app, length_replicate. lia.
Qed.

Lemma toHex_one (code : Z) :
  toHex [code] = sliceLast 4 ("0000" ++ toString 16 code)%string.
Proof. reflexivity. Qed.

Lemma toHex_one_spec (code : Z) :
  0 <= code < 65536 ->
  String.length (toHex [code]) = 4%nat /\ readHex (toHex [code]) = code.
Proof. intros H. rewrite toHex_one. apply (padded_hex 4 code); [lia|exact H]. Qed.

Lemma toHex_one_length (code : Z) : String.length (toHex [code]) = 4%nat.
Proof. rewrite toHex_one. apply (padded_hex_length 4). Qed.

End HexFacts.

Module EmbeddedFontCmapFacts.
Import EmbeddedFont JSFacts PDFDocumentFacts PDFObjectConvertFacts HexFacts
  EmbeddedFontFacts StringFacts.

(** *** Tokens of an embedded font *)

Lemma hex4_eq (gid : nat) : hex4 gid = toHex [Z.of_nat gid].
Proof. reflexivity. Qed.

Section Generic.

Context {Sub : Type} `{Subset Sub}.

Lemma encodeGlyphs_tokens_from (glyphs : list Glyph) :
  forall (self : t Sub) (res : list string),
  exists gids : list nat,
    snd (fold_left encodeStep glyphs (self, res)) = res ++ map hex4 gids
    /\ length gids = length glyphs.
Proof.
  induction glyphs as [|g glyphs IH]; intros self res; cbn [fold_left].
  - exists []. now rewrite app_nil_r.
  - destruct (encodeStep_fields self res g) as (_ & _ & _ & _ & _ & Hr).
    destruct (encodeStep (self, res) g) as [self1 res1]. cbn [snd] in Hr.
    destruct (IH self1 res1) as (gids & E & Hl).
    exists (fst (includeGlyph (glyph_id g) (subset self)) :: gids).
    rewrite E, Hr, <- app_assoc. split; [reflexivity|]. simpl. now rewrite Hl.
Qed.

(** X5. An embedded font encodes each glyph as one token of exactly four
    hexadecimal digits, the compact id that [includeGlyph] answered; a
    compact id below 65536 reads back from its token. The tokens of a text
    are as many as the glyphs of its layout. *)
Theorem encodeGlyphs_tokens_four_digits (self : t Sub) (glyphs : list Glyph)
    (text : jsstring) (features : option Features) :
  (exists gids : list nat,
     snd (encodeGlyphs self glyphs) = map hex4 gids
     /\ length gids = length glyphs)
  /\ Forall (fun token => String.length token = 4%nat)
       (snd (encodeGlyphs self glyphs))
  /\ length (snd (encode self text features))
     = length (glyphsOf (layout (font self) text features false))
  /\ (forall res g,
        let gid := fst (includeGlyph (glyph_id g) (subset self)) in
        snd (encodeStep (self, res) g) = res ++ [hex4 gid]
        /\ (Z.of_nat gid < 65536 -> readHex (hex4 gid) = Z.of_nat gid)).
Proof.
  destruct (encodeGlyphs_tokens_from glyphs self []) as (gids & E & Hl).
  split; [|split; [|split]].
  - exists gids. split; [exact E|exact Hl].
  - unfold encodeGlyphs. rewrite E. cbn [app]. apply Forall_map.
    apply Forall_forall. intros gid _. cbn. rewrite hex4_eq. apply toHex_one_length.
  - unfold encode, encodeGlyphs.
    destruct (encodeGlyphs_tokens_from
                (glyphsOf (layout (font self) text features false)) self [])
      as (gids' & E' & Hl').
    rewrite E'. cbn [app]. now rewrite length_map.
  - intros res g. cbv zeta. split.
    + apply encodeStep_fields.
    + intros Hg. rewrite hex4_eq. apply toHex_one_spec. lia.
Qed.

End Generic.

(** *** Code points as UTF-16 *)

Lemma lor_low_bits (x k : Z) :
  0 <= x < 1024 -> Z.land 1023 k = 0 -> Z.lor x k = x + k.
Proof.
  intros Hx Hk. rewrite <- (Z.add_lor_land x k).
  assert (E : Z.land x k = 0).
  { replace x with (Z.land x (Z.ones 10))
      by (rewrite Z.land_ones by lia; apply Z.mod_small; simpl; lia).
    rewrite <- Z.land_assoc. change (Z.ones 10) with 1023.
    rewrite Hk. apply Z.land_0_r. }
  lia.
Qed.

Lemma encodeCodePoint_low (cp : Z) :
  0 <= cp <= 0xffff -> encodeCodePoint cp = [toHex [cp]].
Proof.
  intros H. unfold encodeCodePoint.
  now replace (0xffff <? cp) with false by (symmetry; apply Z.ltb_ge; lia).
Qed.

Lemma encodeCodePoint_high (cp : Z) :
  0xffff < cp <= 0x10FFFF ->
  encodeCodePoint cp
  = [toHex [0xD800 + (cp - 0x10000) / 1024];
     toHex [0xDC00 + (cp - 0x10000) mod 1024]].
Proof.
  intros H. unfold encodeCodePoint.
  replace (0xffff <? cp) with true by (symmetry; apply Z.ltb_lt; lia).
  set (v := cp - 0x10000).
  assert (Hv : 0 <= v < 1048576) by (unfold v; lia).
  clearbody v. unfold toUint32. change (2 ^ 32) with 4294967296.
  assert (Hsmall : v mod 4294967296 = v) by (apply Z.mod_small; lia).
  rewrite Hsmall.
  change 1023 with (Z.ones 10). rewrite !Z.land_ones by lia.
  rewrite Z.shiftr_div_pow2 by lia. change (2 ^ 10) with 1024.
  rewrite (Z.mod_small (v / 1024))
    by (split; [apply Z.div_pos; lia | apply Z.div_lt_upper_bound; lia]).
  rewrite (lor_low_bits (v / 1024) 0xd800);
    [|split; [apply Z.div_pos; lia | apply Z.div_lt_upper_bound; lia]|reflexivity].
  rewrite (Z.lor_comm 0xdc00), (lor_low_bits (v mod 1024) 0xdc00);
    [|apply Z.mod_pos_bound; lia|reflexivity].
  now rewrite (Z.add_comm (v / 1024)), (Z.add_comm (v mod 1024)).
Qed.

(** X7. In the map from glyphs to text each code point is written as
    UTF-16 in groups of four hexadecimal digits: one group for a code
    point up to 0xFFFF, a high and a low surrogate above. For code points
    that are no surrogates and not above 0x10FFFF, reading the groups as
    code units and pairing the surrogates gives the code points back. *)
Theorem encodeCodePoint_roundtrip (codePoints : list Z) :
  Forall isScalar codePoints ->
  let groups := flat_map encodeCodePoint codePoints in
  Forall (fun g => String.length g = 4%nat) groups
  /\ AFMFont.codePoints (map readHex groups) = codePoints
  /\ Forall (fun unit => 0 <= unit <= 0xFFFF) (map readHex groups).
Proof.
  intros Hs. cbv zeta.
  induction Hs as [|cp cps [Hr Hn] _ (IH1 & IH2 & IH3)]; [repeat split; constructor|].
  cbn [flat_map].
  destruct (Z_le_gt_dec cp 0xffff) as [Hlow|Hhigh].
  - rewrite encodeCodePoint_low by lia. cbn [app map].
    destruct (toHex_one_spec cp ltac:(lia)) as [Hl Hv].
    split; [constructor; assumption|]. rewrite Hv.
    split; [|constructor; [lia|assumption]].
    rewrite <- IH2 at 2.
    assert (Hhi : isHighSurrogate cp = false).
    { unfold isHighSurrogate. apply andb_false_iff.
      destruct (Z_lt_ge_dec cp 0xD800); [left; apply Z.leb_gt; lia|].
      right. apply Z.leb_gt. lia. }
    destruct (map readHex (flat_map encodeCodePoint cps)) as [|u rest] eqn:E;
      cbn [AFMFont.codePoints]; [reflexivity|].
    now rewrite Hhi.
  - rewrite encodeCodePoint_high by lia. cbn [app map].
    set (v := cp - 0x10000).
    assert (Hv : 0 <= v < 0x100000) by (unfold v; lia).
    assert (Hq : 0 <= v / 1024 < 1024)
      by (split; [apply Z.div_pos; lia | apply Z.div_lt_upper_bound; lia]).
    pose proof (Z.mod_pos_bound v 1024 ltac:(lia)) as Hm.
    destruct (toHex_one_spec (0xD800 + v / 1024) ltac:(lia)) as [Hl1 Hv1].
    destruct (toHex_one_spec (0xDC00 + v mod 1024) ltac:(lia)) as [Hl2 Hv2].
    split; [repeat constructor; assumption|].
    rewrite Hv1, Hv2.
    split; [|repeat constructor; try lia; assumption].
    cbn [AFMFont.codePoints].
    replace (isHighSurrogate (55296 + v / 1024)) with true
      by (symmetry; unfold isHighSurrogate; apply andb_true_iff;
          split; apply Z.leb_le; lia).
    replace (isLowSurrogate (56320 + v mod 1024)) with true
      by (symmetry; unfold isLowSurrogate; apply andb_true_iff;
          split; apply Z.leb_le; lia).
    cbn [andb]. rewrite IH2. f_equal.
    pose proof (Z.div_mod v 1024 ltac:(lia)). unfold v in *. lia.
Qed.

Lemma encodeCodePoint_roundtrip_witness :
  Forall (fun g => String.length g = 4%nat)
    (flat_map encodeCodePoint [0x41; 0x1F600; 0xFB01])
  /\ AFMFont.codePoints
       (map readHex (flat_map encodeCodePoint [0x41; 0x1F600; 0xFB01]))
     = [0x41; 0x1F600; 0xFB01]
  /\ Forall (fun unit => 0 <= unit <= 0xFFFF)
       (map readHex (flat_map encodeCodePoint [0x41; 0x1F600; 0xFB01])).
Proof.
  apply (encodeCodePoint_roundtrip [0x41; 0x1F600; 0xFB01]).
  repeat constructor; unfold isScalar; lia.
Defined.

(** *** The blocks of the map *)

Lemma cmapLoop_blocks (unicode : list (list Z)) :
  forall (index : Z) (entries : list string) (unicodeMap : string),
  (length entries <= 100)%nat ->
  exists (blocks : list (list string)) (entries' : list string),
    cmapLoop (map Some unicode) index entries unicodeMap
    = Ok (entries', (unicodeMap ++ String.concat "" (map bfchar blocks))%string)
    /\ concat blocks ++ entries' = entries ++ cmapEntries index unicode
    /\ Forall (fun block => length block = 100%nat) blocks
    /\ (length entries' <= 100)%nat
    /\ (entries' = [] -> entries = [] /\ unicode = []).
Proof.
  induction unicode as [|codePoints unicode IH]; intros index entries m Hlen.
  - exists [], entries. cbn. rewrite append_empty_r, app_nil_r.
    repeat split; auto.
  - cbn [map cmapLoop cmapEntries].
    destruct (100 <=? length entries)%nat eqn:E.
    + apply Nat.leb_le in E.
      destruct (IH (index + 1) [cmapEntry index codePoints]
                  (m ++ bfchar entries)%string) as (blocks & e' & Hrun & Hcat & Hfull & Hle & Hnil);
        [simpl; lia|].
      exists (entries :: blocks), e'. cbn [app]. rewrite Hrun.
      cbn [map]. rewrite concat_empty_cons, append_assoc.
      split; [reflexivity|]. split; [|split; [|split]].
      * cbn [concat]. rewrite <- app_assoc, Hcat. reflexivity.
      * constructor; [lia|exact Hfull].
      * exact Hle.
      * intros He. destruct (Hnil He) as [Habs _]. discriminate.
    + apply Nat.leb_gt in E.
      destruct (IH (index + 1) (entries ++ [cmapEntry index codePoints]) m)
        as (blocks & e' & Hrun & Hcat & Hfull & Hle & Hnil);
        [rewrite length_app; simpl; lia|].
      exists blocks, e'. rewrite Hrun.
      split; [reflexivity|]. split; [|split; [|split]].
      * rewrite Hcat, <- app_assoc. reflexivity.
      * exact Hfull.
      * exact Hle.
      * intros He. destruct (Hnil He) as [Habs _].
        destruct entries; discriminate.
Qed.

Lemma cmapLoop_hole (before : list (list Z)) (after : jsarray (list Z)) :
  forall (index : Z) (entries : list string) (unicodeMap : string),
  cmapLoop (map Some before ++ None :: after) index entries unicodeMap
  = Throw "TypeError".
Proof.
  induction before as [|codePoints before IH]; intros index entries m;
    cbn [map app cmapLoop].
  - now destruct (100 <=? length entries)%nat.
  - destruct (100 <=? length entries)%nat; apply IH.
Qed.

(** An array with a hole cannot be written. *)
Lemma toUnicodeCmap_hole (before : list (list Z)) (after : jsarray (list Z)) :
  toUnicodeCmap (map Some before ++ None :: after)
  = Throw "TypeError".
Proof. unfold toUnicodeCmap. now rewrite cmapLoop_hole. Qed.

(** X6. For an array without holes the map from glyphs to text is the
    header, blocks of entries and the footer. The blocks hold the entries
    of all glyphs, one for each glyph in the order of the compact ids; a
    block has at least one entry and at most a hundred, and every block
    but the last has a hundred. An empty array gives a header that runs
    into the footer, and an array with a hole makes the method throw a
    type error. *)
Theorem toUnicodeCmap_blocks (unicode before : list (list Z))
    (after : jsarray (list Z)) :
  ((exists (blocks : list (list string)) (lastBlock : list string),
      toUnicodeCmap (map Some unicode)
      = Ok (cmapHeader
            ++ String.concat "" (map bfchar (blocks ++ [lastBlock]))
            ++ NL ++ cmapFooter)%string
      /\ concat (blocks ++ [lastBlock]) = cmapEntries 0 unicode
      /\ length (cmapEntries 0 unicode) = length unicode
      /\ Forall (fun block => length block = 100%nat) blocks
      /\ (1 <= length lastBlock <= 100)%nat)
   \/ (unicode = []
       /\ toUnicodeCmap (map Some unicode)
          = Ok (cmapHeader ++ cmapFooter)%string))
  /\ toUnicodeCmap (map Some before ++ None :: after) = Throw "TypeError".
Proof.
  split; [|apply toUnicodeCmap_hole].
  destruct (cmapLoop_blocks unicode 0 [] cmapHeader ltac:(simpl; lia))
    as (blocks & e' & Hrun & Hcat & Hfull & Hle & Hnil).
  destruct e' as [|e e'].
  - right. destruct (Hnil eq_refl) as [_ ->]. split; reflexivity.
  - left. exists blocks, (e :: e'). unfold toUnicodeCmap. rewrite Hrun.
    cbn [bind]. split; [|split; [|split; [|split]]].
    + rewrite map_app, concat_empty_app. cbn [map].
      rewrite concat_empty_cons. cbn [String.concat].
      rewrite append_empty_r, !append_assoc. reflexivity.
    + rewrite concat_app. cbn [concat]. rewrite app_nil_r. exact Hcat.
    + clear. generalize 0. induction unicode as [|c u IH]; intros i;
        cbn [cmapEntries length]; [reflexivity|]. now rewrite IH.
    + exact Hfull.
    + simpl in *. lia.
Qed.

End EmbeddedFontCmapFacts.

Module StandardFontFacts.
Import AFMFont StandardFont AFMFontFacts Scenarios.

(** *** Advances *)

Lemma flat_map_seq_shift {A} (f : nat -> list A) (n start : nat) :
  flat_map f (seq (S start) n) = flat_map (fun i => f (S i)) (seq start n).
Proof.
  revert start. induction n as [|n IH]; intros start; [reflexivity|].
  cbn [seq flat_map]. now rewrite IH.
Qed.

Lemma advancesForGlyphs_cons (font : Metrics) (g : string) (rest : list string) :
  advancesForGlyphs font (g :: rest)
  = (widthOfGlyph font g + getKernPair font g (head rest))
    :: advancesForGlyphs font rest.
Proof.
  unfold advancesForGlyphs. cbn [length seq flat_map]. cbn [lookup list_lookup app].
  f_equal; [now destruct rest|]. rewrite flat_map_seq_shift. reflexivity.
Qed.

Lemma advancesForGlyphs_length (font : Metrics) (glyphs : list string) :
  length (advancesForGlyphs font glyphs) = length glyphs.
Proof.
  induction glyphs as [|g rest IH]; [reflexivity|].
  rewrite advancesForGlyphs_cons. simpl. now rewrite IH.
Qed.

Lemma advancesForGlyphs_lookup (font : Metrics) (glyphs : list string) :
  forall (i : nat) (g : string),
  glyphs !! i = Some g ->
  advancesForGlyphs font glyphs !! i
  = Some (widthOfGlyph font g + getKernPair font g (glyphs !! S i)).
Proof.
  induction glyphs as [|g0 rest IH]; intros i g Hg; [discriminate|].
  rewrite advancesForGlyphs_cons. destruct i as [|i].
  - injection Hg as ->. cbn. now destruct rest.
  - cbn in Hg |- *. now apply IH.
Qed.

Lemma flat_map_lookup2 {A B C} (h : A -> B -> C) (l1 : list A) :
  forall l2 : list B,
  length l1 = length l2 ->
  flat_map (fun i => match l1 !! i, l2 !! i with
                     | Some a, Some b => [h a b]
                     | _, _ => []
                     end) (seq 0 (length l1))
  = zip_with h l1 l2.
Proof.
  induction l1 as [|a l1 IH]; intros l2 Hlen; [reflexivity|].
  destruct l2 as [|b l2]; [discriminate|].
  cbn [length seq flat_map zip_with]. cbn [lookup list_lookup app].
  f_equal. rewrite flat_map_seq_shift. apply IH. simpl in Hlen. lia.
Qed.

(** X8. A standard font encodes a text into as many tokens as positions,
    one of each for every code point. The position of a glyph has no
    offset; its advance width is the width of the glyph, and its advance
    adds to it the kerning with the glyph that follows. *)
Theorem encode_positions (font : Metrics) (text : jsstring) :
  validUnits text ->
  let encoded := fst (encode font text) in
  let positions := snd (encode font text) in
  length encoded = length positions
  /\ length positions = length (codePoints text)
  /\ forall (i : nat) (p : Position),
       positions !! i = Some p ->
       exists glyph : string,
         glyphsForString text !! i = Some glyph
         /\ advanceWidth p = inject_Z (widthOfGlyph font glyph)
         /\ xAdvance p
            = inject_Z (widthOfGlyph font glyph
                        + getKernPair font glyph (glyphsForString text !! S i))
         /\ xOffset p = 0%Q /\ yOffset p = 0%Q /\ yAdvance p = 0%Q.
Proof.
  intros Hv. cbv zeta. unfold encode. cbn [fst snd].
  rewrite flat_map_lookup2 by (now rewrite advancesForGlyphs_length).
  rewrite length_zip_with, advancesForGlyphs_length, Nat.min_id.
  rewrite (encodeText_codePoints text Hv), (glyphsForString_codePoints text Hv).
  rewrite !length_map. split; [reflexivity|]. split; [reflexivity|].
  intros i p Hp. apply lookup_zip_with_Some in Hp as (glyph & advance & -> & Hg & Ha).
  exists glyph. split; [exact Hg|].
  rewrite (advancesForGlyphs_lookup font _ i glyph Hg) in Ha. injection Ha as <-.
  repeat split.
Qed.

Lemma encode_positions_witness :
  length (fst (encode helveticaAV (lit "AVA")))
  = length (snd (encode helveticaAV (lit "AVA")))
  /\ length (snd (encode helveticaAV (lit "AVA"))) = length (codePoints (lit "AVA"))
  /\ forall (i : nat) (p : Position),
       snd (encode helveticaAV (lit "AVA")) !! i = Some p ->
       exists glyph : string,
         glyphsForString (lit "AVA") !! i = Some glyph
         /\ advanceWidth p = inject_Z (widthOfGlyph helveticaAV glyph)
         /\ xAdvance p
            = inject_Z (widthOfGlyph helveticaAV glyph
                        + getKernPair helveticaAV glyph
                            (glyphsForString (lit "AVA") !! S i))
         /\ xOffset p = 0%Q /\ yOffset p = 0%Q /\ yAdvance p = 0%Q.
Proof.
  apply (encode_positions helveticaAV (lit "AVA")).
  unfold validUnits. cbn. repeat constructor; lia.
Defined.

(** *** The width of a text *)

Lemma codePoints_cons2 (u v : Z) (rest : jsstring) :
  codePoints (u :: v :: rest)
  = if isHighSurrogate u && isLowSurrogate v
    then ((u - 0xD800) * 0x400 + (v - 0xDC00) + 0x10000) :: codePoints rest
    else u :: codePoints (v :: rest).
Proof. reflexivity. Qed.

Lemma codePoints_app (a : jsstring) :
  forall b : jsstring,
  (forall u v, last a = Some u -> head b = Some v ->
               isHighSurrogate u && isLowSurrogate v = false) ->
  codePoints (a ++ b) = codePoints a ++ codePoints b.
Proof.
  remember (length a) as n eqn:Hn. revert a Hn.
  induction n as [n IH] using lt_wf_ind. intros a Hn b Hsplit.
  destruct a as [|u [|v a']].
  - reflexivity.
  - cbn [app]. destruct b as [|v b']; [reflexivity|].
    rewrite codePoints_cons2. now rewrite (Hsplit u v eq_refl eq_refl).
  - change ((u :: v :: a') ++ b) with (u :: v :: (a' ++ b)).
    rewrite !codePoints_cons2.
    destruct (isHighSurrogate u && isLowSurrogate v).
    + rewrite <- app_comm_cons. f_equal.
      apply (IH (length a')); [simpl in Hn; lia|reflexivity|].
      intros u' v' Hl Hh. apply Hsplit; [|exact Hh].
      destruct a' as [|x a'']; [discriminate|]. exact Hl.
    + rewrite <- app_comm_cons. f_equal.
      change (v :: a' ++ b) with ((v :: a') ++ b).
      apply (IH (length (v :: a'))); [simpl in *; lia|reflexivity|].
      intros u' v' Hl Hh. apply Hsplit; [|exact Hh]. exact Hl.
Qed.

Lemma sum_from (l : list Z) (z : Z) : fold_left Z.add l z = z + fold_left Z.add l 0.
Proof.
  revert z. induction l as [|x l IH]; intros z; cbn [fold_left]; [lia|].
  rewrite (IH (z + x)), (IH (0 + x)). lia.
Qed.

Lemma advances_app (font : Metrics) (ga : list string) :
  forall (gb : list string) (l r : string),
  last ga = Some l -> head gb = Some r ->
  fold_left Z.add (advancesForGlyphs font (ga ++ gb)) 0
  = fold_left Z.add (advancesForGlyphs font ga) 0
    + fold_left Z.add (advancesForGlyphs font gb) 0
    + (getKernPair font l (Some r) - getKernPair font l None).
Proof.
  induction ga as [|g ga IH]; intros gb l r Hl Hr; [discriminate|].
  rewrite <- app_comm_cons, !advancesForGlyphs_cons. cbn [fold_left].
  rewrite !(sum_from _ (0 + _)).
  destruct ga as [|g' ga'].
  - injection Hl as ->. cbn [app head]. rewrite Hr.
    change (advancesForGlyphs font []) with (@nil Z). cbn [fold_left]. lia.
  - rewrite (IH gb l r Hl Hr). cbn [app head]. lia.
Qed.

(** X9. The width of a text in a standard font is the sum of the advances
    of [encode], scaled by the size over 1000; and, with the products
    taken exactly, the width of two texts put together is the sum of their
    widths, corrected by the kerning between the last glyph of the first
    and the first glyph of the second (in place of the pair the first text
    looks up after its last glyph), as long as the cut does not fall
    inside a surrogate pair. *)
Theorem widthOfString_app (font : Metrics) (a b : jsstring) (size : Q)
    (l r : string) :
  validUnits a -> validUnits b ->
  (forall u v, last a = Some u -> head b = Some v ->
               isHighSurrogate u && isLowSurrogate v = false) ->
  last (glyphsForString a) = Some l -> head (glyphsForString b) = Some r ->
  (widthOfString font (a ++ b) size
   == widthOfString font a size + widthOfString font b size
      + inject_Z (getKernPair font l (Some r) - getKernPair font l None)
        * (size / 1000))%Q
  /\ (widthOfString font a size
      == fold_right Qplus 0 (map xAdvance (snd (encode font a)))
         * (size / 1000))%Q.
Proof.
  intros Ha Hb Hsplit Hl Hr.
  assert (Hab : validUnits (a ++ b)) by (apply Forall_app; split; assumption).
  split.
  - unfold widthOfString.
    rewrite (glyphsForString_codePoints _ Hab), (codePoints_app a b Hsplit), map_app.
    rewrite <- (glyphsForString_codePoints a Ha), <- (glyphsForString_codePoints b Hb).
    rewrite (advances_app font _ _ l r Hl Hr).
    rewrite !inject_Z_plus. ring.
  - unfold widthOfString, encode. cbn [snd].
    rewrite flat_map_lookup2 by (now rewrite advancesForGlyphs_length).
    apply Qmult_comp; [|reflexivity].
    generalize (glyphsForString a). intros glyphs.
    induction glyphs as [|g rest IH]; [reflexivity|].
    rewrite advancesForGlyphs_cons. cbn [zip_with map fold_right fold_left xAdvance].
    rewrite sum_from, inject_Z_plus, IH, Z.add_0_l. reflexivity.
Qed.

Lemma widthOfString_app_witness :
  (widthOfString helveticaAV (lit "A" ++ lit "V") 12
   == widthOfString helveticaAV (lit "A") 12
      + widthOfString helveticaAV (lit "V") 12
      + inject_Z (getKernPair helveticaAV "A" (Some "V"%string)
                  - getKernPair helveticaAV "A" None)
        * (12 / 1000))%Q
  /\ (widthOfString helveticaAV (lit "A") 12
      == fold_right Qplus 0 (map xAdvance (snd (encode helveticaAV (lit "A"))))
         * (12 / 1000))%Q.
Proof.
  apply (widthOfString_app helveticaAV (lit "A") (lit "V") 12 "A" "V").
  - unfold validUnits. cbn. repeat constructor; lia.
  - unfold validUnits. cbn. repeat constructor; lia.
  - intros u v Hu Hv. cbn in Hu, Hv. injection Hu as <-. injection Hv as <-.
    reflexivity.
  - reflexivity.
  - reflexivity.
Defined.

End StandardFontFacts.

Module TextFragmentFacts.
Import StandardFont TextFragment StringFacts.

Section Show.

Variable number : Q -> result string.
Variable encoded : list string.
Variable positions : list Position.
Variable scale : Q.
Variable y : Q.

Local Abbreviation addSegment := (TextFragment.addSegment number encoded positions) (only parsing).
Local Abbreviation flush := (TextFragment.flush number encoded positions) (only parsing).
Local Abbreviation moveTo := (TextFragment.moveTo number) (only parsing).
Local Abbreviation step := (TextFragment.step number encoded positions scale y) (only parsing).
Local Abbreviation loop := (TextFragment.loop number encoded positions scale y) (only parsing).
Local Abbreviation returns := (TextFragment.returns number) (only parsing).

Local Abbreviation Inv := (TextFragment.Inv encoded) (only parsing).
Local Abbreviation setLast cur st :=
  {| x := x st; last := cur; hadOffset := hadOffset st;
     commands := commands st; content := content st |} (only parsing).

(** An error of the first part is the error of the whole. *)
Lemma returns_bind {A B : Type} (r : result A) (k : A -> result B)
    (P : A -> Prop) (R : B -> Prop) :
  returns r P -> (forall a, P a -> returns (k a) R) -> returns (bind r k) R.
Proof. destruct r as [a|e]; cbn; intros H HK; [now apply HK|exact H]. Qed.

Lemma returns_weaken {A : Type} (r : result A) (P R : A -> Prop) :
  returns r P -> (forall a, P a -> R a) -> returns r R.
Proof. destruct r as [a|e]; cbn; intros H HR; [now apply HR|exact H]. Qed.

Lemma returns_number {B : Type} (q : Q) (k : string -> result B)
    (R : B -> Prop) :
  (forall n, returns (k n) R) -> returns (bind (number q) k) R.
Proof.
  intros HK. destruct (number q) as [n|e] eqn:E; cbn; [apply HK|].
  exists q. exact E.
Qed.

Lemma addSegment_inv (cur i : nat) (st : state) :
  Inv i st -> (i <= cur)%nat ->
  ((last st < cur)%nat -> is_Some (positions !! (cur - 1)%nat)) ->
  returns (addSegment cur st) (fun st' =>
    Inv cur st' /\ last st' = cur /\ x st' = x st
    /\ hadOffset st' = hadOffset st /\ content st' = content st).
Proof.
  intros [Hl Hw Hf] Hi Hpos. unfold TextFragment.addSegment.
  apply returns_bind with
    (P := fun st1 => Inv cur (setLast cur st1) /\ x st1 = x st
                     /\ hadOffset st1 = hadOffset st
                     /\ content st1 = content st).
  - destruct (last st <? cur)%nat eqn:E.
    + apply Nat.ltb_lt in E. destruct (Hpos E) as [p ->].
      apply returns_number. intros n. cbn.
      split; [|repeat split].
      split; cbn.
      * lia.
      * rewrite map_app, concat_empty_app, <- append_assoc, Hw. cbn [map].
        unfold TextSegment.segmentHex. rewrite concat_empty_cons.
        change (String.concat "" []) with ""%string. rewrite append_empty_r.
        cbn [fst]. rewrite <- concat_empty_app, take_take_drop. f_equal. f_equal. lia.
      * exact Hf.
    + apply Nat.ltb_ge in E. cbn.
      split; [|repeat split]. assert (last st = cur) by lia. subst cur.
      split; cbn; [lia|exact Hw|exact Hf].
  - intros st1 (I1 & X1 & O1 & C1). cbn [returns].
    split; [exact I1|]. cbn. repeat split; assumption.
Qed.

Lemma flush_inv (cur i : nat) (st : state) :
  Inv i st -> (i <= cur)%nat ->
  ((last st < cur)%nat -> is_Some (positions !! (cur - 1)%nat)) ->
  returns (flush cur st) (fun st' =>
    Inv cur st' /\ last st' = cur /\ x st' = x st
    /\ hadOffset st' = hadOffset st /\ commands st' = []).
Proof.
  intros HI Hi Hpos. unfold TextFragment.flush.
  eapply returns_bind; [exact (addSegment_inv cur i st HI Hi Hpos)|].
  intros st1 ([Hl Hw Hf] & L & X & O & C). cbn.
  destruct (commands st1) as [|c cs] eqn:E.
  - repeat split; try assumption; try reflexivity.
    rewrite E. exact Hw.
  - cbn. split; [|repeat split; assumption].
    split; cbn.
    + exact Hl.
    + rewrite flat_map_app, concat_empty_app. cbn [flat_map hexOf].
      rewrite app_nil_r. change (String.concat "" []) with ""%string.
      rewrite append_empty_r. exact Hw.
    + apply Forall_app. split; [exact Hf|]. repeat constructor. discriminate.
Qed.

Lemma Inv_addContent_Tm (i : nat) (st : state) (a b : string) :
  Inv i st -> Inv i (addContent (Tm a b) st).
Proof.
  intros [Hl Hw Hf]. split; cbn.
  - exact Hl.
  - rewrite flat_map_app, concat_empty_app. cbn [flat_map hexOf app].
    change (String.concat "" []) with ""%string. rewrite append_empty_r. exact Hw.
  - apply Forall_app. split; [exact Hf|]. repeat constructor.
Qed.

Lemma moveTo_inv (i : nat) (a b : Q) (st : state) :
  Inv i st ->
  returns (moveTo a b st) (fun st' =>
    Inv i st' /\ x st' = x st /\ last st' = last st).
Proof.
  intros HI. unfold TextFragment.moveTo.
  apply returns_number. intros a'. apply returns_number. intros b'. cbn.
  split; [now apply Inv_addContent_Tm|split; reflexivity].
Qed.

Lemma step_inv (i : nat) (pos : Position) (st : state) :
  Inv i st -> positions !! i = Some pos ->
  (forall j, (j < i)%nat -> is_Some (positions !! j)) ->
  returns (step i pos st) (fun st' =>
    Inv (i + 1) st' /\ x st' = (x st + xAdvance pos * scale)%Q).
Proof.
  intros HI Hpos Hbefore. unfold TextFragment.step.
  apply returns_bind with
    (P := fun st1 => Inv (i + 1) st1 /\ x st1 = x st).
  - destruct (truthy (xOffset pos) || truthy (yOffset pos)).
    + eapply returns_bind.
      { apply (flush_inv i i st HI); [lia|].
        intros Hlt. apply Hbefore. destruct HI. lia. }
      intros st1 (I1 & L1 & X1 & _ & _).
      eapply returns_bind; [exact (moveTo_inv i _ _ st1 I1)|].
      intros st2 (I2 & X2 & L2).
      eapply returns_bind.
      { apply (flush_inv (i + 1) i st2 I2); [lia|].
        intros _. replace (i + 1 - 1)%nat with i by lia. now rewrite Hpos. }
      intros st3 (I3 & L3 & X3 & _ & _). cbn. split.
      * destruct I3 as [A B C]. split; cbn; assumption.
      * now rewrite X3, X2, X1.
    + apply returns_bind with (P := fun st1 => Inv i st1 /\ x st1 = x st).
      * destruct (hadOffset st); [|now split].
        eapply returns_bind; [exact (moveTo_inv i _ _ st HI)|].
        intros st1 (I1 & X1 & L1). cbn. split; [|exact X1].
        destruct I1 as [A B C]. split; cbn; assumption.
      * intros st1 [I1 X1].
        destruct (truthy (xAdvance pos - advanceWidth pos)%Q).
        -- eapply returns_weaken.
           { apply (addSegment_inv (i + 1) i st1 I1); [lia|].
             intros _. replace (i + 1 - 1)%nat with i by lia. now rewrite Hpos. }
           intros st2 (I2 & L2 & X2 & _ & _).
           split; [exact I2|now rewrite X2, X1].
        -- cbn. split; [|exact X1].
           destruct I1 as [A B C]. split; cbn; [lia|assumption|assumption].
  - intros st1 [I1 X1]. cbn. split.
    + destruct I1 as [A B C]. split; cbn; assumption.
    + now rewrite X1.
Qed.

Lemma loop_inv (rest : list Position) :
  forall (before : list Position) (st : state),
  positions = before ++ rest ->
  Inv (length before) st ->
  returns (loop (length before) rest st) (fun st' =>
    Inv (length positions) st'
    /\ (x st' == x st + fold_right Qplus 0
                          (map (fun p => xAdvance p * scale) rest))%Q).
Proof.
  induction rest as [|pos rest IH]; intros before st Hp HI.
  - cbn. subst positions. rewrite app_nil_r. split; [exact HI|ring].
  - cbn [TextFragment.loop].
    eapply returns_bind.
    { apply (step_inv (length before) pos st HI).
      - subst positions. now rewrite list_lookup_middle.
      - intros j Hj. subst positions. apply lookup_lt_is_Some.
        rewrite length_app. lia. }
    intros st1 [I1 X1].
    specialize (IH (before ++ [pos]) st1).
    rewrite length_app in IH. cbn [length] in IH.
    eapply returns_weaken.
    { apply IH; [rewrite <- app_assoc; exact Hp|exact I1]. }
    intros st2 [I2 X2]. cbn. split; [exact I2|].
    rewrite X2, X1. cbn [map fold_right]. ring.
Qed.

(** X10. The loop that writes the glyphs of a line as TJ operators can
    fail in one way only, with the error that [number] throws for an
    operand. When it returns it has lost and repeated nothing: the
    hexadecimal texts of the operators, in the order they are written,
    join to the tokens of the glyphs that have a position, each exactly
    once. No operator is empty, nothing is left in the buffer, and the
    horizontal position has moved by the sum of the advances times the
    scale. *)
Theorem show_writes_every_token (x0 : Q) :
  match show number encoded positions scale y x0 with
  | Ok st =>
      String.concat "" (flat_map hexOf (content st))
      = String.concat "" (take (length positions) encoded)
      /\ Forall filled (content st)
      /\ commands st = []
      /\ (x st == x0 + fold_right Qplus 0
                         (map (fun p => xAdvance p * scale) positions))%Q
  | Throw e => exists q : Q, number q = Throw e
  end.
Proof.
  change (returns (show number encoded positions scale y x0) (fun st =>
    String.concat "" (flat_map hexOf (content st))
    = String.concat "" (take (length positions) encoded)
    /\ Forall filled (content st)
    /\ commands st = []
    /\ (x st == x0 + fold_right Qplus 0
                       (map (fun p => xAdvance p * scale) positions))%Q)).
  unfold show. eapply returns_bind.
  { apply (loop_inv positions [] _ eq_refl).
    split; cbn; [lia|reflexivity|constructor]. }
  cbn [length x]. intros st1 [I1 X1].
  eapply returns_weaken.
  { apply (flush_inv (length positions) (length positions) st1 I1); [lia|].
    intros Hlt. apply lookup_lt_is_Some. lia. }
  intros st2 ([Hl Hw Hf] & L2 & X2 & _ & C2). cbn.
  split; [|split; [|split]].
  - rewrite C2 in Hw. cbn [map] in Hw.
    change (String.concat "" []) with ""%string in Hw.
    rewrite append_empty_r, L2 in Hw. exact Hw.
  - exact Hf.
  - exact C2.
  - rewrite X2. exact X1.
Qed.

End Show.

End TextFragmentFacts.

Module PageBufferFacts.
Import PageBuffer.

Lemma Pages_new (b : bool) : Pages (new b).
Proof. split; cbn; try reflexivity; lia. Qed.

Lemma Pages_flushPages (d : t) : Pages d -> Pages (flushPages d).
Proof.
  intros [Hs Hb Hc He H1]. split; cbn.
  - lia.
  - reflexivity.
  - lia.
  - rewrite He, Hb at 1. rewrite <- seqZ_app by lia. reflexivity.
  - lia.
Qed.

Lemma Pages_push (d : t) :
  Pages d ->
  (bufferPages d = false -> _pageBuffer d = []) ->
  Pages {| _pageBuffer := _pageBuffer d ++ [Count d];
           _pageBufferStart := _pageBufferStart d;
           page := Some (Count d); bufferPages := bufferPages d;
           Count := Count d + 1; ended := ended d |}.
Proof.
  intros [Hs Hb Hc He H1] Hempty. split; cbn.
  - exact Hs.
  - rewrite length_app. cbn [length].
    replace (Z.of_nat (length (_pageBuffer d) + 1))
      with (Z.of_nat (length (_pageBuffer d)) + 1) by lia.
    rewrite seqZ_app by lia. rewrite <- Hb, Hc. reflexivity.
  - rewrite length_app. cbn [length]. lia.
  - exact He.
  - intros Hf. rewrite (Hempty Hf). cbn. lia.
Qed.

Lemma Pages_addPage (d : t) : Pages d -> Pages (addPage d).
Proof.
  intros HP. unfold addPage. destruct (bufferPages d) eqn:E; cbn [negb].
  - apply Pages_push; [exact HP|]. rewrite E. discriminate.
  - apply (Pages_push (flushPages d)); [now apply Pages_flushPages|]. reflexivity.
Qed.

Lemma switchToPage_spec (n : Z) (d : t) :
  Pages d ->
  switchToPage n d
  = if (_pageBufferStart d <=? n) && (n <? Count d)
    then Ok {| _pageBuffer := _pageBuffer d;
               _pageBufferStart := _pageBufferStart d;
               page := Some n; bufferPages := bufferPages d;
               Count := Count d; ended := ended d |}
    else Throw "switchToPage out of bounds".
Proof.
  intros [Hs Hb Hc He H1]. unfold switchToPage.
  destruct (Z.ltb_spec (n - _pageBufferStart d) 0) as [Hneg|Hpos].
  - replace (_pageBufferStart d <=? n) with false
      by (symmetry; apply Z.leb_gt; lia). reflexivity.
  - replace (_pageBufferStart d <=? n) with true
      by (symmetry; apply Z.leb_le; lia). cbn [andb].
    rewrite Hb at 1.
    destruct (Z.ltb_spec n (Count d)) as [Hin|Hout].
    + rewrite (lookup_seqZ_lt _ _ (Z.to_nat (n - _pageBufferStart d))) by lia.
      do 3 f_equal. lia.
    + rewrite lookup_seqZ_ge by lia. reflexivity.
Qed.

Lemma Pages_perform (d : t) (c : call) : Pages d -> Pages (perform d c).
Proof.
  intros HP. destruct c as [| |n]; cbn [perform].
  - now apply Pages_addPage.
  - now apply Pages_flushPages.
  - rewrite (switchToPage_spec n d HP).
    destruct ((_pageBufferStart d <=? n) && (n <? Count d)); [|exact HP].
    destruct HP. split; assumption.
Qed.

Lemma Pages_run (calls : list call) (d : t) :
  Pages d -> Pages (fold_left perform calls d).
Proof.
  revert d. induction calls as [|c calls IH]; intros d HP; [exact HP|].
  cbn [fold_left]. apply IH. now apply Pages_perform.
Qed.

Lemma bufferPages_run (calls : list call) :
  forall d : t,
  bufferPages (fold_left perform calls d) = bufferPages d.
Proof.
  induction calls as [|c calls IH]; intros d; [reflexivity|].
  cbn [fold_left]. rewrite IH. destruct c as [| |m]; cbn.
  - unfold addPage. destruct (bufferPages d) eqn:E; cbn; rewrite ?E; reflexivity.
  - reflexivity.
  - unfold switchToPage.
    destruct (if m - _pageBufferStart d <? 0 then None
              else _pageBuffer d !! Z.to_nat (m - _pageBufferStart d));
      reflexivity.
Qed.

(** X11. Whatever pages are added, flushed and switched to: the buffer
    holds the pages numbered from [start] on, one after the other up to
    the last page created; the pages before [start] have been ended, each
    once and in order, and no page of the buffer has. [switchToPage(n)]
    selects page [n] exactly when [n] lies in the buffered range, and
    throws otherwise. Without the option [bufferPages] the buffer never
    holds more than the current page. *)
Theorem buffered_pages_are_the_open_pages (bufferPages : bool)
    (calls : list call) (n : Z) :
  let d := fold_left perform calls (new bufferPages) in
  let '(start, count) := bufferedPageRange d in
  _pageBuffer d = seqZ start count
  /\ Count d = start + count
  /\ ended d = seqZ 0 start
  /\ switchToPage n d
     = (if (start <=? n) && (n <? start + count)
        then Ok {| _pageBuffer := _pageBuffer d;
                   _pageBufferStart := _pageBufferStart d;
                   page := Some n; bufferPages := PageBuffer.bufferPages d;
                   Count := Count d; ended := ended d |}
        else Throw "switchToPage out of bounds")
  /\ (bufferPages = false -> count <= 1).
Proof.
  cbv zeta. unfold bufferedPageRange.
  pose proof (Pages_run calls (new bufferPages) (Pages_new bufferPages)) as HP.
  set (d := fold_left perform calls (new bufferPages)) in *.
  pose proof (switchToPage_spec n d HP) as Hsw.
  destruct HP as [Hs Hb Hc He H1].
  split; [exact Hb|]. split; [exact Hc|]. split; [exact He|].
  split; [now rewrite <- Hc|].
  intros Hf. assert (Hbp : PageBuffer.bufferPages d = bufferPages)
    by (unfold d; now rewrite bufferPages_run).
  rewrite Hf in Hbp. specialize (H1 Hbp). lia.
Qed.

End PageBufferFacts.

Module VectorMixinFacts.
Import VectorMixin.

(** *** The stack of matrices *)

Lemma transform_stack (m11 m12 m21 m22 dx dy : Q) (d : t) :
  _ctmStack (transform m11 m12 m21 m22 dx dy d) = _ctmStack d.
Proof.
  unfold transform.
  now destruct (Qeq_bool m11 1 && Qeq_bool m12 0 && Qeq_bool m21 0
                && Qeq_bool m22 1 && Qeq_bool dx 0 && Qeq_bool dy 0).
Qed.

Lemma nested_run (calls : list call) :
  forall (depth : nat) (d : t) (base top : list matrix),
  nested depth calls = true ->
  _ctmStack d = base ++ top -> length top = depth ->
  _ctmStack (fold_left perform calls d) = base.
Proof.
  induction calls as [|c calls IH]; intros depth d base top Hn Hs Hl.
  - cbn in *. apply Nat.eqb_eq in Hn. subst depth.
    destruct top; [|discriminate]. now rewrite app_nil_r in Hs.
  - cbn [fold_left]. destruct c as [| |m11 m12 m21 m22 dx dy]; cbn [nested perform] in *.
    + apply (IH (S depth) (save d) base (top ++ [_ctm d]) Hn).
      * cbn. rewrite Hs. now rewrite app_assoc.
      * rewrite length_app. cbn. lia.
    + destruct depth as [|depth]; [discriminate|].
      induction top as [|m top' _] using rev_ind; [discriminate|].
      apply (IH depth (restore d) base top' Hn).
      * cbn. rewrite Hs, app_assoc. apply removelast_last.
      * rewrite length_app in Hl. cbn in Hl. lia.
    + apply (IH depth _ base top Hn); [|exact Hl].
      now rewrite transform_stack.
Qed.

(** X12. [restore] gives back the matrix that the matching [save] put
    away: after [save], any calls in which every [restore] answers a
    [save] made among them and none is left open, and [restore], the
    current matrix and the stack are what they were, whatever was
    transformed in between. On an empty stack [restore] sets the identity
    matrix. *)
Theorem restore_returns_saved_matrix (calls : list call) (d : t) :
  nested 0 calls = true ->
  let d' := restore (fold_left perform calls (save d)) in
  _ctm d' = _ctm d
  /\ _ctmStack d' = _ctmStack d
  /\ (_ctmStack d = [] -> _ctm (restore d) = identity).
Proof.
  intros Hn. cbv zeta.
  pose proof (nested_run calls 0 (save d) (_ctmStack d ++ [_ctm d]) [] Hn) as Hs.
  cbn in Hs. rewrite app_nil_r in Hs. specialize (Hs eq_refl eq_refl).
  unfold restore. cbn [_ctm _ctmStack]. rewrite Hs.
  rewrite last_snoc, removelast_last. split; [reflexivity|]. split; [reflexivity|].
  now intros ->.
Qed.

Lemma restore_returns_saved_matrix_witness :
  let calls := [Transform 2 0 0 2 10 20; Save; Transform 1 0 0 (-1) 0 792;
                Restore; Transform 1 0 0 1 5 5] in
  let d' := restore (fold_left perform calls (save initVector)) in
  _ctm d' = _ctm initVector
  /\ _ctmStack d' = _ctmStack initVector
  /\ (_ctmStack initVector = [] -> _ctm (restore initVector) = identity).
Proof.
  apply (restore_returns_saved_matrix
           [Transform 2 0 0 2 10 20; Save; Transform 1 0 0 (-1) 0 792;
            Restore; Transform 1 0 0 1 5 5] initVector).
  reflexivity.
Defined.

(** *** Matrices and points *)

Lemma transform_apply (m11 m12 m21 m22 dx dy : Q) (d : t) (p : Q * Q) :
  same (apply (_ctm (transform m11 m12 m21 m22 dx dy d)) p)
       (apply (_ctm d)
          (apply {| m0 := m11; m1 := m12; m2 := m21; m3 := m22;
                     m4 := dx; m5 := dy |} p)).
Proof.
  unfold transform.
  destruct (Qeq_bool m11 1 && Qeq_bool m12 0 && Qeq_bool m21 0
            && Qeq_bool m22 1 && Qeq_bool dx 0 && Qeq_bool dy 0) eqn:E.
  - repeat (apply andb_true_iff in E as [E ?]).
    repeat match goal with H : Qeq_bool _ _ = true |- _ => apply Qeq_bool_iff in H end.
    unfold same, apply. cbn [fst snd m0 m1 m2 m3 m4 m5].
    split; setoid_rewrite E; setoid_rewrite H; setoid_rewrite H0;
      setoid_rewrite H1; setoid_rewrite H2; setoid_rewrite H3; ring.
  - unfold same, apply. cbn [fst snd m0 m1 m2 m3 m4 m5 _ctm]. split; ring.
Qed.

Lemma apply_same (m : matrix) (p q : Q * Q) :
  same p q -> same (apply m p) (apply m q).
Proof.
  intros [H1 H2]. unfold same, apply. cbn [fst snd].
  split; rewrite H1, H2; reflexivity.
Qed.

Lemma same_trans (p q r : Q * Q) : same p q -> same q r -> same p r.
Proof. intros [A B] [C D]. split; [now rewrite A|now rewrite B]. Qed.

(** X13. With the arithmetic taken exactly, the tracked matrix composes as
    the file format does: after [transform] it takes a point to where the
    matrix before takes the transformed point. Hence [translate] shifts
    the points, and [scale] and [rotate] about an origin leave that origin
    in its place on the page, for whatever values of the cosine and the
    sine. *)
Theorem transform_composes (d : t) (m11 m12 m21 m22 dx dy : Q) (p : Q * Q)
    (xFactor : Q) (yFactor : option Q) (cos sin : Q) (origin : Q * Q) :
  same (apply (_ctm (transform m11 m12 m21 m22 dx dy d)) p)
       (apply (_ctm d)
          (m11 * fst p + m21 * snd p + dx, m12 * fst p + m22 * snd p + dy)%Q)
  /\ same (apply (_ctm (translate dx dy d)) p)
          (apply (_ctm d) (fst p + dx, snd p + dy)%Q)
  /\ same (apply (_ctm (scale xFactor yFactor (Some origin) d)) origin)
          (apply (_ctm d) origin)
  /\ same (apply (_ctm (rotate cos sin (Some origin) d)) origin)
          (apply (_ctm d) origin).
Proof.
  split; [|split; [|split]].
  - apply transform_apply.
  - eapply same_trans; [apply transform_apply|]. apply apply_same.
    unfold same, apply. cbn [fst snd m0 m1 m2 m3 m4 m5]. split; ring.
  - unfold scale. destruct origin as [ox oy].
    eapply same_trans; [apply transform_apply|]. apply apply_same.
    unfold same, apply. cbn [fst snd m0 m1 m2 m3 m4 m5]. split; ring.
  - unfold rotate. destruct origin as [ox oy].
    eapply same_trans; [apply transform_apply|]. apply apply_same.
    unfold same, apply. cbn [fst snd m0 m1 m2 m3 m4 m5]. split; ring.
Qed.

End VectorMixinFacts.

Module AnnotationsMixinFacts.
Import VectorMixin AnnotationsMixin VectorMixinFacts.

Lemma upright_run (calls : list call) :
  forall d : t,
  Forall upright calls ->
  (m1 (_ctm d) == 0)%Q -> Forall (fun m => m1 m == 0)%Q (_ctmStack d) ->
  (m1 (_ctm (fold_left perform calls d)) == 0)%Q.
Proof.
  induction calls as [|c calls IH]; intros d Hu H0 Hs; [exact H0|].
  inversion Hu as [|c' l Hc Hrest]; subst. cbn [fold_left].
  destruct c as [| |m11 m12 m21 m22 dx dy]; cbn [perform upright] in *.
  - apply IH; [exact Hrest|exact H0|]. cbn. apply Forall_app. split; [exact Hs|].
    now repeat constructor.
  - apply IH; [exact Hrest| |].
    + cbn. induction (_ctmStack d) as [|m st _] using rev_ind; [reflexivity|].
      rewrite last_snoc. apply Forall_app in Hs as [_ Hm].
      now inversion Hm.
    + cbn. induction (_ctmStack d) as [|m st _] using rev_ind; [constructor|].
      rewrite removelast_last. now apply Forall_app in Hs as [Hs _].
  - apply IH; [exact Hrest| |now rewrite transform_stack].
    unfold transform.
    destruct (Qeq_bool m11 1 && Qeq_bool m12 0 && Qeq_bool m21 0
              && Qeq_bool m22 1 && Qeq_bool dx 0 && Qeq_bool dy 0);
      [exact H0|].
    cbn. rewrite H0, Hc. ring.
Qed.

(** X17. On a page whose matrix neither rotates nor skews the horizontal
    axis, as after any translations, scalings, saves and restores, the
    rectangle of an annotation is made of the images of two corners of the
    given rectangle under the current matrix, the arithmetic taken
    exactly: the corner [(x, y + h)] and the corner [(x + w, y)]. *)
Theorem _convertRect_maps_corners (calls : list call) (x y w h : Q) :
  Forall upright calls ->
  let d := fold_left perform calls initVector in
  let '(x1, y1, x2, y2) := _convertRect (_ctm d) x y w h in
  same (x1, y1) (apply (_ctm d) (x, y + h)%Q)
  /\ same (x2, y2) (apply (_ctm d) (x + w, y)%Q).
Proof.
  intros Hu. cbv zeta.
  pose proof (upright_run calls initVector Hu ltac:(reflexivity) ltac:(constructor)) as H1.
  set (m := _ctm (fold_left perform calls initVector)) in *.
  unfold _convertRect, same, apply. cbn [fst snd].
  repeat split; try reflexivity; rewrite H1; ring.
Qed.

Lemma _convertRect_maps_corners_witness :
  let d := fold_left perform [Transform 1 0 0 (-1) 0 792; Save;
                              Transform 2 0 0 2 10 20] initVector in
  let '(x1, y1, x2, y2) := _convertRect (_ctm d) 100 200 50 12 in
  same (x1, y1) (apply (_ctm d) (100, 200 + 12)%Q)
  /\ same (x2, y2) (apply (_ctm d) (100 + 50, 200)%Q).
Proof.
  apply (_convertRect_maps_corners
           [Transform 1 0 0 (-1) 0 792; Save; Transform 2 0 0 2 10 20]
           100 200 50 12).
  repeat constructor.
Defined.

End AnnotationsMixinFacts.

Module PDFReferenceFacts.
Import PDFDocument PDFReference PDFDocumentFacts.

Lemma size_concat_snoc (l : list (list byte)) (c : list byte) :
  size (concat (l ++ [c])) = size (concat l) + size c.
Proof. rewrite concat_app, size_app. cbn [concat]. rewrite app_nil_r. reflexivity. Qed.

Lemma step_counts (r : t) (e : event) (n : Z) :
  Length r = Some n -> n = size (concat (chunks r)) ->
  Length (step r e) = Some (size (concat (chunks (step r e)))).
Proof.
  intros HL ->. destruct e as [c|out]; cbn [step].
  - unfold _write. rewrite HL. destruct (compress r); cbn.
    + reflexivity.
    + now rewrite size_concat_snoc.
  - unfold deflateData. rewrite HL. cbn. now rewrite size_concat_snoc.
Qed.

Lemma run_counts (events : list event) :
  forall (r : t) (n : Z),
  Length r = Some n -> n = size (concat (chunks r)) ->
  Length (fold_left step events r)
  = Some (size (concat (chunks (fold_left step events r)))).
Proof.
  induction events as [|e events IH]; intros r n HL Hn; cbn [fold_left].
  - now rewrite HL; subst n.
  - eapply IH; [eapply step_counts; eassumption|reflexivity].
Qed.

Lemma run_uncompressedLength (events : list event) :
  forall r : t,
  uncompressedLength (fold_left step events r)
  = uncompressedLength r + size (concat (map written events)).
Proof.
  induction events as [|e events IH]; intros r; cbn [fold_left map concat].
  - unfold size. cbn. lia.
  - rewrite IH, size_app. destruct e as [[b|s]|out]; cbn [step written].
    + unfold _write. destruct (compress r); cbn; lia.
    + unfold _write. destruct (compress r); cbn; lia.
    + cbn. unfold size. cbn. lia.
Qed.

Lemma run_plain_chunks (events : list event) :
  forall r : t,
  compress r = false ->
  Forall (fun e => match e with Write _ => True | DeflateData _ => False end) events ->
  chunks (fold_left step events r) = chunks r ++ map written events
  /\ compress (fold_left step events r) = false.
Proof.
  induction events as [|e events IH]; intros r Hc Hw; cbn [fold_left map].
  - now rewrite app_nil_r.
  - inversion Hw as [|e' l He Hrest]; subst. destruct e as [c|out]; [|contradiction].
    cbn [step]. destruct (IH (_write c r)) as [E1 E2].
    + unfold _write. rewrite Hc. now destruct c.
    + exact Hrest.
    + rewrite E1, E2. split; [|reflexivity].
      unfold _write. rewrite Hc. destruct c; cbn; now rewrite <- app_assoc.
Qed.

(** X16. For a reference created without a [Length], once something has
    been written [data.Length] is the number of bytes of its chunks, the
    bytes that [finalize] puts between [stream] and [endstream], with or
    without compression; [uncompressedLength] is the number of bytes
    written, a string counting with the line break added to it. Without
    compression the chunks are what was written, in order. A reference
    nothing was written to has no [Length] and no chunks. *)
Theorem Length_counts_the_stream (id : Z) (documentCompress : bool)
    (events : list event) :
  ordered events = true ->
  let r := fold_left step events (new id documentCompress) in
  Length r = match events with
             | [] => None
             | _ => Some (size (concat (chunks r)))
             end
  /\ uncompressedLength r = size (concat (map written events))
  /\ (events = [] -> chunks r = [])
  /\ (documentCompress = false ->
      Forall (fun e => match e with Write _ => True | DeflateData _ => False end)
        events ->
      chunks r = map written events).
Proof.
  intros Ho. cbv zeta. split; [|split; [|split]].
  - destruct events as [|e events]; [reflexivity|].
    destruct e as [c|out]; [|discriminate]. cbn [fold_left step].
    eapply run_counts; [|reflexivity].
    unfold _write, new. cbn. destruct documentCompress; cbn; [reflexivity|].
    unfold size. destruct c; cbn; rewrite ?app_nil_r; f_equal; lia.
  - rewrite run_uncompressedLength. cbn. lia.
  - now intros ->.
  - intros -> Hw. now destruct (run_plain_chunks events (new id false) eq_refl Hw) as [-> _].
Qed.

Lemma Length_counts_the_stream_witness :
  let events := [Write (Chars "BT"); Write (Bytes [Byte.x41; Byte.x42]);
                 Write (Chars "ET")] in
  let r := fold_left step events (new 7 false) in
  Length r = Some (size (concat (chunks r)))
  /\ uncompressedLength r = size (concat (map written events))
  /\ (events = [] -> chunks r = [])
  /\ (false = false ->
      Forall (fun e => match e with Write _ => True | DeflateData _ => False end)
        events ->
      chunks r = map written events).
Proof.
  apply (Length_counts_the_stream 7 false
           [Write (Chars "BT"); Write (Bytes [Byte.x41; Byte.x42]);
            Write (Chars "ET")]).
  reflexivity.
Defined.

(** *** The object that [finalize] writes *)

Lemma run_Length (id : Z) (documentCompress : bool) (events : list event) :
  ordered events = true -> events <> [] ->
  let r := fold_left step events (new id documentCompress) in
  Length r = Some (size (concat (chunks r))).
Proof.
  intros Ho Hne. destruct events as [|e events]; [contradiction|].
  destruct e as [c|out]; [|discriminate]. cbn [fold_left step].
  eapply run_counts; [|reflexivity].
  unfold _write, new. cbn. destruct documentCompress; cbn; [reflexivity|].
  unfold size. destruct c; cbn; rewrite ?app_nil_r; f_equal; lia.
Qed.

Lemma run_id (events : list event) :
  forall r : t, id (fold_left step events r) = id r.
Proof.
  induction events as [|e events IH]; intros r; cbn [fold_left]; [reflexivity|].
  rewrite IH. destruct e as [c|out]; cbn; [|reflexivity].
  unfold _write. now destruct (compress r).
Qed.

Lemma run_chunks_nil (events : list event) (r : t) :
  events = [] -> chunks (fold_left step events r) = chunks r.
Proof. now intros ->. Qed.

Lemma _refEnd_pushed (convertTrailer : Z -> string) (i offset : Z)
    (d : PDFDocument.t) :
  eof d = false ->
  exists closing : list byte,
    pushed (_refEnd convertTrailer i offset d) = pushed d ++ closing.
Proof.
  intros Heof. unfold _refEnd. cbv zeta.
  set (d2 := {| _offsets := <[Z.to_nat (i - 1) := Some offset]> (_offsets d);
                _waiting := _waiting d - 1; _ended := _ended d;
                _offset := _offset d; pushed := pushed d; eof := eof d |}).
  assert (D : eof d2 = false /\ pushed d2 = pushed d) by (subst d2; simpl; now split).
  clearbody d2. destruct D as [D1 D2].
  destruct ((_waiting d2 =? 0) && _ended d2).
  - rewrite _finalize_eq. unfold pushNull. cbn [pushed].
    destruct (_writeBuffer_fields
                (closing convertTrailer (_offsets d2) (_offset d2)) d2)
      as (_ & _ & _ & _ & _ & Hp).
    rewrite Hp, D1, D2. eexists. reflexivity.
  - exists []. now rewrite app_nil_r, D2.
Qed.

(** X18. What [finalize] writes for a reference that was written to. On a
    document whose output is still open, the output grows by the object
    of the reference: its header line, its dictionary, and, when there are
    chunks, the chunks between [stream] and [endstream]; the closing part
    of the file may follow when this was the last open reference. The
    [Length] that the dictionary is made from is the number of bytes
    between the line break after [stream] and the one before
    [endstream]. *)
Theorem finalize_writes_the_counted_stream (convertData : option Z -> string)
    (convertTrailer : Z -> string) (i : Z) (documentCompress : bool)
    (events : list event) (d : PDFDocument.t) :
  ordered events = true -> eof d = false ->
  let r := fold_left step events (new i documentCompress) in
  let body := concat (chunks r) in
  (exists closing : list byte,
     pushed (finalize convertData convertTrailer r d)
     = pushed d ++ objectBytes i (convertData (Length r)) (chunks r) ++ closing)
  /\ (chunks r <> [] ->
      Length r = Some (size body)
      /\ objectBytes i (convertData (Length r)) (chunks r)
         = bytes (decimal i ++ " 0 obj") ++ newline
           ++ bytes (convertData (Some (size body))) ++ newline
           ++ bytes "stream" ++ newline ++ body
           ++ newline ++ bytes "endstream" ++ newline
           ++ bytes "endobj" ++ newline).
Proof.
  intros Ho Heof. cbv zeta.
  set (r := fold_left step events (new i documentCompress)).
  split.
  - unfold finalize. rewrite finalize_eq.
    assert (Hid : id r = i) by (unfold r; now rewrite run_id).
    rewrite Hid.
    set (ob := objectBytes i (convertData (Length r)) (chunks r)).
    destruct (_writeBuffer_fields ob d) as (_ & _ & _ & _ & He & Hp).
    rewrite Heof in Hp, He.
    destruct (_refEnd_pushed convertTrailer i (_offset d) (_writeBuffer ob d) He)
      as [closing Hc].
    exists closing. now rewrite Hc, Hp, <- app_assoc.
  - intros Hch.
    assert (Hne : events <> []).
    { intros E. apply Hch. unfold r. now rewrite (run_chunks_nil events _ E). }
    pose proof (run_Length i documentCompress events Ho Hne) as HL.
    cbv zeta in HL. fold r in HL. split; [exact HL|].
    unfold objectBytes. rewrite HL.
    destruct (chunks r) as [|c cs] eqn:E; [contradiction|].
    rewrite <- !app_assoc. reflexivity.
Qed.

Lemma finalize_writes_the_counted_stream_witness :
  (exists closing : list byte,
     pushed (finalize (fun _ => "<<>>"%string) Scenarios.anyTrailer
               (fold_left step [Write (Chars "BT"); Write (Chars "ET")]
                  (new 1 false))
               (snd (ref (PDFDocument.new "1.3"))))
     = pushed (snd (ref (PDFDocument.new "1.3")))
       ++ objectBytes 1 "<<>>"
            (chunks (fold_left step [Write (Chars "BT"); Write (Chars "ET")]
                       (new 1 false)))
       ++ closing)
  /\ (chunks (fold_left step [Write (Chars "BT"); Write (Chars "ET")]
                (new 1 false)) <> [] ->
      Length (fold_left step [Write (Chars "BT"); Write (Chars "ET")]
                (new 1 false))
      = Some (size (concat (chunks (fold_left step
                                      [Write (Chars "BT"); Write (Chars "ET")]
                                      (new 1 false)))))
      /\ objectBytes 1 "<<>>"
           (chunks (fold_left step [Write (Chars "BT"); Write (Chars "ET")]
                      (new 1 false)))
         = bytes (decimal 1 ++ " 0 obj") ++ newline
           ++ bytes "<<>>" ++ newline
           ++ bytes "stream" ++ newline
           ++ concat (chunks (fold_left step
                                [Write (Chars "BT"); Write (Chars "ET")]
                                (new 1 false)))
           ++ newline ++ bytes "endstream" ++ newline
           ++ bytes "endobj" ++ newline).
Proof.
  apply (finalize_writes_the_counted_stream (fun _ => "<<>>"%string)
           Scenarios.anyTrailer 1 false
           [Write (Chars "BT"); Write (Chars "ET")]
           (snd (ref (PDFDocument.new "1.3")))).
  - reflexivity.
  - reflexivity.
Defined.

End PDFReferenceFacts.

Module EmbeddedFontLayoutFacts.
Import EmbeddedFont.

Lemma pieces_concat (text : jsstring) :
  forall cur : jsstring, concat (pieces text cur) = cur ++ text.
Proof.
  induction text as [|c rest IH]; intros cur; cbn [pieces].
  - destruct cur; [reflexivity|]. cbn. now rewrite !app_nil_r.
  - destruct (isDelimiter (Some c)).
    + cbn [concat]. rewrite IH, <- app_assoc. reflexivity.
    + rewrite IH, <- app_assoc. reflexivity.
Qed.

Lemma Forall_removelast {A} (P : A -> Prop) (l : list A) :
  Forall P l -> Forall P (removelast l).
Proof.
  induction 1 as [|x l Hx Hl IH]; [constructor|].
  cbn [removelast]. destruct l; [constructor|]. now constructor.
Qed.

Lemma pieces_wellCut (text : jsstring) :
  forall cur : jsstring,
  Forall (fun c => isDelimiter (Some c) = false) cur ->
  Forall wellCut (pieces text cur).
Proof.
  induction text as [|c rest IH]; intros cur Hcur; cbn [pieces].
  - destruct cur as [|x cur']; [constructor|].
    constructor; [|constructor]. split; [discriminate|].
    now apply Forall_removelast.
  - destruct (isDelimiter (Some c)) eqn:E.
    + constructor; [|apply IH; constructor].
      split; [now destruct cur|]. now rewrite removelast_last.
    + apply IH. apply Forall_app. split; [exact Hcur|]. repeat constructor. exact E.
Qed.

Section WithFont.

Variable f : Font.

Lemma layoutLoop_pieces (onlyWidth : bool) (fuel : nat) (text : jsstring) :
  forall (last index : nat) (glyphs : list Glyph) (advanceWidth : Q),
  (last <= index <= length text)%nat ->
  (S (length text) - index < fuel)%nat ->
  let rest := pieces (drop index text) (take (index - last) (drop last text)) in
  fst (layoutLoop f fuel text onlyWidth last index glyphs advanceWidth)
  = (if onlyWidth then glyphs
     else glyphs ++ flat_map (fun piece => run_glyphs (fontLayout f piece None))
                      rest)
  /\ (snd (layoutLoop f fuel text onlyWidth last index glyphs advanceWidth)
      == advanceWidth
         + fold_right Qplus 0
             (map (fun piece => run_advanceWidth (fontLayout f piece None))
                rest))%Q.
Proof.
  induction fuel as [|fuel IH]; intros last index glyphs aw Hi Hfuel; [lia|].
  cbv zeta. cbn [layoutLoop].
  replace (index <=? length text)%nat with true by (symmetry; apply Nat.leb_le; lia).
  destruct (Nat.eqb_spec index (length text)) as [Hend|Hin].
  - (* at the end of the text *)
    rewrite (proj2 (lookup_ge_None text index)) by lia.
    cbn [isDelimiter orb andb]. rewrite orb_false_r.
    rewrite (drop_ge text index) by lia. cbn [pieces].
    destruct (Nat.ltb_spec last index) as [Hlt|Hge].
    + destruct fuel as [|fuel']; [lia|]. cbn [layoutLoop].
      replace (S index <=? length text)%nat with false
        by (symmetry; apply Nat.leb_gt; lia).
      rewrite (take_ge (drop last text)) by (rewrite length_drop; lia).
      rewrite (take_ge (drop last text)) by (rewrite length_drop; lia).
      destruct (drop last text) as [|x rest] eqn:E.
      * apply (f_equal length) in E. rewrite length_drop in E. simpl in E. lia.
      * cbn [fst snd flat_map map fold_right]. unfold layoutCached, layoutRun.
        split; [destruct onlyWidth; now rewrite ?app_nil_r|cbn [fst snd map fold_right]; ring].
    + assert (last = index) by lia. subst last.
      rewrite Nat.sub_diag, take_0. cbn [pieces flat_map map fold_right].
      destruct fuel as [|fuel']; cbn [layoutLoop fst snd].
      * split; [destruct onlyWidth; now rewrite ?app_nil_r|cbn [fst snd map fold_right]; ring].
      * replace (S index <=? length text)%nat with false
          by (symmetry; apply Nat.leb_gt; lia).
        cbn [fst snd]. split; [destruct onlyWidth; now rewrite ?app_nil_r|cbn [fst snd map fold_right]; ring].
  - cbn [andb orb].
    destruct (lookup_lt_is_Some_2 text index ltac:(lia)) as [c Hc].
    rewrite Hc. rewrite (drop_S text c index Hc). cbn [pieces].
    assert (Hcur : take (S index - last) (drop last text)
                   = take (index - last) (drop last text) ++ [c]).
    { replace (S index - last)%nat with (S (index - last)) by lia.
      rewrite (take_S_r _ _ c); [reflexivity|].
      rewrite lookup_drop. replace (last + (index - last))%nat with index by lia.
      exact Hc. }
    destruct (isDelimiter (Some c)).
    + destruct (IH (S index) (S index)
                  (if onlyWidth then glyphs
                   else glyphs ++ run_glyphs
                          (layoutCached f (take (S index - last) (drop last text))))
                  (aw + run_advanceWidth
                          (layoutCached f (take (S index - last) (drop last text))))%Q)
        as [I1 I2]; [lia|lia|].
      cbv zeta in I1, I2. rewrite Nat.sub_diag, take_0 in I1, I2.
      rewrite I1, I2, Hcur. unfold layoutCached, layoutRun.
      cbn [flat_map map fold_right].
      split; [destruct onlyWidth; now rewrite <- ?app_assoc|cbn [fst snd map fold_right]; ring].
    + destruct (IH last (S index) glyphs aw) as [I1 I2]; [lia|lia|].
      cbv zeta in I1, I2. rewrite I1, I2, Hcur. split; reflexivity.
Qed.

(** X15. Without user features [layout] hands the text to the font
    program piece by piece, cutting after every space and every tab: the
    glyphs are those of the pieces, in order ([null] when only the width
    is asked for), and the advance width is the sum of theirs, taken
    exactly; the pieces put together are the text, none is empty, and a
    space or a tab is only ever the last character of a piece. With user
    features the text goes to the font program whole, in one run, and
    [onlyWidth] changes nothing. *)
Theorem layout_cuts_after_delimiters (text : jsstring) (onlyWidth : bool)
    (features : Features) :
  (l_glyphs (layout f text None onlyWidth)
   = (if onlyWidth then None
      else Some (flat_map (fun piece => run_glyphs (fontLayout f piece None))
                   (pieces text [])))
   /\ (l_advanceWidth (layout f text None onlyWidth)
       == fold_right Qplus 0
            (map (fun piece => run_advanceWidth (fontLayout f piece None))
               (pieces text [])))%Q
   /\ concat (pieces text []) = text
   /\ Forall wellCut (pieces text []))
  /\ layout f text (Some features) onlyWidth
     = {| l_glyphs := Some (run_glyphs (fontLayout f text (Some features)));
          l_advanceWidth := run_advanceWidth (fontLayout f text (Some features)) |}.
Proof.
  split; [|reflexivity].
  destruct (layoutLoop_pieces onlyWidth (2 + length text) text 0 0 [] 0)
    as [H1 H2]; [simpl; lia|simpl; lia|].
  cbv zeta in H1, H2. rewrite Nat.sub_diag, take_0, drop_0 in H1, H2.
  unfold layout.
  destruct (layoutLoop f (2 + length text) text onlyWidth 0 0 [] 0)
    as [glyphs aw] eqn:E.
  cbn [fst snd l_glyphs l_advanceWidth] in *.
  split; [|split; [|split]].
  - destruct onlyWidth; [reflexivity|]. now rewrite H1.
  - rewrite H2. ring.
  - apply pieces_concat.
  - apply pieces_wellCut. constructor.
Qed.

End WithFont.

End EmbeddedFontLayoutFacts.

Module WrapFacts.
Import LineWrapper LineWrapperFacts.

Section Wrap.

Variable wordWidth : jsstring -> Q.
Hypothesis wordWidth_nonneg : forall s, (0 <= wordWidth s)%Q.
Hypothesis wordWidth_empty : (wordWidth [] <= 0)%Q.

Lemma last_not_soft_hyphen (word : jsstring) :
  Forall (fun c => c <> SOFT_HYPHEN) word ->
  bool_decide (last word = Some SOFT_HYPHEN) = false.
Proof.
  intros H. apply bool_decide_eq_false_2. intros E.
  apply last_Some_elem_of in E.
  eapply Forall_forall in H; [|exact E]. now apply H.
Qed.

Lemma shown_emitLine (b : bool) (x : Wrapper) :
  concat (map lineText (lines (emitLine b x)))
  = concat (map lineText (lines x)) ++ buffer x.
Proof.
  unfold emitLine. cbn [lines]. rewrite map_app, concat_app. cbn.
  now rewrite app_nil_r.
Qed.

Lemma wrapCallback_keeps (LW : Q) (word : jsstring) (w : Q) (req : bool)
    (lastReq : option bool) (x : Wrapper) :
  Kept LW x -> Forall (fun c => c <> SOFT_HYPHEN) word ->
  (0 <= w)%Q -> (w <= LW)%Q ->
  exists x',
    wrapCallback wordWidth word w req lastReq x = (x', true)
    /\ Kept LW x' /\ shown x' = shown x ++ word
    /\ (req = true -> w_spaceLeft x' = w_lineWidth x').
Proof.
  intros [[Hs0 Hs1] Hl Hc Hb [Hwc0 Hwc1]] Hword Hw0 Hw1.
  assert (HLW : (0 <= LW)%Q) by lra.
  unfold wrapCallback. cbv zeta.
  set (x1 := match lastReq with
             | Some false => x
             | _ => setSpaceLeft (w_lineWidth x) x
             end).
  assert (K1 : (0 <= w_spaceLeft x1)%Q /\ (w_spaceLeft x1 <= LW)%Q
               /\ w_lineWidth x1 = LW /\ w_continuedX x1 = 0%Q
               /\ buffer x1 = buffer x /\ wc x1 = wc x /\ lines x1 = lines x).
  { unfold x1. destruct lastReq as [[|]|]; cbn; rewrite ?Hl; repeat split; auto; lra. }
  destruct K1 as (A0 & A1 & Al & Ac & Ab & Aw & Ali).
  clearbody x1.
  unfold canFit. rewrite (last_not_soft_hyphen word Hword). cbn [negb].
  assert (Hbuf1 : forall b : jsstring, Forall (fun c => c <> SOFT_HYPHEN) b ->
            bool_decide (last b = Some SOFT_HYPHEN) = false)
    by apply last_not_soft_hyphen.
  destruct (leb w (w_spaceLeft x1)) eqn:Efit.
  - (* the word fits *)
    assert (Hfit : (w <= w_spaceLeft x1)%Q) by (now apply Qle_bool_iff).
    cbn [setBuffer w_spaceLeft]. rewrite Efit. cbn [negb orb].
    destruct req; cbn [orb andb].
    + replace (gtb w (w_spaceLeft x1)) with false
        by (symmetry; now apply gtb_false).
      cbn [buffer setBuffer].
      rewrite (Hbuf1 (buffer x1 ++ word))
        by (apply Forall_app; split; [now rewrite Ab|exact Hword]).
      eexists. split; [reflexivity|]. split; [|split].
      * split; cbn; rewrite ?Al; auto; try lra. split; [lia|reflexivity].
      * unfold shown. cbn [lines buffer setBuffer setSpaceLeft].
        rewrite shown_emitLine. cbn. rewrite app_nil_r, Ali, Ab, app_assoc.
        reflexivity.
      * intros _. reflexivity.
    + eexists. split; [reflexivity|]. split; [|split].
      * split; cbn; rewrite ?Al; auto.
        -- split; lra.
        -- apply Forall_app. split; [now rewrite Ab|exact Hword].
        -- split; [lia|]. intros; lia.
      * unfold shown. cbn. rewrite Ali, Ab, app_assoc. reflexivity.
      * discriminate.
  - (* the word does not fit *)
    assert (Hnofit : (w_spaceLeft x1 < w)%Q).
    { apply Qnot_le_lt. intros H. apply Qle_bool_iff in H. unfold leb in Efit. congruence. }
    rewrite Efit. cbn [negb orb]. rewrite orb_true_r.
    destruct req; cbn [andb].
    + replace (gtb w (w_spaceLeft x1)) with true
        by (symmetry; now apply gtb_true).
      cbn [buffer setBuffer]. rewrite (Hbuf1 word Hword).
      eexists. split; [reflexivity|]. split; [|split].
      * split; cbn; rewrite ?Al; auto; try lra. split; [lia|reflexivity].
      * unfold shown. cbn [lines buffer setBuffer setSpaceLeft].
        rewrite shown_emitLine. cbn [lines buffer setBuffer].
        rewrite shown_emitLine. cbn. rewrite app_nil_r, Ali, Ab. reflexivity.
      * intros _. reflexivity.
    + rewrite (Hbuf1 (buffer x1)) by (now rewrite Ab).
      eexists. split; [reflexivity|]. split; [|split].
      * split; cbn; rewrite ?Al; auto.
        -- split; lra.
        -- split; [lia|]. intros; lia.
      * unfold shown. cbn [lines buffer setBuffer setSpaceLeft].
        rewrite shown_emitLine. rewrite Ali, Ab. reflexivity.
      * discriminate.
Qed.


Local Abbreviation forceSplit :=
  (LineWrapper.forceSplit wordWidth Wrapper w_spaceLeft w_lineWidth
     (wrapCallback wordWidth)) (only parsing).
Local Abbreviation eachWordLoop :=
  (LineWrapper.eachWordLoop wordWidth Wrapper w_spaceLeft w_lineWidth
     w_continuedX (wrapCallback wordWidth)) (only parsing).

(** Chopping a word that is wider than the line: every piece goes through
    the callback, and together they add the word to the text shown. *)
Lemma forceSplit_wrap (LW : Q) (bkRequired : bool) (fuel : nat) :
  forall (word : jsstring) (w : Q) (lbk : option bool) (x : Wrapper)
         (log : list Call),
  w = wordWidth word -> Kept LW x ->
  Forall (fun c => c <> SOFT_HYPHEN) word ->
  2 * Z.of_nat (length word)
    + (if Qeq_bool (w_spaceLeft x) (w_lineWidth x) then 2 else 3)
    <= Z.of_nat fuel ->
  exists x' log',
    forceSplit fuel word w bkRequired lbk false x log
    = Some (x', true, false, log')
    /\ Kept LW x' /\ shown x' = shown x ++ word.
Proof.
  induction fuel as [|fuel IH]; intros word w lbk x log Hw HK Hword Hfuel.
  - destruct (Qeq_bool (w_spaceLeft x) (w_lineWidth x)); lia.
  - destruct word as [|c0 word0] eqn:Eword.
    { exists x, log. rewrite app_nil_r. split; [reflexivity|]. split; [exact HK|reflexivity]. }
    rewrite <- Eword in *.
    assert (Hne : word <> []) by (rewrite Eword; discriminate).
    assert (Hlen : 0 < Z.of_nat (length word)) by (rewrite Eword; simpl; lia).
    pose proof (kept_space _ _ HK) as [Hs0 Hs1].
    destruct (fit_terminates wordWidth (S fuel) word w (w_spaceLeft x) Hne Hs0)
      as (l & w' & Efit & Hl & Hfit & Hw').
    { destruct (Qeq_bool (w_spaceLeft x) (w_lineWidth x)); lia. }
    assert (Eunfold : forceSplit (S fuel) word w bkRequired lbk false x log
      = let l := if (l =? 0) && Qeq_bool (w_spaceLeft x) (w_lineWidth x)
                 then 1 else l in
        let required := bkRequired || (l <? Z.of_nat (length word)) in
        let piece := slice0 l word in
        let rest := sliceFrom l word in
        let call := {| c_word := piece; c_w := w'; c_required := required;
                       c_last := lbk; c_spaceLeft := w_spaceLeft x;
                       c_lineWidth := w_lineWidth x; c_rest := rest |} in
        let '(st', shouldContinue) :=
          wrapCallback wordWidth piece w' required lbk x in
        if shouldContinue
        then forceSplit fuel rest (wordWidth rest) bkRequired
               (Some false) false st' (log ++ [call])
        else Some (st', false, false, log ++ [call])).
    { rewrite Eword. cbn [LineWrapper.forceSplit]. rewrite <- Eword, Efit. reflexivity. }
    rewrite Eunfold. clear Eunfold. cbv zeta.
    set (l1 := if (l =? 0) && Qeq_bool (w_spaceLeft x) (w_lineWidth x) then 1 else l).
    assert (Hl1 : 0 <= l1 <= Z.of_nat (length word)).
    { subst l1. destruct ((l =? 0) && Qeq_bool (w_spaceLeft x) (w_lineWidth x)); lia. }
    rewrite (slice0_nonneg l1 word) by lia.
    rewrite (sliceFrom_nonneg l1 word) by lia.
    set (piece := take (Z.to_nat l1) word).
    set (rest := drop (Z.to_nat l1) word).
    set (required := bkRequired || (l1 <? Z.of_nat (length word))).
    assert (Hpart : piece ++ rest = word) by apply take_drop.
    assert (Hrestlen : Z.of_nat (length rest) = Z.of_nat (length word) - l1).
    { subst rest. rewrite length_drop. lia. }
    assert (Hw0 : (0 <= w')%Q).
    { destruct Hw' as [[_ Hx]|Hx]; rewrite Hx; [rewrite Hw|]; apply wordWidth_nonneg. }
    assert (Hw1 : (w' <= LW)%Q).
    { destruct Hfit as [Hfit|Hz]; [lra|].
      destruct Hw' as [[Hll _]|Hx]; [lia|].
      rewrite Hx, Hz. rewrite slice0_nonneg by lia.
      change (take (Z.to_nat 0) word) with (@nil Z).
      pose proof wordWidth_empty. lra. }
    assert (Hpiece : Forall (fun c => c <> SOFT_HYPHEN) piece)
      by (now apply Forall_take).
    assert (Hrest : Forall (fun c => c <> SOFT_HYPHEN) rest)
      by (now apply Forall_drop).
    destruct (wrapCallback_keeps LW piece w' required lbk x HK Hpiece Hw0 Hw1)
      as (x' & Ecb & HK' & Hshown & Hreset).
    rewrite Ecb.
    destruct (decide (rest = [])) as [Hnil|Hcons].
    + rewrite Hnil, forceSplit_empty.
      eexists _, _. split; [reflexivity|]. split; [exact HK'|].
      rewrite Hshown, <- Hpart, Hnil, app_nil_r. reflexivity.
    + assert (Hlt : l1 < Z.of_nat (length word)).
      { destruct (Z.lt_ge_cases l1 (Z.of_nat (length word))) as [H|H]; [exact H|].
        exfalso. apply Hcons, nil_length_inv. lia. }
      assert (Hreq : required = true).
      { subst required. apply orb_true_iff. right. now apply Z.ltb_lt. }
      specialize (Hreset Hreq).
      destruct (IH rest (wordWidth rest) (Some false) x'
                  (log ++ [{| c_word := piece; c_w := w'; c_required := required;
                              c_last := lbk; c_spaceLeft := w_spaceLeft x;
                              c_lineWidth := w_lineWidth x; c_rest := rest |}])
                  eq_refl HK' Hrest)
        as (x'' & log'' & E & HK'' & Hshown'').
      { rewrite Hreset.
        replace (Qeq_bool (w_lineWidth x') (w_lineWidth x')) with true
          by (symmetry; apply Qeq_bool_iff; reflexivity).
        rewrite Hrestlen.
        destruct (Z.eq_dec l1 0) as [Hz|Hnz].
        - assert (Hnf : Qeq_bool (w_spaceLeft x) (w_lineWidth x) = false).
          { subst l1. destruct (Qeq_bool (w_spaceLeft x) (w_lineWidth x)); [|reflexivity].
            destruct (Z.eqb_spec l 0); simpl in Hz; lia. }
          rewrite Hnf in Hfuel. lia.
        - destruct (Qeq_bool (w_spaceLeft x) (w_lineWidth x)); lia. }
      exists x'', log''. split; [exact E|]. split; [exact HK''|].
      rewrite Hshown'', Hshown, <- app_assoc, Hpart. reflexivity.
Qed.

Lemma take_add_app {A : Type} (n m : nat) (l : list A) :
  take (n + m) l = take n l ++ take m (drop n l).
Proof.
  revert l. induction n as [|n IH]; intros [|a l]; cbn;
    rewrite ?take_nil; try reflexivity.
  now rewrite IH.
Qed.

Lemma segment_app (text : jsstring) (s p e : nat) :
  (s <= p)%nat -> (p <= e)%nat ->
  take (p - s) (drop s text) ++ take (e - p) (drop p text)
  = take (e - s) (drop s text).
Proof.
  intros H1 H2.
  replace (e - s)%nat with ((p - s) + (e - p))%nat by lia.
  rewrite take_add_app, drop_drop.
  replace (s + (p - s))%nat with p by lia. reflexivity.
Qed.

Lemma covered_cons (start : nat) (bk : Break) (rest : list Break) :
  covered start (bk :: rest) = covered (position bk) rest.
Proof.
  unfold covered. destruct rest as [|b rest]; [reflexivity|].
  rewrite last_cons_cons.
  destruct (last (b :: rest)) eqn:E; [reflexivity|].
  apply last_None in E. discriminate.
Qed.

Lemma ascending_covered (start : nat) (breaks : list Break) :
  ascending start breaks -> (start <= covered start breaks)%nat.
Proof.
  revert start. induction breaks as [|bk rest IH]; intros start H.
  - cbn. lia.
  - destruct H as [H1 H2]. rewrite covered_cons. specialize (IH _ H2). lia.
Qed.

(** The words between the breaks, one after the other: the text shown
    grows by the text from the last break to the final one. *)
Lemma eachWordLoop_wrap (LW : Q) (fuel : nat) (text : jsstring) :
  Forall (fun c => c <> SOFT_HYPHEN) text ->
  2 * Z.of_nat (length text) + 3 <= Z.of_nat fuel ->
  forall (breaks : list Break) (last : option Break) (x : Wrapper)
         (log : list Call),
  let start := match last with Some b => position b | None => O end in
  ascending start breaks -> Kept LW x ->
  exists x' log',
    eachWordLoop fuel text breaks last false x log = Some (x', log')
    /\ Kept LW x'
    /\ shown x'
       = shown x ++ take (covered start breaks - start) (drop start text).
Proof.
  intros Htext Hfuel breaks.
  induction breaks as [|bk rest IH]; intros last x log start Hasc HK.
  - exists x, log. split; [reflexivity|]. split; [exact HK|].
    unfold covered. cbn. rewrite Nat.sub_diag, take_0, app_nil_r. reflexivity.
  - destruct Hasc as [Hpos Hasc].
    cbn [LineWrapper.eachWordLoop]. fold start.
    set (word := take (position bk - start) (drop start text)).
    assert (Hword : Forall (fun c => c <> SOFT_HYPHEN) word)
      by (apply Forall_take, Forall_drop, Htext).
    assert (Hwlen : (length word <= length text)%nat).
    { subst word. rewrite length_take, length_drop. lia. }
    pose proof (ascending_covered _ _ Hasc) as Hcov.
    assert (Hseg : word ++ take (covered (position bk) rest - position bk)
                             (drop (position bk) text)
                   = take (covered start (bk :: rest) - start) (drop start text)).
    { rewrite covered_cons. subst word. now apply segment_app. }
    destruct (gtb (wordWidth word) (w_lineWidth x + w_continuedX x)) eqn:Ewide.
    + destruct (forceSplit_wrap LW (required bk) fuel word (wordWidth word)
                  (option_map required last) x log eq_refl HK Hword)
        as (x1 & log1 & E & HK1 & Hshown1).
      { destruct (Qeq_bool (w_spaceLeft x) (w_lineWidth x)); lia. }
      rewrite E.
      destruct (IH (Some bk) x1 log1 Hasc HK1)
        as (x2 & log2 & E2 & HK2 & Hshown2).
      exists x2, log2. split; [exact E2|]. split; [exact HK2|].
      rewrite Hshown2, Hshown1, <- app_assoc. cbn [position]. now rewrite Hseg.
    + apply gtb_false in Ewide.
      rewrite (kept_line _ _ HK), (kept_continued _ _ HK) in Ewide.
      destruct (wrapCallback_keeps LW word (wordWidth word) (required bk)
                  (option_map required last) x HK Hword
                  (wordWidth_nonneg word))
        as (x1 & Ecb & HK1 & Hshown1 & _); [lra|].
      rewrite Ecb.
      destruct (IH (Some bk) x1
                  (log ++ [{| c_word := word; c_w := wordWidth word;
                              c_required := required bk;
                              c_last := option_map required last;
                              c_spaceLeft := w_spaceLeft x;
                              c_lineWidth := w_lineWidth x; c_rest := [] |}])
                  Hasc HK1)
        as (x2 & log2 & E2 & HK2 & Hshown2).
      exists x2, log2. split; [exact E2|]. split; [exact HK2|].
      rewrite Hshown2, Hshown1, <- app_assoc. cbn [position]. now rewrite Hseg.
Qed.

End Wrap.

(** X14. [LineWrapper.wrap] keeps the text, on a wrapper without ellipsis
    or height limit whose page has room for every line. For a text
    without soft hyphens whose words have a width that is not negative
    (none for the empty word), on a wrapper that continues no line, whose
    space left lies between zero and its line width, and for breaks whose
    positions never go back: [wrap] returns, and the texts of the lines it
    has emitted when it returns, in order, are the lines there were before
    followed by the text up to the last break, each character once. *)
Theorem wrap_keeps_the_text (wordWidth : jsstring -> Q) (fuel : nat)
    (text : jsstring) (breaks : list Break) (x : Wrapper) :
  (forall s, (0 <= wordWidth s)%Q) -> (wordWidth [] <= 0)%Q ->
  Forall (fun c => c <> SOFT_HYPHEN) text ->
  ascending 0 breaks ->
  w_continuedX x = 0%Q ->
  (0 <= w_spaceLeft x)%Q -> (w_spaceLeft x <= w_lineWidth x)%Q ->
  2 * Z.of_nat (length text) + 3 <= Z.of_nat fuel ->
  exists x' log,
    wrap wordWidth fuel text breaks x = Some (x', log)
    /\ concat (map lineText (lines x'))
       = concat (map lineText (lines x)) ++ take (covered 0 breaks) text.
Proof.
  intros Hnn Hempty Htext Hasc Hc Hs0 Hs1 Hfuel.
  assert (HK : Kept (w_lineWidth x) (setBuffer [] 0%Q 0 x)).
  { split; cbn; auto. split; [lia|reflexivity]. }
  destruct (eachWordLoop_wrap wordWidth Hnn Hempty (w_lineWidth x) fuel text
              Htext Hfuel breaks None (setBuffer [] 0%Q 0 x) [] Hasc HK)
    as (x1 & log1 & E & HK1 & Hshown).
  unfold wrap, eachWord. rewrite E.
  cbn [drop] in Hshown. rewrite Nat.sub_0_r in Hshown.
  unfold shown in Hshown. cbn [lines buffer setBuffer] in Hshown.
  rewrite app_nil_r in Hshown.
  eexists _, _. split; [reflexivity|].
  destruct (Z.ltb_spec 0 (wc x1)) as [Hpos|Hzero].
  - rewrite shown_emitLine. exact Hshown.
  - destruct (kept_wc _ _ HK1) as [Hwc0 Hwc1].
    rewrite Hwc1 in Hshown by lia. rewrite app_nil_r in Hshown. exact Hshown.
Qed.

Lemma wrap_keeps_the_text_witness :
  exists x' log,
    wrap unitWidth 73 (replicate 9 97 ++ [32] ++ replicate 25 98)
      [{| position := 10; required := false |};
       {| position := 35; required := true |}] (emptyWrapper 10)
    = Some (x', log)
    /\ concat (map lineText (lines x'))
       = concat (map lineText (lines (emptyWrapper 10)))
         ++ take (covered 0 [{| position := 10; required := false |};
                             {| position := 35; required := true |}])
              (replicate 9 97 ++ [32] ++ replicate 25 98).
Proof.
  apply (wrap_keeps_the_text unitWidth 73
           (replicate 9 97 ++ [32] ++ replicate 25 98)
           [{| position := 10; required := false |};
            {| position := 35; required := true |}] (emptyWrapper 10)).
  - intros s. unfold unitWidth, Qle. simpl. lia.
  - unfold Qle. simpl. lia.
  - apply (bool_decide_unpack _). vm_compute. exact I.
  - cbn. lia.
  - reflexivity.
  - unfold Qle. simpl. lia.
  - unfold Qle. simpl. lia.
  - vm_compute. discriminate.
Defined.

End WrapFacts.
